(** * PEOE partial charges (biotite.structure.charges)

    A shallow embedding of [src/biotite/structure/charges.py]: the
    parameter table [EN_PARAMETERS], the lookup [_get_parameters] and the
    Gasteiger-Marsili relaxation [partial_charges].

    The program computes with NumPy [float64] values.  The embedding is
    written once over an interface of arithmetic ([Arith]) and is
    instantiated twice:
    - [Binary64]: IEEE 754 binary64, the arithmetic the program runs on
      (Rocq's primitive floats);
    - [Exact]: rational numbers extended with one NaN value, the arithmetic
      of the statements that are about exact values.

    What is stated of the program is stated for any arithmetic or for
    [Binary64].  Rounding and overflow are derived from the specification
    of the doubles, [SpecFloat]: a sum of doubles is their exact sum but
    for a relative error of 2^-53, or an infinity.

    The array [charges] is an array of floats, as the zero default and the
    returned partial charges are.  (With an array of integers NumPy would
    truncate every update in place and refuse to store NaN; such arrays
    are outside this development.)  Its elements, the atom count and the
    bond indices are those of a well-formed [AtomArray]: one element per
    atom, bond indices below the atom count.  The two checks NumPy makes
    at run time are part of the embedding: an index out of range raises
    [IndexError], charges not aligned with the atoms raise [ValueError]. *)

From Stdlib Require Import ZArith QArith Qcanon Floats Lia Field.
From stdpp Require Import base list strings.

Set Warnings "-inexact-float".

(** ** Arithmetic interface *)

Class Arith (F : Type) := {
  fnan : F;                      (* np.nan *)
  fdec : Z -> F;                 (* the literal with two decimals: fdec 717 is 7.17 *)
  fadd : F -> F -> F;
  fsub : F -> F -> F;
  fmul : F -> F -> F;
  fdiv : F -> F -> F;
  fgtb : F -> F -> bool;         (* x > y *)
  feqb : F -> F -> bool;         (* x == y *)
  fisnan : F -> bool             (* np.isnan *)
}.

(** NaN is absorbing for the operations the electronegativity is built
    from. Both instances below satisfy these laws. *)
Class NanLaws (F : Type) `{Arith F} := {
  fisnan_nan : fisnan fnan = true;
  fisnan_add_l : forall x y, fisnan x = true -> fisnan (fadd x y) = true;
  fisnan_mul_l : forall x y, fisnan x = true -> fisnan (fmul x y) = true
}.

(** ** Exceptions, warnings and the state monad *)

Inductive exn := AttributeError | ValueError | IndexError.

Inductive warning :=
  | MissingCharges                           (* no charge array, no annotation *)
  | MissingParameters (atoms : list string). (* the joined, unique element list *)

Definition M (S A : Type) : Type := S -> (exn + A) * S.

Definition ret {S A} (a : A) : M S A := fun s => (inr a, s).

Definition bind {S A B} (m : M S A) (k : A -> M S B) : M S B :=
  fun s => match m s with
           | (inl e, s') => (inl e, s')
           | (inr a, s') => k a s'
           end.

Definition raise {S A} (e : exn) : M S A := fun s => (inl e, s).

Definition get_state {S} : M S S := fun s => (inr s, s).

Definition modify {S} (f : S -> S) : M S unit := fun s => (inr tt, f s).

Declare Scope M_scope.
Delimit Scope M_scope with M.
Notation "x <- m ;; k" := (bind m (fun x => k))
  (at level 100, m at next level, right associativity) : M_scope.
Notation "m ;; k" := (bind m (fun _ => k))
  (at level 100, right associativity) : M_scope.
Local Open Scope M_scope.

(** [for x in l: body x] *)
Fixpoint for_each {S A} (l : list A) (body : A -> M S unit) : M S unit :=
  match l with
  | [] => ret tt
  | x :: l' => body x ;; for_each l' body
  end.

(** ** The parameter table *)

(** [EN_PARAMETERS]: element, then number of binding partners, then
    (a, b, c).  The literals have at most two decimals and are kept in
    hundredths; [fdec] turns them into values of the arithmetic. *)
Definition EN_PARAMETERS : list (string * list (nat * (Z * Z * Z))) :=
  [ ("H",  [ (1%nat, (717, 624, -56)) ]);
    ("C",  [ (4%nat, (798, 918, 188));
             (3%nat, (879, 918, 188));
             (2%nat, (1039, 945, 73)) ]);
    ("N",  [ (4%nat, (1154, 1082, 136));
             (3%nat, (1154, 1082, 136));
             (2%nat, (1287, 1115, 85));
             (1%nat, (1568, 1170, -27)) ]);
    ("O",  [ (2%nat, (1418, 1292, 139));
             (1%nat, (1707, 1379, 47)) ]);
    ("S",  [ (2%nat, (1014, 913, 138)) ]);
    ("F",  [ (1%nat, (1466, 1385, 231)) ]);
    ("Cl", [ (1%nat, (1100, 969, 135)) ]);
    ("Br", [ (1%nat, (1008, 847, 116)) ]);
    ("I",  [ (1%nat, (990, 796, 96)) ]) ]%Z.

(** [EN_POS_HYDROGEN = 20.02], in hundredths. *)
Definition EN_POS_HYDROGEN : Z := 2002.

(** [d[k]] on a dict literal; [None] stands for KeyError. *)
Fixpoint dict_get {K V} `{EqDecision K} (d : list (K * V)) (k : K) : option V :=
  match d with
  | [] => None
  | (k', v) :: d' => if decide (k' = k) then Some v else dict_get d' k
  end.

(** [EN_PARAMETERS[element][amount]]. *)
Definition lookup_parameters (element : string) (amount : nat) : option (Z * Z * Z) :=
  match dict_get EN_PARAMETERS element with
  | Some by_valence => dict_get by_valence amount
  | None => None
  end.

(** Modelled from the spec: [np.unique], of NumPy, is not part of the
    sources; it returns the sorted array of the distinct values. *)
Fixpoint insert_sorted (x : string) (l : list string) : list string :=
  match l with
  | [] => [x]
  | y :: l' => if String.leb x y then x :: l else y :: insert_sorted x l'
  end.

Definition np_unique (l : list string) : list string :=
  foldr insert_sorted [] (remove_dups l).

(** [', '.join(l)] *)
Fixpoint join (sep : string) (l : list string) : string :=
  match l with
  | [] => ""
  | [x] => x
  | x :: l' => x +:+ sep +:+ join sep l'
  end.

(** The text of a warning. *)
Definition warning_text (w : warning) : string :=
  match w with
  | MissingCharges =>
      "A charge array was neither given as optional argument, nor does a charge annotation of the inserted AtomArray exist. Therefore, all atoms' formal charge is assumed to be zero."
  | MissingParameters atoms =>
      "Parameters required for computation of electronegativity aren't available for the following atoms: "
      +:+ join ", " atoms
      +:+ ". Their electronegativity is given as NaN (Not a Number)."
  end.

(** ** The atom array and the objects a call can reach *)

(** Modelled from the spec: [BondList], of biotite's structure package,
    is not part of the sources.  [as_array()] enumerates every bond once
    as (i, j, bond type) with indices below the atom count, and
    [get_bonds(i)[0]] is the array of the atoms bonded to atom [i]. *)
Definition BondList := list (nat * nat * nat).

Definition get_bonds (bl : BondList) (i : nat) : list nat :=
  flat_map (fun '(a, b, _) =>
              if decide (a = i) then [b]
              else if decide (b = i) then [a] else []) bl.

(** The invariant of a [BondList] attached to an array of [n] atoms. *)
Definition bonds_in_range (n : nat) (bl : BondList) : Prop :=
  Forall (fun '(i, j, _) => i < n /\ j < n) bl.

Record AtomArray := {
  element : list string;       (* atom_array.element *)
  bonds : option BondList      (* atom_array.bonds, None when there is none *)
}.

Section Engine.
Context {F : Type} `{AF : Arith F}.

(** The array objects a call can read and write, and the warnings
    emitted so far. *)
Record world := {
  charges_arg : option (list F);    (* the array passed as [charges], if any *)
  charges_annot : option (list F);  (* atom_array.charges, if annotated *)
  charges_new : option (list F);    (* the np.zeros array of the call, once made *)
  warned : list warning
}.

Inductive buffer := ArgBuffer | AnnotBuffer | NewBuffer.

Definition read_buffer (b : buffer) (w : world) : list F :=
  default [] (match b with
              | ArgBuffer => charges_arg w
              | AnnotBuffer => charges_annot w
              | NewBuffer => charges_new w
              end).

Definition write_buffer (b : buffer) (c : list F) (w : world) : world :=
  match b with
  | ArgBuffer => {| charges_arg := Some c; charges_annot := charges_annot w;
                    charges_new := charges_new w; warned := warned w |}
  | AnnotBuffer => {| charges_arg := charges_arg w; charges_annot := Some c;
                      charges_new := charges_new w; warned := warned w |}
  | NewBuffer => {| charges_arg := charges_arg w; charges_annot := charges_annot w;
                    charges_new := Some c; warned := warned w |}
  end.

(** [warnings.warn(...)] *)
Definition warn (x : warning) : M world unit :=
  modify (fun w => {| charges_arg := charges_arg w; charges_annot := charges_annot w;
                      charges_new := charges_new w; warned := warned w ++ [x] |}).

(** Run code that works on the array [b] in place. *)
Definition on_buffer {A} (b : buffer) (m : M (list F) A) : M world A :=
  fun w => let '(r, c) := m (read_buffer b w) in (r, write_buffer b c w).

(** ** [_get_parameters] *)

Definition nan_row : F * F * F := (fnan, fnan, fnan).

Definition row_of (p : Z * Z * Z) : F * F * F :=
  let '(a, b, c) := p in (fdec a, fdec b, fdec c).

(** The loop over [enumerate(elements)]: the rows of [parameters] and
    [list_of_unparametrized_elements]. *)
Fixpoint gather (elements : list string) (amount_of_binding_partners : list nat)
  : list (F * F * F) * list string :=
  match elements, amount_of_binding_partners with
  | element :: elements', amount :: amounts' =>
      let '(rows, missing) := gather elements' amounts' in
      match lookup_parameters element amount with
      | Some p => (row_of p :: rows, missing)
      | None => (nan_row :: rows, element :: missing)
      end
  | _, _ => ([], [])
  end.

Definition _get_parameters (elements : list string)
    (amount_of_binding_partners : list nat) : M world (list (F * F * F)) :=
  let '(parameters, list_of_unparametrized_elements) :=
    gather elements amount_of_binding_partners in
  match list_of_unparametrized_elements with
  | [] => ret parameters
  | _ :: _ =>
      warn (MissingParameters (np_unique list_of_unparametrized_elements)) ;;
      ret parameters
  end.

(** ** [partial_charges] *)

(** [a[i]] for an index in range. *)
Definition item (a : list F) (i : nat) : F := default fnan (a !! i).

(** [np.sum(row)] of a row of three. *)
Definition sum3 (r : F * F * F) : F :=
  let '(x, y, z) := r in fadd (fadd x y) z.

(** One entry of [en_values]: the sum of the row of
    [parameters * charge_array], the latter being (1, q, q**2). *)
Definition en_value (p : F * F * F) (q : F) : F :=
  let '(a, b, c) := p in
  sum3 (fmul a (fdec 100), fmul b q, fmul c (fmul q q)).

Definition en_values (parameters : list (F * F * F)) (charges : list F) : list F :=
  zip_with en_value parameters charges.

(** [[20.02 if i == 12.85 else i for i in np.sum(parameters, axis=1)]] *)
Definition pos_en_value (p : F * F * F) : F :=
  if feqb (sum3 p) (fdec 1285) then fdec EN_POS_HYDROGEN else sum3 p.

Definition pos_en_values (parameters : list (F * F * F)) : list F :=
  map pos_en_value parameters.

Definition divisor_of (en pos : list F) (i j : nat) : F :=
  if fgtb (item en j) (item en i) then item pos i else item pos j.

Definition charge_transfer_of (en pos : list F) (damping : F) (i j : nat) : F :=
  fmul (fdiv (fsub (item en j) (item en i)) (divisor_of en pos i j)) damping.

(** The body of the loop over [atom_array.bonds.as_array()]; the state
    is the array [charges]. *)
Definition bond_step (en pos : list F) (damping : F) (b : nat * nat * nat)
  : M (list F) unit :=
  let '(i, j, _) := b in
  if negb ((i <? length en) && (j <? length en)) then raise IndexError
  else if fisnan (item en i) || fisnan (item en j) then
    if fisnan (item en i) && fisnan (item en j) then
      modify (<[i := fnan]>) ;; modify (<[j := fnan]>)
    else if fisnan (item en i) then modify (<[i := fnan]>)
    else modify (<[j := fnan]>)
  else
    let charge_transfer := charge_transfer_of en pos damping i j in
    modify (alter (fun q => fadd q charge_transfer) i) ;;
    modify (alter (fun q => fsub q charge_transfer) j).

(** The body of one iteration step, with the damping already halved.
    Building [charge_array] needs [charges] to have one entry per atom. *)
Definition iteration_body (parameters : list (F * F * F)) (bl : BondList)
    (damping : F) : M (list F) unit :=
  charges <- get_state ;;
  if negb (length charges =? length parameters) then raise ValueError
  else
    let en := en_values parameters charges in
    let pos := pos_en_values parameters in
    for_each bl (bond_step en pos damping).

(** [for _ in range(iteration_step_num)], with the local [damping]. *)
Fixpoint iterations (parameters : list (F * F * F)) (bl : BondList)
    (iteration_step_num : nat) (damping : F) : M (list F) unit :=
  match iteration_step_num with
  | 0 => ret tt
  | S k =>
      let damping := fmul damping (fdec 50) in
      iteration_body parameters bl damping ;;
      iterations parameters bl k damping
  end.

(** The choice of the array [charges]. *)
Definition choose_charges (n : nat) : M world buffer :=
  w <- get_state ;;
  match charges_arg w with
  | Some _ => ret ArgBuffer
  | None =>
      match charges_annot w with
      | Some _ => ret AnnotBuffer
      | None =>
          modify (write_buffer NewBuffer (replicate n (fdec 0))) ;;
          warn MissingCharges ;;
          ret NewBuffer
      end
  end.

Definition partial_charges (atom_array : AtomArray) (iteration_step_num : nat)
  : M world (list F) :=
  let n := length (element atom_array) in
  match bonds atom_array with
  | None => raise AttributeError
  | Some bl =>
      charges <- choose_charges n ;;
      let amount_of_binding_partners :=
        map (fun i => length (get_bonds bl i)) (seq 0 n) in
      parameters <- _get_parameters (element atom_array) amount_of_binding_partners ;;
      on_buffer charges (iterations parameters bl iteration_step_num (fdec 100)) ;;
      w <- get_state ;;
      ret (read_buffer charges w)
  end.

End Engine.

(** ** The two arithmetics *)

(** IEEE 754 binary64, the arithmetic of NumPy's float64. *)
Module Binary64.

Definition of_Z (z : Z) : float :=
  match z with
  | Z0 => PrimFloat.zero
  | Zpos _ => PrimFloat.of_uint63 (Uint63.of_Z z)
  | Zneg p => PrimFloat.opp (PrimFloat.of_uint63 (Uint63.of_Z (Zpos p)))
  end.

(** A literal with two decimals denotes the double nearest to it, which
    is the correctly rounded quotient of its hundredths by 100. *)
Definition dec (z : Z) : float := PrimFloat.div (of_Z z) (of_Z 100).

#[global] Instance arith : Arith float := {|
  fnan := PrimFloat.nan;
  fdec := dec;
  fadd := PrimFloat.add;
  fsub := PrimFloat.sub;
  fmul := PrimFloat.mul;
  fdiv := PrimFloat.div;
  fgtb x y := PrimFloat.ltb y x;
  feqb := PrimFloat.eqb;
  fisnan := PrimFloat.is_nan
|}.

End Binary64.

(** Exact arithmetic: the rationals and one NaN.  There is no overflow
    and no rounding; a division by zero gives NaN. *)
Module Exact.

Inductive t := NaN | Fin (q : Qc).

Definition lift2 (op : Qc -> Qc -> Qc) (x y : t) : t :=
  match x, y with
  | Fin p, Fin q => Fin (op p q)
  | _, _ => NaN
  end.

Definition div (x y : t) : t :=
  match x, y with
  | Fin p, Fin q => if Qeq_bool q 0 then NaN else Fin (p / q)
  | _, _ => NaN
  end.

Definition gtb (x y : t) : bool :=
  match x, y with
  | Fin p, Fin q => negb (Qle_bool p q)
  | _, _ => false
  end.

Definition eqb (x y : t) : bool :=
  match x, y with
  | Fin p, Fin q => Qeq_bool p q
  | _, _ => false
  end.

Definition is_nan (x : t) : bool :=
  match x with NaN => true | Fin _ => false end.

Definition dec (z : Z) : t := Fin (Q2Qc (z # 100)).

#[global] Instance arith : Arith t := {|
  fnan := NaN;
  fdec := dec;
  fadd := lift2 Qcplus;
  fsub := lift2 Qcminus;
  fmul := lift2 Qcmult;
  fdiv := div;
  fgtb := gtb;
  feqb := eqb;
  fisnan := is_nan
|}.

End Exact.

(** ** Fluoromethane, the example of the docstring *)

(** Modelled from the spec: [residue("CF0")], of biotite's structure.info
    package, is not part of the sources.  Its atoms are C1, F1, H1, H2, H3;
    the carbon is bonded to the fluorine and to the three hydrogens; it
    carries no annotation named [charges]. *)
Definition fluoromethane : AtomArray :=
  {| element := ["C"; "F"; "H"; "H"; "H"];
     bonds := Some [(0, 1, 1); (0, 2, 1); (0, 3, 1); (0, 4, 1)] |}.

(** A call without [charges] argument on an array without annotation. *)
Definition no_charges {F} : @world F :=
  {| charges_arg := None; charges_annot := None; charges_new := None; warned := [] |}.

(** ** Vocabulary of the statements *)

(** Every triple of the table. *)
Definition table_rows : list (Z * Z * Z) :=
  flat_map (fun '(_, by_valence) => map snd by_valence) EN_PARAMETERS.

Section Vocabulary.
Context {F : Type} `{AF : Arith F}.

Implicit Types (c : list F) (w : @world F).

(** The damping factor of iteration step [k], counted from 1:
    [1.0], multiplied [k] times by [0.5]. *)
Definition damping_at (k : nat) : F :=
  Nat.iter k (fun damping => fmul damping (fdec 50)) (fdec 100).

(** The row of [parameters] of an atom of element [e] with [a] binding
    partners. *)
Definition row_for (e : string) (a : nat) : F * F * F :=
  match lookup_parameters e a with
  | Some p => row_of p
  | None => nan_row
  end.

(** The number of binding partners of every atom. *)
Definition valences (n : nat) (bl : BondList) : list nat :=
  map (fun i => length (get_bonds bl i)) (seq 0 n).

(** The rows [_get_parameters] returns for an array with bonds [bl]. *)
Definition parameters_of (atom_array : AtomArray) (bl : BondList) : list (F * F * F) :=
  (gather (F:=F) (element atom_array) (valences (length (element atom_array)) bl)).1.

(** The elements [_get_parameters] finds no parameters for. *)
Definition missing_of (atom_array : AtomArray) (bl : BondList) : list string :=
  (gather (F:=F) (element atom_array) (valences (length (element atom_array)) bl)).2.

(** Atom [i] has element [e] and an entry of the table. *)
Definition parametrized (atom_array : AtomArray) (bl : BondList) (i : nat) : Prop :=
  exists e, element atom_array !! i = Some e
    /\ is_Some (lookup_parameters e (length (get_bonds bl i))).

(** Atom [i] has element [e] and no entry of the table. *)
Definition unparametrized (atom_array : AtomArray) (bl : BondList) (i : nat) (e : string) : Prop :=
  element atom_array !! i = Some e
  /\ lookup_parameters e (length (get_bonds bl i)) = None.

(** The charges the relaxation starts from: the argument, else the
    annotation, else zeros. *)
Definition initial_charges (n : nat) w : list F :=
  match charges_arg w, charges_annot w with
  | Some c, _ => c
  | None, Some c => c
  | None, None => replicate n (fdec 0)
  end.

Definition charges_warning w : list warning :=
  match charges_arg w, charges_annot w with
  | None, None => [MissingCharges]
  | _, _ => []
  end.

Definition parameters_warning (atom_array : AtomArray) (bl : BondList) : list warning :=
  match missing_of atom_array bl with
  | [] => []
  | _ :: _ => [MissingParameters (np_unique (missing_of atom_array bl))]
  end.

(** Entry [i] of [c] is NaN. *)
Definition nan_at c (i : nat) : Prop := exists q, c !! i = Some q /\ fisnan q = true.

(** The sum of all charges. *)
Definition total c : F := foldr fadd (fdec 0) c.

End Vocabulary.

(** In exact arithmetic: a row of [parameters] that comes from the table. *)
Definition table_row (r : Exact.t * Exact.t * Exact.t) : Prop :=
  exists p, p ∈ table_rows /\ r = row_of p.

(** In exact arithmetic: [c] has NaN where [c0] has, and nowhere else. *)
Definition same_nans (c0 c : list Exact.t) : Prop :=
  forall i, Exact.is_nan (item c i) = Exact.is_nan (item c0 i).

(** An array of three atoms: a helium atom without bonds, and two bonded
    hydrogen atoms. *)
Definition helium_and_hydrogen : AtomArray :=
  {| element := ["He"; "H"; "H"]; bonds := Some [(1, 2, 1)] |}.

(** An array without [BondList]. *)
Definition unbonded_carbon : AtomArray := {| element := ["C"]; bonds := None |}.

(** The hydrogen molecule. *)
Definition hydrogen_molecule : AtomArray :=
  {| element := ["H"; "H"]; bonds := Some [(0, 1, 1)] |}.

(** A call with the array [c] as [charges] argument. *)
Definition with_charges {F} (c : list F) : @world F :=
  {| charges_arg := Some c; charges_annot := None; charges_new := None; warned := [] |}.

(** Helium hydride: a helium atom bonded to a hydrogen atom. *)
Definition helium_hydride : AtomArray :=
  {| element := ["He"; "H"]; bonds := Some [(0, 1, 1)] |}.


(** What a call returns or raises. *)
Definition outcome {F A} (r : (exn + A) * @world F) : exn + A := r.1.

(** [|x - ref| <= tol] for every entry, in binary64. *)
Definition within (tol : float) (c refs : list float) : bool :=
  (length c =? length refs)
  && forallb (fun '(x, ref) => PrimFloat.leb (PrimFloat.abs (PrimFloat.sub x ref)) tol)
       (zip c refs).

(** Every literal of the module, in hundredths and as the double Python
    reads it as. *)
Definition literals : list (Z * float) :=
  [ (-27, (-0.27)%float); (47, 0.47%float); (-56, (-0.56)%float);
    (73, 0.73%float); (85, 0.85%float); (96, 0.96%float); (116, 1.16%float);
    (135, 1.35%float); (136, 1.36%float); (138, 1.38%float);
    (139, 1.39%float); (188, 1.88%float); (231, 2.31%float);
    (624, 6.24%float); (717, 7.17%float); (796, 7.96%float);
    (798, 7.98%float); (847, 8.47%float); (879, 8.79%float);
    (913, 9.13%float); (918, 9.18%float); (945, 9.45%float);
    (969, 9.69%float); (990, 9.90%float); (1008, 10.08%float);
    (1014, 10.14%float); (1039, 10.39%float); (1082, 10.82%float);
    (1100, 11.00%float); (1115, 11.15%float); (1154, 11.54%float);
    (1170, 11.70%float); (1287, 12.87%float); (1292, 12.92%float);
    (1379, 13.79%float); (1385, 13.85%float); (1418, 14.18%float);
    (1466, 14.66%float); (1568, 15.68%float); (1707, 17.07%float);
    (1285, 12.85%float); (2002, 20.02%float); (50, 0.50%float);
    (100, 1.00%float); (0, 0.00%float) ]%Z.

(** ** Vocabulary of the further statements *)

Section CallVocabulary.
Context {F : Type} `{AF : Arith F}.

Implicit Types (c : list F) (w : @world F).

(** The array that [charges] names in a call: the argument, else the
    annotation, else the new array of zeros. *)
Definition chosen_buffer w : buffer :=
  match charges_arg w, charges_annot w with
  | Some _, _ => ArgBuffer
  | None, Some _ => AnnotBuffer
  | None, None => NewBuffer
  end.

(** The objects after a call on an array with bonds [bl] that got past
    [_get_parameters] and left [c] in the array [charges]. *)
Definition world_after (atom_array : AtomArray) (bl : BondList) w c : world :=
  write_buffer (chosen_buffer w) c
    {| charges_arg := charges_arg w; charges_annot := charges_annot w;
       charges_new := charges_new w;
       warned := warned w ++ charges_warning w ++ parameters_warning atom_array bl |}.

End CallVocabulary.

(** A renumbering of [n] atoms: [sigma] gives the new index of an atom,
    [tau] the old index of a new one. *)
Definition renumbering (n : nat) (sigma tau : nat -> nat) : Prop :=
  forall k, k < n ->
    sigma k < n /\ tau k < n /\ tau (sigma k) = k /\ sigma (tau k) = k.

(** The array [l'] is the array [l] after the renumbering: its entry [k]
    is the entry [tau k] of [l]. *)
Definition renumbered {A} (tau : nat -> nat) (l l' : list A) : Prop :=
  length l' = length l /\ forall k, k < length l -> l' !! k = l !! tau k.

(** A bond after the renumbering. *)
Definition renumber_bond (sigma : nat -> nat) (b : nat * nat * nat) : nat * nat * nat :=
  let '(i, j, t) := b in (sigma i, sigma j, t).

(** A bond with its ends exchanged. *)
Definition swap_ends (b : nat * nat * nat) : nat * nat * nat :=
  let '(i, j, t) := b in (j, i, t).

(** The bond [b'] is the bond [b], in the same or in the other
    orientation. *)
Definition same_bond (b b' : nat * nat * nat) : Prop :=
  b' = b \/ b' = swap_ends b.

(** Two bonds that share no atom. *)
Definition apart (a b : nat * nat * nat) : Prop :=
  let '(i, j, _) := a in
  let '(k, l, _) := b in
  i <> k /\ i <> l /\ j <> k /\ j <> l.

(** [bl'] enumerates the bonds of [bl] in an order reached by exchanging
    neighbours that share no atom: an order that keeps, for every atom,
    the order of its own bonds. *)
Inductive reordered : BondList -> BondList -> Prop :=
  | reordered_refl bl : reordered bl bl
  | reordered_swap a b bl : apart a b -> reordered (a :: b :: bl) (b :: a :: bl)
  | reordered_skip a bl bl' : reordered bl bl' -> reordered (a :: bl) (a :: bl')
  | reordered_trans bl bl' bl'' :
      reordered bl bl' -> reordered bl' bl'' -> reordered bl bl''.

(** ** Vocabulary of the statements about binary64 *)

(** Hydrogen fluoride. *)
Definition hydrogen_fluoride : AtomArray :=
  {| element := ["H"; "F"]; bonds := Some [(0, 1, 1)] |}.

(** The value of a double, counted in units of 2^-1074, the least
    positive double: a finite double is a whole number of units, its
    mantissa times a power of two.  Infinities and NaN count as 0; the
    statements take the units of finite doubles only. *)
Definition sf_units (f : SpecFloat.spec_float) : Z :=
  match f with
  | SpecFloat.S754_finite s m e => SpecFloat.cond_Zopp s (Zpos m * 2 ^ (e + 1074))%Z
  | _ => 0%Z
  end.

Definition units (x : float) : Z := sf_units (Prim2SF x).

(** The sum of an array of finite doubles, taken without rounding. *)
Definition units_total (c : list float) : Z :=
  foldr (fun q s => (units q + s)%Z) 0%Z c.

(** Zero or finite: what [PrimFloat.is_finite] tests. *)
Definition finite_sf (f : SpecFloat.spec_float) : bool :=
  match f with
  | SpecFloat.S754_zero _ | SpecFloat.S754_finite _ _ _ => true
  | _ => false
  end.

(** The format of a finite double: an exponent of -1074 at least, a
    mantissa of 53 digits at most, and of 53 above the least exponent. *)
Definition canonical (f : SpecFloat.spec_float) : Prop :=
  match f with
  | SpecFloat.S754_finite _ m e =>
      (-1074 <= e /\ Zpos m < 2 ^ 53 /\ (-1074 < e -> 2 ^ 52 <= Zpos m))%Z
  | _ => True
  end.

(** [f] is zero, NaN, or of sign [b] ([true] for minus). *)
Definition signed (b : bool) (f : SpecFloat.spec_float) : Prop :=
  match f with
  | SpecFloat.S754_infinity s | SpecFloat.S754_finite s _ _ => s = b
  | _ => True
  end.

(** The record [mrs] of the rounding procedure describes [M / 2^k]: its
    quotient, whether the remainder reaches the half, and whether it is
    off the half and off zero. *)
Definition describes (M k : Z) (mrs : SpecFloat.shr_record) : Prop :=
  (0 <= SpecFloat.shr_m mrs
   /\ exists rem,
        M = SpecFloat.shr_m mrs * 2 ^ k + rem /\ 0 <= rem < 2 ^ k
        /\ (SpecFloat.shr_r mrs = true <-> 2 ^ k <= 2 * rem)
        /\ (SpecFloat.shr_s mrs = false <-> rem = 0 \/ 2 * rem = 2 ^ k))%Z.

(** [r] is a rounding of [V * 2^ez], with [V] positive, to a double of
    sign [s]: the infinity, or a finite double within a relative error of
    2^-53. *)
Definition rounds (s : bool) (V ez : Z) (r : SpecFloat.spec_float) : Prop :=
  match r with
  | SpecFloat.S754_finite s' m e =>
      s' = s
      /\ (-1074 <= e
          /\ 2 ^ 53 * Z.abs (Zpos m * 2 ^ (e + 1074) - V * 2 ^ (ez + 1074))
             <= Zpos m * 2 ^ (e + 1074))%Z
  | SpecFloat.S754_infinity s' => s' = s
  | _ => False
  end.

(** Atom [i] has an entry of the table: the test of [parametrized]. *)
Definition has_parameters (atom_array : AtomArray) (bl : BondList) (i : nat) : bool :=
  match element atom_array !! i with
  | Some e => bool_decide (is_Some (lookup_parameters e (length (get_bonds bl i))))
  | None => false
  end.

(** A loop observed: [ok x s] holds of every item [x] and of the state
    [s] the body finds when it processes [x].  After an exception the
    loop has ended, and nothing more is observed. *)
Fixpoint loop_passes {S A} (ok : A -> S -> bool) (body : A -> M S unit)
    (l : list A) (s : S) : bool :=
  match l with
  | [] => true
  | x :: l' =>
      ok x s && match body x s with
                | (inr _, s') => loop_passes ok body l' s'
                | (inl _, _) => true
                end
  end.

Section Watch.
Context {F : Type} `{AF : Arith F}.

(** The relaxation observed: [ok en pos damping b c] holds of every bond
    [b] of every iteration step, for the arrays [en_values] and
    [pos_en_values] and the damping factor of the step, and the charges
    [c] the bond is processed with. *)
Fixpoint run_passes (ok : list F -> list F -> F -> nat * nat * nat -> list F -> bool)
    (parameters : list (F * F * F)) (bl : BondList)
    (iteration_step_num : nat) (damping : F) (charges : list F) : bool :=
  match iteration_step_num with
  | 0 => true
  | S k =>
      let damping := fmul damping (fdec 50) in
      let en := en_values parameters charges in
      let pos := pos_en_values parameters in
      loop_passes (ok en pos damping) (bond_step en pos damping) bl charges
      && match iteration_body parameters bl damping charges with
         | (inr _, charges') => run_passes ok parameters bl k damping charges'
         | (inl _, _) => true
         end
  end.

End Watch.

(** No overflow reaches the bond: the electronegativity of each end that
    has parameters is not NaN, and when neither electronegativity is NaN,
    the transfer is finite. *)
Definition transfer_is_finite (known : nat -> bool) (en pos : list float)
    (damping : float) (b : nat * nat * nat) (c : list float) : bool :=
  let '(i, j, _) := b in
  implb (known i) (negb (PrimFloat.is_nan (item en i)))
  && implb (known j) (negb (PrimFloat.is_nan (item en j)))
  && (PrimFloat.is_nan (item en i) || PrimFloat.is_nan (item en j)
      || PrimFloat.is_finite (charge_transfer_of en pos damping i j)).

(** No overflow reaches a bond of a call of [iteration_step_num] steps. *)
Definition no_overflow (atom_array : AtomArray) (bl : BondList)
    (iteration_step_num : nat) (w : @world float) : bool :=
  run_passes (transfer_is_finite (has_parameters atom_array bl))
    (parameters_of atom_array bl) bl iteration_step_num (fdec 100)
    (initial_charges (length (element atom_array)) w).

(** The bond transfers charge and stays within [bound] units: neither
    electronegativity is NaN, the transfer is finite, and the two charges
    it writes, [charges[i] + charge_transfer] and then
    [charges[j] - charge_transfer], are finite and of [bound] units at
    most. *)
Definition transfer_within (bound : Z) (en pos : list float)
    (damping : float) (b : nat * nat * nat) (c : list float) : bool :=
  let '(i, j, _) := b in
  let charge_transfer := charge_transfer_of en pos damping i j in
  let qi := fadd (item c i) charge_transfer in
  let qj := fsub (item (alter (fun q => fadd q charge_transfer) i c) j) charge_transfer in
  negb (PrimFloat.is_nan (item en i)) && negb (PrimFloat.is_nan (item en j))
  && PrimFloat.is_finite charge_transfer
  && PrimFloat.is_finite qi && PrimFloat.is_finite qj
  && (Z.abs (units qi) <=? bound)%Z && (Z.abs (units qj) <=? bound)%Z.

(** Every bond of a call of [iteration_step_num] steps transfers charge
    and stays within [bound] units. *)
Definition stays_within (bound : Z) (atom_array : AtomArray) (bl : BondList)
    (iteration_step_num : nat) (w : @world float) : bool :=
  run_passes (transfer_within bound)
    (parameters_of atom_array bl) bl iteration_step_num (fdec 100)
    (initial_charges (length (element atom_array)) w).

(** The two electronegativities of the bond differ, or one of them is
    NaN. *)
Definition electronegativities_differ (en pos : list float) (damping : float)
    (b : nat * nat * nat) (c : list float) : bool :=
  let '(i, j, _) := b in
  PrimFloat.is_nan (item en i) || PrimFloat.is_nan (item en j)
  || PrimFloat.ltb (item en i) (item en j) || PrimFloat.ltb (item en j) (item en i).

(** No bond of a call of [iteration_step_num] steps meets two equal
    electronegativities. *)
Definition no_ties (atom_array : AtomArray) (bl : BondList)
    (iteration_step_num : nat) (w : @world float) : bool :=
  run_passes electronegativities_differ
    (parameters_of atom_array bl) bl iteration_step_num (fdec 100)
    (initial_charges (length (element atom_array)) w).

(** * Properties *)

(** ** The monad *)

Section MonadFacts.
Context {S : Type}.

(** A loop whose body returns and keeps an invariant returns and keeps it. *)
Lemma for_each_inv {A} (P : S -> Prop) (l : list A) (body : A -> M S unit) :
  (forall x s, x ∈ l -> P s -> exists s', body x s = (inr tt, s') /\ P s') ->
  forall s, P s -> exists s', for_each l body s = (inr tt, s') /\ P s'.
Proof.
  induction l as [|x l IH]; intros Hbody s Hs; simpl.
  - exists s. split; [reflexivity | assumption].
  - destruct (Hbody x s) as (s1 & E1 & H1); [left | assumption |].
    destruct IH with (s := s1) as (s2 & E2 & H2); [| assumption |].
    + intros y t Hy. apply Hbody. now right.
    + exists s2. unfold bind. rewrite E1. split; assumption.
Qed.

End MonadFacts.

(** ** Dictionaries and the table *)

Lemma dict_get_Some {K V} `{EqDecision K} (d : list (K * V)) k v :
  dict_get d k = Some v -> (k, v) ∈ d.
Proof.
  induction d as [|[k' v'] d IH]; simpl; [discriminate |].
  destruct (decide (k' = k)) as [->|]; intros E.
  - injection E as ->. left.
  - right. auto.
Qed.

Lemma lookup_parameters_row e v p :
  lookup_parameters e v = Some p -> p ∈ table_rows.
Proof.
  unfold lookup_parameters, table_rows.
  destruct (dict_get EN_PARAMETERS e) as [d|] eqn:E; [| discriminate].
  intros Hp. apply dict_get_Some in E. apply dict_get_Some in Hp.
  apply list_elem_of_In, in_flat_map. exists (e, d).
  split; [now apply list_elem_of_In |].
  apply in_map_iff. exists (v, p). split; [reflexivity | now apply list_elem_of_In].
Qed.

(** No element has an entry for zero binding partners. *)
Lemma lookup_parameters_0 e : lookup_parameters e 0 = None.
Proof.
  unfold lookup_parameters.
  destruct (dict_get EN_PARAMETERS e) as [d|] eqn:E; [| reflexivity].
  apply dict_get_Some in E.
  assert (H : Forall (fun kv => dict_get (snd kv) 0 = None) EN_PARAMETERS)
    by (repeat constructor).
  rewrite Forall_forall in H. exact (H (e, d) E).
Qed.

(** ** [np.unique] *)

Lemma insert_sorted_perm x l : insert_sorted x l ≡ₚ x :: l.
Proof.
  induction l as [|y l IH]; simpl; [reflexivity |].
  destruct (String.leb x y); [reflexivity |].
  rewrite IH. apply Permutation_swap.
Qed.

Lemma np_unique_perm l : np_unique l ≡ₚ remove_dups l.
Proof.
  unfold np_unique. induction (remove_dups l) as [|x r IH]; simpl; [reflexivity |].
  rewrite insert_sorted_perm. now rewrite IH.
Qed.

Lemma np_unique_NoDup l : NoDup (np_unique l).
Proof. rewrite np_unique_perm. apply NoDup_remove_dups. Qed.

Lemma np_unique_elem x l : x ∈ np_unique l <-> x ∈ l.
Proof. rewrite np_unique_perm. apply elem_of_remove_dups. Qed.

Example np_unique_sorts :
  np_unique ["Xe"; "He"; "Xe"; "Ar"; "He"] = ["Ar"; "He"; "Xe"].
Proof. reflexivity. Qed.

Example warning_text_of_two :
  warning_text (MissingParameters (np_unique ["Xe"; "He"; "Xe"])) =
  "Parameters required for computation of electronegativity aren't available for the following atoms: He, Xe. Their electronegativity is given as NaN (Not a Number).".
Proof. reflexivity. Qed.

(** ** Bonds *)

Lemma get_bonds_nil bl i a b t :
  get_bonds bl i = [] -> (a, b, t) ∈ bl -> a <> i /\ b <> i.
Proof.
  unfold get_bonds. induction bl as [|[[a' b'] t'] bl IH]; simpl; intros E Hin.
  - inversion Hin.
  - apply app_eq_nil in E as [E1 E2].
    apply elem_of_cons in Hin as [Heq | Hin]; [| now apply IH].
    injection Heq as -> -> ->.
    destruct (decide (a' = i)); [discriminate |].
    destruct (decide (b' = i)); [discriminate |]. now split.
Qed.

Lemma get_bonds_cons bl i a b t :
  (a, b, t) ∈ bl -> a = i \/ b = i -> get_bonds bl i <> [].
Proof.
  intros Hin Hi E. destruct (get_bonds_nil bl i a b t E Hin). tauto.
Qed.

(** ** The engine, for any arithmetic *)

Section EngineFacts.
Context {F : Type} `{AF : Arith F}.

Implicit Types (c en pos : list F) (parameters : list (F * F * F)).

(** *** One bond *)

Lemma bond_step_both_nan en pos damping i j t c :
  i < length en -> j < length en ->
  fisnan (item en i) = true -> fisnan (item en j) = true ->
  bond_step en pos damping (i, j, t) c = (inr tt, <[j := fnan]> (<[i := fnan]> c)).
Proof.
  intros Hi Hj Ni Nj. unfold bond_step.
  apply Nat.ltb_lt in Hi, Hj. now rewrite Hi, Hj, Ni, Nj.
Qed.

Lemma bond_step_left_nan en pos damping i j t c :
  i < length en -> j < length en ->
  fisnan (item en i) = true -> fisnan (item en j) = false ->
  bond_step en pos damping (i, j, t) c = (inr tt, <[i := fnan]> c).
Proof.
  intros Hi Hj Ni Nj. unfold bond_step.
  apply Nat.ltb_lt in Hi, Hj. now rewrite Hi, Hj, Ni, Nj.
Qed.

Lemma bond_step_right_nan en pos damping i j t c :
  i < length en -> j < length en ->
  fisnan (item en i) = false -> fisnan (item en j) = true ->
  bond_step en pos damping (i, j, t) c = (inr tt, <[j := fnan]> c).
Proof.
  intros Hi Hj Ni Nj. unfold bond_step.
  apply Nat.ltb_lt in Hi, Hj. now rewrite Hi, Hj, Ni, Nj.
Qed.

Lemma bond_step_transfer en pos damping i j t c :
  i < length en -> j < length en ->
  fisnan (item en i) = false -> fisnan (item en j) = false ->
  bond_step en pos damping (i, j, t) c =
    (inr tt,
     alter (fun q => fsub q (charge_transfer_of en pos damping i j)) j
       (alter (fun q => fadd q (charge_transfer_of en pos damping i j)) i c)).
Proof.
  intros Hi Hj Ni Nj. unfold bond_step.
  apply Nat.ltb_lt in Hi, Hj. now rewrite Hi, Hj, Ni, Nj.
Qed.

(** A bond between atoms of the array is processed without exception; it
    keeps the length of [charges] and every entry but those of its ends. *)
Lemma bond_step_frame en pos damping i j t c :
  i < length en -> j < length en ->
  exists c', bond_step en pos damping (i, j, t) c = (inr tt, c')
    /\ length c' = length c
    /\ forall k, k <> i -> k <> j -> c' !! k = c !! k.
Proof.
  intros Hi Hj.
  destruct (fisnan (item en i)) eqn:Ni, (fisnan (item en j)) eqn:Nj;
    eexists; (split;
      [ first [ now apply bond_step_both_nan | now apply bond_step_left_nan
              | now apply bond_step_right_nan | now apply bond_step_transfer ] |]);
    (split; [ now rewrite ?length_insert, ?length_alter |]);
    intros k Hki Hkj;
    now rewrite ?list_lookup_insert_ne, ?list_lookup_alter_ne by congruence.
Qed.

(** *** One iteration step and the loop *)

Lemma iteration_body_aligned parameters bl damping c :
  length c = length parameters ->
  iteration_body parameters bl damping c =
    for_each bl (bond_step (en_values parameters c) (pos_en_values parameters) damping) c.
Proof.
  intros E. unfold iteration_body, bind, get_state.
  apply Nat.eqb_eq in E. now rewrite E.
Qed.

Lemma en_values_length parameters c :
  length c = length parameters -> length (en_values parameters c) = length parameters.
Proof. intros E. unfold en_values. rewrite length_zip_with. lia. Qed.

Lemma en_values_lookup parameters c i p q :
  parameters !! i = Some p -> c !! i = Some q ->
  item (en_values parameters c) i = en_value p q.
Proof.
  intros Hp Hq. unfold item, en_values.
  rewrite lookup_zip_with, Hp. simpl. now rewrite Hq.
Qed.

(** An invariant of the iteration step is an invariant of the loop. *)
Lemma iterations_inv (P : list F -> Prop) parameters bl :
  (forall damping c, P c ->
     exists c', iteration_body parameters bl damping c = (inr tt, c') /\ P c') ->
  forall n damping c, P c ->
    exists c', iterations parameters bl n damping c = (inr tt, c') /\ P c'.
Proof.
  intros Hbody n. induction n as [|n IH]; intros damping c Hc; simpl.
  - exists c. now split.
  - destruct (Hbody (fmul damping (fdec 50)) c Hc) as (c1 & E1 & H1).
    destruct (IH (fmul damping (fdec 50)) c1 H1) as (c2 & E2 & H2).
    exists c2. unfold bind. rewrite E1. now split.
Qed.

Lemma iterations_from parameters bl n k :
  iterations parameters bl n (damping_at k) =
  for_each (seq (S k) n) (fun m => iteration_body parameters bl (damping_at m)).
Proof.
  revert k. induction n as [|n IH]; intros k; simpl; [reflexivity |].
  change (fmul (damping_at k) (fdec 50)) with (damping_at (S k)).
  now rewrite IH.
Qed.

(** *** [_get_parameters] *)

Lemma gather_length els ams :
  length els = length ams -> length (gather els ams).1 = length els.
Proof.
  revert ams. induction els as [|e els IH]; intros [|a ams]; simpl; try easy.
  intros E. specialize (IH ams). destruct (gather els ams) as [rows missing].
  destruct (lookup_parameters e a); simpl in *; lia.
Qed.

Lemma gather_lookup els ams i e a :
  els !! i = Some e -> ams !! i = Some a ->
  (gather els ams).1 !! i = Some (row_for e a).
Proof.
  revert ams i. induction els as [|e' els IH]; intros [|a' ams] i; try easy.
  simpl. specialize (IH ams). destruct (gather els ams) as [rows missing].
  destruct i as [|i]; simpl.
  - intros [= ->] [= ->]. unfold row_for. now destruct (lookup_parameters e a).
  - intros He Ha. specialize (IH i He Ha). now destruct (lookup_parameters e' a').
Qed.

Lemma gather_missing els ams e :
  e ∈ (gather els ams).2 <->
  exists i a, els !! i = Some e /\ ams !! i = Some a /\ lookup_parameters e a = None.
Proof.
  revert ams. induction els as [|e' els IH]; intros [|a' ams]; simpl.
  1-3: split; [intros H; inversion H | intros (i & a & H1 & H2 & _); now destruct i].
  specialize (IH ams). destruct (gather els ams) as [rows missing]. simpl in IH.
  destruct (lookup_parameters e' a') eqn:L; simpl.
  - rewrite IH. split.
    + intros (i & a & ? & ? & ?). now exists (S i), a.
    + intros ([|i] & a & H1 & H2 & H3); simpl in *.
      * injection H1 as ->. injection H2 as ->. congruence.
      * now exists i, a.
  - rewrite elem_of_cons, IH. split.
    + intros [-> | (i & a & ? & ? & ?)]; [now exists 0, a' | now exists (S i), a].
    + intros ([|i] & a & H1 & H2 & H3); simpl in *.
      * injection H1 as ->. now left.
      * right. now exists i, a.
Qed.

End EngineFacts.

(** ** The call, for any arithmetic *)

Section CallFacts.
Context {F : Type} `{AF : Arith F}.

Implicit Types (c : list F) (w : @world F).

Lemma valences_lookup n bl i :
  i < n -> valences n bl !! i = Some (length (get_bonds bl i)).
Proof.
  intros Hi. unfold valences. rewrite list_lookup_fmap, lookup_seq_lt by assumption.
  reflexivity.
Qed.

Lemma valences_length n bl : length (valences n bl) = n.
Proof. unfold valences. now rewrite length_map, length_seq. Qed.

Lemma parameters_of_length atom_array bl :
  length (parameters_of atom_array bl) = length (element atom_array).
Proof. unfold parameters_of. apply gather_length. now rewrite valences_length. Qed.

Lemma parameters_of_lookup atom_array bl i e :
  element atom_array !! i = Some e ->
  parameters_of atom_array bl !! i = Some (row_for e (length (get_bonds bl i))).
Proof.
  intros He. unfold parameters_of. apply gather_lookup; [assumption |].
  apply valences_lookup. now apply lookup_lt_Some in He.
Qed.

Lemma missing_of_elem atom_array bl e :
  e ∈ missing_of atom_array bl <-> exists i, unparametrized atom_array bl i e.
Proof.
  unfold missing_of, unparametrized. rewrite gather_missing. split.
  - intros (i & a & He & Ha & L). exists i. split; [assumption |].
    rewrite valences_lookup in Ha by now apply lookup_lt_Some in He.
    now injection Ha as <-.
  - intros (i & He & L). exists i, (length (get_bonds bl i)).
    split; [assumption |]. split; [| assumption].
    apply valences_lookup. now apply lookup_lt_Some in He.
Qed.

(** A call on an array with bonds: the relaxation runs on the initial
    charges; when it returns, the call returns its array, having emitted
    at most the two warnings, in this order. *)
Lemma partial_charges_returns atom_array bl n w c :
  bonds atom_array = Some bl ->
  iterations (parameters_of atom_array bl) bl n (fdec 100)
    (initial_charges (length (element atom_array)) w) = (inr tt, c) ->
  exists w', partial_charges atom_array n w = (inr c, w')
    /\ warned w' = warned w ++ charges_warning w ++ parameters_warning atom_array bl.
Proof.
  intros Hb. unfold partial_charges, parameters_of, parameters_warning, missing_of,
    initial_charges, charges_warning, _get_parameters, valences.
  rewrite Hb. destruct w as [[a|] [an|] nw wd]; simpl;
    destruct (gather _ _) as [rows [|m missing]]; simpl; intros E;
    unfold bind, on_buffer, read_buffer; simpl; rewrite E; simpl;
    eexists; (split; [reflexivity |]); simpl; now rewrite ?app_nil_r, <- ?app_assoc.
Qed.

End CallFacts.

(** ** Atoms without bonds *)

Section Frame.
Context {F : Type} `{AF : Arith F}.

(** The relaxation on an array whose bonds lie in range and whose charges
    are aligned returns, and writes no entry of an atom without bonds. *)
Lemma relaxation_frame (parameters : list (F * F * F)) (bl : BondList)
    (n : nat) (damping : F) (c0 : list F) (i : nat) :
  bonds_in_range (length parameters) bl ->
  length c0 = length parameters ->
  get_bonds bl i = [] ->
  exists c, iterations parameters bl n damping c0 = (inr tt, c)
    /\ length c = length parameters /\ c !! i = c0 !! i.
Proof.
  intros Hr Hlen Hi.
  apply (iterations_inv (fun c => length c = length parameters /\ c !! i = c0 !! i));
    [| now split].
  clear damping. intros damping c [Hc Hci].
  rewrite iteration_body_aligned by assumption.
  apply (for_each_inv (fun c => length c = length parameters /\ c !! i = c0 !! i));
    [| now split].
  intros [[a b] t] s Hin [Hs Hsi].
  unfold bonds_in_range in Hr. rewrite Forall_forall in Hr.
  destruct (Hr _ Hin) as [Ha Hb].
  destruct (get_bonds_nil bl i a b t Hi Hin) as [Hai Hbi].
  destruct (bond_step_frame (en_values parameters c) (pos_en_values parameters)
              damping a b t s) as (s' & E & Hl & Hk).
  1-2: now rewrite en_values_length.
  exists s'. split; [assumption |]. split; [congruence |].
  rewrite Hk by congruence. assumption.
Qed.

End Frame.

(** ** The claims that hold for any arithmetic *)

(** C7: on an atom array without bond list, [partial_charges] raises
    [AttributeError] and leaves every object as it was: no array of
    charges is made or written, no warning is emitted and nothing is
    returned, for every number of iteration steps and every [charges]. *)
Theorem missing_bond_list_raises {F : Type} `{AF : Arith F}
    (atom_array : AtomArray) (iteration_step_num : nat) (w : @world F) :
  bonds atom_array = None ->
  partial_charges atom_array iteration_step_num w = (inl AttributeError, w).
Proof. intros Hb. unfold partial_charges. now rewrite Hb. Qed.

Lemma missing_bond_list_raises_witness :
  bonds unbonded_carbon = None /\
  partial_charges (F:=float) unbonded_carbon 6
    {| charges_arg := Some [Binary64.dec 100]; charges_annot := None;
       charges_new := None; warned := [] |}
  = (inl AttributeError,
     {| charges_arg := Some [Binary64.dec 100]; charges_annot := None;
        charges_new := None; warned := [] |}).
Proof.
  split; [reflexivity |]. apply (missing_bond_list_raises unbonded_carbon 6). reflexivity.
Defined.

(** C4: a bond (i, j) between atoms of the array is processed without
    exception.  When both electronegativities are NaN, both charges are
    set to NaN; when exactly one is, the charge of that atom is set to NaN
    and the charge of the other end is not written. *)
Theorem poisoning_rule {F : Type} `{AF : Arith F}
    (en pos : list F) (damping : F) (i j t : nat) (c : list F) :
  i < length en -> j < length en -> length c = length en ->
  (exists c', bond_step en pos damping (i, j, t) c = (inr tt, c')) /\
  (fisnan (item en i) = true -> fisnan (item en j) = true ->
     exists c', bond_step en pos damping (i, j, t) c = (inr tt, c')
       /\ c' !! i = Some fnan /\ c' !! j = Some fnan
       /\ forall k, k <> i -> k <> j -> c' !! k = c !! k) /\
  (fisnan (item en i) = true -> fisnan (item en j) = false ->
     exists c', bond_step en pos damping (i, j, t) c = (inr tt, c')
       /\ c' !! i = Some fnan /\ forall k, k <> i -> c' !! k = c !! k) /\
  (fisnan (item en i) = false -> fisnan (item en j) = true ->
     exists c', bond_step en pos damping (i, j, t) c = (inr tt, c')
       /\ c' !! j = Some fnan /\ forall k, k <> j -> c' !! k = c !! k).
Proof.
  intros Hi Hj Hc. split; [| split; [| split]].
  - destruct (bond_step_frame en pos damping i j t c Hi Hj) as (c' & E & _). now exists c'.
  - intros Ni Nj. eexists. split; [now apply bond_step_both_nan |].
    split; [| split].
    + destruct (decide (i = j)) as [->|Hne].
      * apply list_lookup_insert_eq. rewrite length_insert. lia.
      * rewrite list_lookup_insert_ne by congruence. apply list_lookup_insert_eq. lia.
    + apply list_lookup_insert_eq. rewrite length_insert. lia.
    + intros k Hki Hkj. now rewrite !list_lookup_insert_ne by congruence.
  - intros Ni Nj. eexists. split; [now apply bond_step_left_nan |].
    split; [apply list_lookup_insert_eq; lia |].
    intros k Hk. now rewrite list_lookup_insert_ne by congruence.
  - intros Ni Nj. eexists. split; [now apply bond_step_right_nan |].
    split; [apply list_lookup_insert_eq; lia |].
    intros k Hk. now rewrite list_lookup_insert_ne by congruence.
Qed.

(** C9: an atom without bonds is returned with the charge it started
    with (from the argument, the annotation or the zero default), for
    every number of iteration steps. *)
Theorem isolated_atom_keeps_charge {F : Type} `{AF : Arith F}
    (atom_array : AtomArray) (bl : BondList) (iteration_step_num : nat)
    (w : @world F) (i : nat) :
  bonds atom_array = Some bl ->
  bonds_in_range (length (element atom_array)) bl ->
  length (initial_charges (length (element atom_array)) w) = length (element atom_array) ->
  get_bonds bl i = [] ->
  exists c w', partial_charges atom_array iteration_step_num w = (inr c, w')
    /\ c !! i = initial_charges (length (element atom_array)) w !! i.
Proof.
  intros Hb Hr Hlen Hi.
  destruct (relaxation_frame (parameters_of atom_array bl) bl iteration_step_num
              (fdec 100) (initial_charges (length (element atom_array)) w) i)
    as (c & E & _ & Hci); try assumption.
  1-2: now rewrite parameters_of_length.
  destruct (partial_charges_returns atom_array bl iteration_step_num w c Hb E)
    as (w' & Ew & _).
  now exists c, w'.
Qed.

(** C10: an atom without bonds has no entry in the table, whatever its
    element is; the call warns about missing parameters and names the
    element of the atom, and returns the atom with the charge it started
    with. *)
Theorem isolated_atom_is_warned_about {F : Type} `{AF : Arith F}
    (atom_array : AtomArray) (bl : BondList) (iteration_step_num : nat)
    (w : @world F) (i : nat) (e : string) :
  bonds atom_array = Some bl ->
  bonds_in_range (length (element atom_array)) bl ->
  length (initial_charges (length (element atom_array)) w) = length (element atom_array) ->
  element atom_array !! i = Some e ->
  get_bonds bl i = [] ->
  lookup_parameters e (length (get_bonds bl i)) = None /\
  exists c w' atoms,
    partial_charges atom_array iteration_step_num w = (inr c, w')
    /\ warned w' = warned w ++ charges_warning w ++ [MissingParameters atoms]
    /\ e ∈ atoms
    /\ c !! i = initial_charges (length (element atom_array)) w !! i.
Proof.
  intros Hb Hr Hlen He Hi.
  assert (L : lookup_parameters e (length (get_bonds bl i)) = None)
    by (rewrite Hi; apply lookup_parameters_0).
  split; [assumption |].
  destruct (relaxation_frame (parameters_of atom_array bl) bl iteration_step_num
              (fdec 100) (initial_charges (length (element atom_array)) w) i)
    as (c & E & _ & Hci); try assumption.
  1-2: now rewrite parameters_of_length.
  destruct (partial_charges_returns atom_array bl iteration_step_num w c Hb E)
    as (w' & Ew & Hw).
  assert (Hm : e ∈ missing_of (F:=F) atom_array bl)
    by (apply missing_of_elem; exists i; now split).
  exists c, w', (np_unique (missing_of (F:=F) atom_array bl)).
  split; [assumption |]. split; [| split; [now apply np_unique_elem | assumption]].
  rewrite Hw. unfold parameters_warning.
  destruct (missing_of atom_array bl); [inversion Hm | reflexivity].
Qed.

(** ** The laws of NaN in the two arithmetics *)

Module Binary64Facts.
Import Binary64.

Lemma is_nan_spec (x : float) :
  PrimFloat.is_nan x = true <-> Prim2SF x = SpecFloat.S754_nan.
Proof.
  unfold PrimFloat.is_nan. rewrite FloatAxioms.eqb_spec.
  destruct (Prim2SF x) as [s|s| |s m e]; unfold SpecFloat.SFeqb; simpl.
  - split; discriminate.
  - destruct s; split; discriminate.
  - split; reflexivity.
  - rewrite Z.compare_refl, Pos.compare_cont_refl. destruct s; split; discriminate.
Qed.

Lemma is_nan_add_l (x y : float) :
  PrimFloat.is_nan x = true -> PrimFloat.is_nan (PrimFloat.add x y) = true.
Proof.
  rewrite !is_nan_spec, FloatAxioms.add_spec. intros ->. reflexivity.
Qed.

Lemma is_nan_mul_l (x y : float) :
  PrimFloat.is_nan x = true -> PrimFloat.is_nan (PrimFloat.mul x y) = true.
Proof.
  rewrite !is_nan_spec, FloatAxioms.mul_spec. intros ->. reflexivity.
Qed.

#[global] Instance binary64_nan_laws : NanLaws float.
Proof.
  split.
  - reflexivity.
  - exact is_nan_add_l.
  - exact is_nan_mul_l.
Qed.

(** [fdec] gives every literal of the module the value Python gives it. *)
Lemma literals_agree : Forall (fun '(z, x) => dec z = x) literals.
Proof. repeat constructor. Qed.

End Binary64Facts.

Module ExactFacts.
Import Exact.

#[global] Instance exact_nan_laws : NanLaws t.
Proof. split; try reflexivity; now intros [|x] y. Qed.

End ExactFacts.

(** ** Poisoning of the atoms without parameters *)

Section Poisoning.
Context {F : Type} {AF : Arith F} {NL : NanLaws F}.

Implicit Types (c en pos : list F) (parameters : list (F * F * F)).

Lemma nan_at_insert c i k : nan_at c i -> nan_at (<[k := fnan]> c) i.
Proof.
  intros (q & Hq & Nq). destruct (decide (k = i)) as [->|Hne].
  - exists fnan. split; [| apply fisnan_nan].
    apply list_lookup_insert_eq. now apply lookup_lt_Some in Hq.
  - exists q. now rewrite list_lookup_insert_ne.
Qed.

Lemma nan_at_insert_eq c i : i < length c -> nan_at (<[i := fnan]> c) i.
Proof.
  intros Hi. exists fnan. split; [now apply list_lookup_insert_eq | apply fisnan_nan].
Qed.

Lemma en_value_nan_row q : fisnan (en_value nan_row q) = true.
Proof.
  unfold en_value, nan_row, sum3.
  apply fisnan_add_l, fisnan_add_l, fisnan_mul_l, fisnan_nan.
Qed.

(** One bond, seen from an atom [i] whose electronegativity is NaN: its
    charge stays NaN when it is, and becomes NaN when [i] is an end. *)
Lemma bond_step_poisons en pos damping a b t c i :
  a < length en -> b < length en -> length c = length en ->
  fisnan (item en i) = true ->
  exists c', bond_step en pos damping (a, b, t) c = (inr tt, c')
    /\ length c' = length c
    /\ (nan_at c i -> nan_at c' i)
    /\ (a = i \/ b = i -> nan_at c' i).
Proof.
  intros Ha Hb Hc Ni.
  destruct (fisnan (item en a)) eqn:Na, (fisnan (item en b)) eqn:Nb.
  - eexists. split; [now apply bond_step_both_nan |].
    split; [now rewrite !length_insert |]. split.
    + intros H. now apply nan_at_insert, nan_at_insert.
    + intros [<- | <-].
      * apply nan_at_insert, nan_at_insert_eq. lia.
      * apply nan_at_insert_eq. rewrite length_insert. lia.
  - eexists. split; [now apply bond_step_left_nan |].
    split; [now rewrite length_insert |]. split.
    + apply nan_at_insert.
    + intros [<- | <-]; [apply nan_at_insert_eq; lia | congruence].
  - eexists. split; [now apply bond_step_right_nan |].
    split; [now rewrite length_insert |]. split.
    + apply nan_at_insert.
    + intros [<- | <-]; [congruence | apply nan_at_insert_eq; lia].
  - eexists. split; [now apply bond_step_transfer |].
    split; [now rewrite !length_alter |]. split.
    + intros (q & Hq & Nq). exists q. split; [| assumption].
      rewrite !list_lookup_alter_ne by congruence. assumption.
    + intros [<- | <-]; congruence.
Qed.

Lemma bond_loop_poisons en pos damping bl c i :
  bonds_in_range (length en) bl -> length c = length en ->
  fisnan (item en i) = true ->
  exists c', for_each bl (bond_step en pos damping) c = (inr tt, c')
    /\ length c' = length c
    /\ (nan_at c i -> nan_at c' i)
    /\ (get_bonds bl i <> [] -> nan_at c' i).
Proof.
  intros Hr. revert c. induction Hr as [|[[a b] t] bl [Ha Hb] Hr IH];
    intros c Hc Ni; cbn [for_each].
  - exists c. split; [reflexivity |]. split; [reflexivity |]. split; [auto |].
    intros Hne. now destruct Hne.
  - destruct (bond_step_poisons en pos damping a b t c i Ha Hb Hc Ni)
      as (c1 & E1 & L1 & K1 & P1).
    destruct (IH c1) as (c2 & E2 & L2 & K2 & P2); [congruence | assumption |].
    exists c2. unfold bind. rewrite E1. split; [assumption |].
    split; [congruence |]. split; [auto |].
    intros Hne. destruct (decide (a = i)) as [Hai|Hai]; [auto |].
    destruct (decide (b = i)) as [Hbi|Hbi]; [auto |].
    apply P2. intros Hnil. apply Hne. unfold get_bonds in *. simpl.
    destruct (decide (a = i)); [contradiction |].
    destruct (decide (b = i)); [contradiction |]. assumption.
Qed.

Lemma iteration_body_poisons parameters bl damping c i :
  bonds_in_range (length parameters) bl -> length c = length parameters ->
  parameters !! i = Some nan_row ->
  exists c', iteration_body parameters bl damping c = (inr tt, c')
    /\ length c' = length c
    /\ (nan_at c i -> nan_at c' i)
    /\ (get_bonds bl i <> [] -> nan_at c' i).
Proof.
  intros Hr Hc Hp. rewrite iteration_body_aligned by assumption.
  destruct (lookup_lt_is_Some_2 c i) as [q Hq].
  { rewrite Hc. now apply lookup_lt_Some in Hp. }
  apply bond_loop_poisons.
  - now rewrite en_values_length.
  - now rewrite en_values_length.
  - rewrite (en_values_lookup parameters c i nan_row q Hp Hq). apply en_value_nan_row.
Qed.

(** The relaxation returns; an atom without parameters that has a bond
    is NaN after one iteration step or more. *)
Lemma relaxation_poisons parameters bl n damping c i :
  bonds_in_range (length parameters) bl -> length c = length parameters ->
  parameters !! i = Some nan_row ->
  exists c', iterations parameters bl n damping c = (inr tt, c')
    /\ length c' = length c
    /\ (nan_at c i -> nan_at c' i)
    /\ (0 < n -> get_bonds bl i <> [] -> nan_at c' i).
Proof.
  intros Hr Hc Hp. revert damping c Hc. induction n as [|n IH]; intros damping c Hc; simpl.
  - exists c. repeat split; [auto | lia].
  - destruct (iteration_body_poisons parameters bl (fmul damping (fdec 50)) c i Hr Hc Hp)
      as (c1 & E1 & L1 & K1 & P1).
    destruct (IH (fmul damping (fdec 50)) c1) as (c2 & E2 & L2 & K2 & _); [congruence |].
    exists c2. unfold bind. rewrite E1. split; [assumption |].
    split; [congruence |]. split; auto.
Qed.

End Poisoning.

(** C8, as amended: when some atom has no entry in the table, the call
    emits one warning about missing parameters; it names every element
    of such an atom, and each once.  Every such atom that has a bond is
    NaN in the result of a call of one iteration step or more. *)
Theorem missing_parameters_warned_once {F : Type} {AF : Arith F} {NL : NanLaws F}
    (atom_array : AtomArray) (bl : BondList) (iteration_step_num : nat) (w : @world F) :
  bonds atom_array = Some bl ->
  bonds_in_range (length (element atom_array)) bl ->
  length (initial_charges (length (element atom_array)) w) = length (element atom_array) ->
  (exists i e, unparametrized atom_array bl i e) ->
  exists c w' atoms,
    partial_charges atom_array iteration_step_num w = (inr c, w')
    /\ warned w' = warned w ++ charges_warning w ++ [MissingParameters atoms]
    /\ NoDup atoms
    /\ (forall e, e ∈ atoms <-> exists i, unparametrized atom_array bl i e)
    /\ (forall i e, unparametrized atom_array bl i e ->
          get_bonds bl i <> [] -> 0 < iteration_step_num -> nan_at c i).
Proof.
  intros Hb Hr Hlen (i0 & e0 & H0).
  assert (Hrow : forall i e, unparametrized atom_array bl i e ->
            parameters_of (F:=F) atom_array bl !! i = Some nan_row).
  { intros i e [He L]. rewrite (parameters_of_lookup atom_array bl i e He).
    unfold row_for. now rewrite L. }
  destruct (relaxation_poisons (parameters_of atom_array bl) bl iteration_step_num
              (fdec 100) (initial_charges (length (element atom_array)) w) i0)
    as (c & E & _).
  { now rewrite parameters_of_length. }
  { now rewrite parameters_of_length. }
  { now apply (Hrow i0 e0). }
  destruct (partial_charges_returns atom_array bl iteration_step_num w c Hb E)
    as (w' & Ew & Hw).
  assert (Hm : e0 ∈ missing_of (F:=F) atom_array bl)
    by (apply missing_of_elem; now exists i0).
  exists c, w', (np_unique (missing_of (F:=F) atom_array bl)).
  split; [assumption |]. split; [| split; [apply np_unique_NoDup | split]].
  - rewrite Hw. unfold parameters_warning.
    destruct (missing_of atom_array bl); [inversion Hm | reflexivity].
  - intros e. rewrite np_unique_elem. apply missing_of_elem.
  - intros i e Hu Hne Hn.
    destruct (relaxation_poisons (parameters_of atom_array bl) bl iteration_step_num
                (fdec 100) (initial_charges (length (element atom_array)) w) i)
      as (c' & E' & _ & _ & P).
    + now rewrite parameters_of_length.
    + now rewrite parameters_of_length.
    + now apply (Hrow i e).
    + rewrite E in E'. injection E' as <-. now apply P.
Qed.

(** ** The damping factor *)

Lemma damping_at_exact (k : nat) :
  damping_at (F:=Exact.t) k = Exact.Fin (Q2Qc (1 # 2) ^ k)%Qc.
Proof.
  induction k as [|k IH].
  - unfold damping_at. simpl. unfold Exact.dec. f_equal.
    apply Qc_is_canon. reflexivity.
  - change (damping_at (F:=Exact.t) (S k))
      with (fmul (damping_at (F:=Exact.t) k) (fdec 50)).
    rewrite IH. simpl. unfold Exact.dec. f_equal.
    replace (Q2Qc (50 # 100)) with (Q2Qc (1 # 2)) by (apply Qc_is_canon; reflexivity).
    apply Qcmult_comm.
Qed.





Lemma damping_at_binary64_least :
  damping_at (F:=float) 1074 = 0x1p-1074%float.
Proof. vm_compute. reflexivity. Qed.

(** ** Exact arithmetic *)

Module ExactRun.
Import Exact.

Implicit Types (x y z : t) (c en pos : list t) (parameters : list (t * t * t)).

Lemma add_comm x y : fadd x y = fadd y x.
Proof. destruct x, y; simpl; trivial. f_equal. ring. Qed.

Lemma add_assoc x y z : fadd x (fadd y z) = fadd (fadd x y) z.
Proof. destruct x, y, z; simpl; trivial. f_equal. ring. Qed.

Lemma add_sub x (d : Qc) : fsub (fadd x (Fin d)) (Fin d) = x.
Proof. destruct x; simpl; trivial. f_equal. ring. Qed.

Lemma sub_add_swap x y z : fadd (fsub x z) y = fsub (fadd x y) z.
Proof. destruct x, y, z; simpl; trivial. f_equal. ring. Qed.

Lemma add_sub_assoc x y z : fadd x (fsub y z) = fsub (fadd x y) z.
Proof. destruct x, y, z; simpl; trivial. f_equal. ring. Qed.

(** The electronegativity of an atom with an entry of the table is NaN
    exactly when its charge is. *)
Lemma en_value_fin (p : Z * Z * Z) (q : Qc) :
  exists v, en_value (row_of p) (Fin q) = Fin v.
Proof. destruct p as [[a b] d]. simpl. eexists. reflexivity. Qed.

Lemma en_value_nan (r : t * t * t) : en_value r NaN = NaN.
Proof. destruct r as [[[|a] [|b]] [|d]]; reflexivity. Qed.

Lemma en_value_is_nan (p : Z * Z * Z) x :
  is_nan (en_value (row_of p) x) = is_nan x.
Proof.
  destruct x as [|q]; [now rewrite en_value_nan |].
  destruct (en_value_fin p q) as [v ->]. reflexivity.
Qed.

(** The divisors of the table are numbers other than zero. *)
Lemma pos_en_value_table (p : Z * Z * Z) :
  p ∈ table_rows ->
  exists s, pos_en_value (row_of p) = Fin s /\ Qeq_bool s 0 = false.
Proof.
  intros Hp.
  assert (H : forallb (fun p => match pos_en_value (row_of p) with
                                | Fin s => negb (Qeq_bool s 0)
                                | NaN => false
                                end) table_rows = true) by (vm_compute; reflexivity).
  rewrite forallb_forall in H. apply list_elem_of_In in Hp. specialize (H p Hp).
  destruct (pos_en_value (row_of p)) as [|s]; [discriminate |].
  exists s. split; [reflexivity |]. now apply negb_true_iff.
Qed.

(** The transfer over a bond of two atoms with entries of the table,
    whose electronegativities are numbers, is a number. *)
Lemma charge_transfer_fin parameters c0 i j ri rj (d : Qc) :
  parameters !! i = Some ri -> parameters !! j = Some rj ->
  table_row ri -> table_row rj ->
  length c0 = length parameters ->
  is_nan (item (en_values parameters c0) i) = false ->
  is_nan (item (en_values parameters c0) j) = false ->
  exists delta,
    charge_transfer_of (en_values parameters c0) (pos_en_values parameters) (Fin d) i j
    = Fin delta.
Proof.
  intros Hi Hj (pi & Hpi & ->) (pj & Hpj & ->) Hlen Ni Nj.
  unfold charge_transfer_of, divisor_of.
  destruct (item (en_values parameters c0) i) as [|vi]; [discriminate |].
  destruct (item (en_values parameters c0) j) as [|vj]; [discriminate |].
  assert (Hpos : forall k p, parameters !! k = Some (row_of p) -> p ∈ table_rows ->
            exists s, item (pos_en_values parameters) k = Fin s /\ Qeq_bool s 0 = false).
  { intros k p Hk Hp. unfold item, pos_en_values. rewrite list_lookup_fmap, Hk. simpl.
    now apply pos_en_value_table. }
  destruct (Hpos i pi Hi Hpi) as (si & -> & Zi).
  destruct (Hpos j pj Hj Hpj) as (sj & -> & Zj).
  destruct (fgtb (Fin vj) (Fin vi)); simpl; rewrite ?Zi, ?Zj; eexists; reflexivity.
Qed.

End ExactRun.

(** ** Exact arithmetic: the sum of the charges *)

Module ExactConservation.
Import Exact ExactRun.

Implicit Types (c : list t).

Lemma total_alter_add c k (d : t) :
  k < length c -> total (alter (fun q => fadd q d) k c) = fadd (total c) d.
Proof.
  revert k. induction c as [|q c IH]; intros k Hk; simpl in Hk; [lia |].
  destruct k as [|k].
  - change (fadd (fadd q d) (total c) = fadd (fadd q (total c)) d).
    rewrite <- !add_assoc. f_equal. apply add_comm.
  - change (fadd q (total (alter (fun q => fadd q d) k c)) = fadd (fadd q (total c)) d).
    rewrite IH by lia. apply add_assoc.
Qed.

Lemma total_alter_sub c k (d : t) :
  k < length c -> total (alter (fun q => fsub q d) k c) = fsub (total c) d.
Proof.
  revert k. induction c as [|q c IH]; intros k Hk; simpl in Hk; [lia |].
  destruct k as [|k].
  - change (fadd (fsub q d) (total c) = fsub (fadd q (total c)) d).
    apply sub_add_swap.
  - change (fadd q (total (alter (fun q => fsub q d) k c)) = fsub (fadd q (total c)) d).
    rewrite IH by lia. apply add_sub_assoc.
Qed.

Lemma item_alter_add c k i (d : Qc) :
  is_nan (item (alter (fun q => fadd q (Fin d)) k c) i) = is_nan (item c i).
Proof.
  unfold item. destruct (decide (k = i)) as [->|Hne].
  - rewrite list_lookup_alter_eq. now destruct (c !! i) as [[|q]|].
  - now rewrite list_lookup_alter_ne.
Qed.

Lemma item_alter_sub c k i (d : Qc) :
  is_nan (item (alter (fun q => fsub q (Fin d)) k c) i) = is_nan (item c i).
Proof.
  unfold item. destruct (decide (k = i)) as [->|Hne].
  - rewrite list_lookup_alter_eq. now destruct (c !! i) as [[|q]|].
  - now rewrite list_lookup_alter_ne.
Qed.

Lemma insert_nan_id c k :
  k < length c -> is_nan (item c k) = true -> <[k := NaN]> c = c.
Proof.
  intros Hk Nk. apply list_insert_id. unfold item in Nk.
  destruct (lookup_lt_is_Some_2 c k Hk) as [q Hq]. rewrite Hq in *. simpl in Nk.
  now destruct q.
Qed.

Section Run.
Variable parameters : list (t * t * t).
Hypothesis rows : Forall table_row parameters.

Lemma en_same_nan c0 k :
  length c0 = length parameters -> k < length parameters ->
  is_nan (item (en_values parameters c0) k) = is_nan (item c0 k).
Proof.
  intros Hlen Hk.
  destruct (lookup_lt_is_Some_2 parameters k Hk) as [r Hr].
  destruct (lookup_lt_is_Some_2 c0 k) as [q Hq]; [lia |].
  rewrite (en_values_lookup parameters c0 k r q Hr Hq).
  rewrite Forall_forall in rows.
  destruct (rows r) as (p & _ & ->); [eapply list_elem_of_lookup_2; eassumption |].
  rewrite en_value_is_nan. unfold item. now rewrite Hq.
Qed.

Lemma bond_step_conserves c0 (d : Qc) a b tag c :
  length c0 = length parameters -> length c = length parameters ->
  a < length parameters -> b < length parameters ->
  same_nans c0 c ->
  exists c', bond_step (en_values parameters c0) (pos_en_values parameters) (Fin d)
               (a, b, tag) c = (inr tt, c')
    /\ length c' = length c /\ same_nans c0 c' /\ total c' = total c.
Proof.
  intros Hlen Hc Ha Hb Hs.
  pose proof (en_values_length parameters c0 Hlen) as Len.
  assert (Hid : forall k, k < length parameters ->
            is_nan (item (en_values parameters c0) k) = true -> <[k := NaN]> c = c).
  { intros k Hk Nk. apply insert_nan_id; [lia |].
    rewrite Hs, <- (en_same_nan c0 k Hlen Hk). assumption. }
  destruct (is_nan (item (en_values parameters c0) a)) eqn:Na,
           (is_nan (item (en_values parameters c0) b)) eqn:Nb.
  - exists c. split; [| now split].
    rewrite bond_step_both_nan by (lia || assumption).
    simpl. now rewrite (Hid a Ha Na), (Hid b Hb Nb).
  - exists c. split; [| now split].
    rewrite bond_step_left_nan by (lia || assumption).
    simpl. now rewrite (Hid a Ha Na).
  - exists c. split; [| now split].
    rewrite bond_step_right_nan by (lia || assumption).
    simpl. now rewrite (Hid b Hb Nb).
  - destruct (lookup_lt_is_Some_2 parameters a Ha) as [ra Hra].
    destruct (lookup_lt_is_Some_2 parameters b Hb) as [rb Hrb].
    rewrite Forall_forall in rows.
    assert (Ta : table_row ra) by (apply rows; eapply list_elem_of_lookup_2; eassumption).
    assert (Tb : table_row rb) by (apply rows; eapply list_elem_of_lookup_2; eassumption).
    destruct (charge_transfer_fin parameters c0 a b ra rb d Hra Hrb Ta Tb Hlen Na Nb)
      as [delta Hd].
    eexists. split; [apply bond_step_transfer; (lia || assumption) |].
    rewrite Hd. split; [now rewrite !length_alter |]. split.
    + intros i. now rewrite item_alter_sub, item_alter_add.
    + rewrite total_alter_sub by (rewrite length_alter; lia).
      rewrite total_alter_add by lia. apply add_sub.
Qed.

Lemma iteration_body_conserves bl (d : Qc) c0 :
  bonds_in_range (length parameters) bl -> length c0 = length parameters ->
  exists c', iteration_body parameters bl (Fin d) c0 = (inr tt, c')
    /\ length c' = length parameters /\ total c' = total c0.
Proof.
  intros Hr Hlen. rewrite iteration_body_aligned by assumption.
  destruct (for_each_inv
              (fun c => length c = length parameters /\ same_nans c0 c /\ total c = total c0)
              bl (bond_step (en_values parameters c0) (pos_en_values parameters) (Fin d)))
    with (s := c0) as (c' & E & L & _ & T).
  - intros [[a b] tag] c Hin (Hc & Hs & Ht).
    unfold bonds_in_range in Hr. rewrite Forall_forall in Hr.
    destruct (Hr _ Hin) as [Ha Hb].
    destruct (bond_step_conserves c0 d a b tag c Hlen Hc Ha Hb Hs) as (c' & E & L & S' & T).
    exists c'. split; [assumption |]. repeat split; congruence.
  - split; [assumption |]. split; [intros i; reflexivity | reflexivity].
  - now exists c'.
Qed.

Lemma relaxation_conserves bl n c0 :
  bonds_in_range (length parameters) bl -> length c0 = length parameters ->
  exists c', iterations parameters bl n (fdec 100) c0 = (inr tt, c')
    /\ total c' = total c0.
Proof.
  intros Hr Hlen.
  change (fdec 100 : t) with (damping_at (F:=t) 0). rewrite iterations_from.
  destruct (for_each_inv (fun c => length c = length parameters /\ total c = total c0)
              (seq 1 n) (fun m => iteration_body parameters bl (damping_at m)))
    with (s := c0) as (c' & E & _ & T).
  - intros k c _ [Hc Ht]. rewrite damping_at_exact.
    destruct (iteration_body_conserves bl (Q2Qc (1 # 2) ^ k)%Qc c Hr Hc) as (c' & E & L & T).
    exists c'. split; [assumption |]. split; congruence.
  - now split.
  - now exists c'.
Qed.

End Run.
End ExactConservation.

(** ** Binary64: the rounding of a sum, the sign of a difference *)

(** The operations of binary64 are specified by [SpecFloat]: the exact
    result, rounded to nearest with ties to even by [binary_round_aux].
    This part derives from that specification what the statements about
    the program need: a sum or difference of finite doubles is an infinity
    or a finite double within a relative error of 2^-53, never NaN; a
    difference has the sign of the comparison of its arguments; a quotient
    and a product have the product of the signs of theirs. *)

Module Rounding.
Import SpecFloat.

Section Facts.
Local Open Scope Z_scope.

Lemma iter_pos_iter {A} (f : A -> A) (p : positive) (x : A) :
  iter_pos f p x = Pos.iter f x p.
Proof.
  revert x. induction p as [p IH|p IH|]; intros x; simpl.
  - rewrite !IH. now rewrite <- !Pos.iter_swap.
  - now rewrite !IH.
  - reflexivity.
Qed.

Lemma digits2_pos_bounds (p : positive) :
  2 ^ (Zpos (digits2_pos p) - 1) <= Zpos p < 2 ^ Zpos (digits2_pos p).
Proof.
  induction p as [p IH|p IH|]; simpl digits2_pos.
  - rewrite Pos2Z.inj_succ.
    replace (Z.succ (Zpos (digits2_pos p)) - 1) with (Z.succ (Zpos (digits2_pos p) - 1)) by lia.
    rewrite !Z.pow_succ_r by lia. lia.
  - rewrite Pos2Z.inj_succ.
    replace (Z.succ (Zpos (digits2_pos p)) - 1) with (Z.succ (Zpos (digits2_pos p) - 1)) by lia.
    rewrite !Z.pow_succ_r by lia. lia.
  - simpl. lia.
Qed.

Lemma digits2_pos_unique (p : positive) (d : Z) :
  2 ^ (d - 1) <= Zpos p < 2 ^ d -> Zpos (digits2_pos p) = d.
Proof.
  intros [L U]. pose proof (digits2_pos_bounds p) as [L' U'].
  destruct (Z.lt_trichotomy (Zpos (digits2_pos p)) d) as [H | [H | H]]; [| assumption |].
  - assert (2 ^ Zpos (digits2_pos p) <= 2 ^ (d - 1)) by (apply Z.pow_le_mono_r; lia). lia.
  - assert (0 <= d \/ d < 0) as [Hd | Hd] by lia.
    + assert (2 ^ d <= 2 ^ (Zpos (digits2_pos p) - 1)) by (apply Z.pow_le_mono_r; lia). lia.
    + rewrite Z.pow_neg_r in U by lia. lia.
Qed.

Lemma shl_spec (m d : positive) : Zpos (Pos.iter xO m d) = Zpos m * 2 ^ Zpos d.
Proof.
  induction d as [|d IH] using Pos.peano_ind.
  - simpl. lia.
  - rewrite Pos.iter_succ, Pos2Z.inj_succ, Z.pow_succ_r by lia.
    rewrite Pos2Z.inj_xO, IH. lia.
Qed.

(** *** Shifting to the right *)

Lemma describes_exact (M : Z) :
  0 <= M -> describes M 0 (shr_record_of_loc M loc_Exact).
Proof.
  intros HM. split; [assumption |]. exists 0. simpl. repeat split; try lia; auto.
Qed.

Lemma describes_shr_1 (M k : Z) (mrs : shr_record) :
  0 <= k -> describes M k mrs -> describes M (k + 1) (shr_1 mrs).
Proof.
  intros Hk [Hm (rem & HM & Hrem & Hr & Hs)].
  destruct mrs as [m r s]. unfold describes. simpl in *.
  assert (P : 0 < 2 ^ k) by (apply Z.pow_pos_nonneg; lia).
  rewrite Z.pow_add_r, Z.pow_1_r by lia.
  assert (Hs' : orb r s = false <-> rem = 0).
  { rewrite orb_false_iff. split.
    - intros [-> Es]. apply Hs in Es. destruct Es as [E|E]; [assumption |].
      assert (true = true -> False); [| lia]. intros _.
      assert (false = true) by (apply Hr; lia). discriminate.
    - intros ->. split.
      + destruct r; [| reflexivity]. assert (2 ^ k <= 2 * 0) by now apply Hr. lia.
      + apply Hs. now left. }
  destruct m as [|[p|p|]|p]; simpl; try lia.
  - split; [lia |]. exists rem. repeat split; try lia; try discriminate.
    + intros H. apply Hs' in H. lia.
    + intros [H|H]; apply Hs'; lia.
  - split; [lia |]. exists (2 ^ k + rem). repeat split; try lia.
    + intros H. apply Hs' in H. lia.
    + intros [H|H]; apply Hs'; lia.
  - split; [lia |]. exists rem. repeat split; try lia; try discriminate.
    + intros H. apply Hs' in H. lia.
    + intros [H|H]; apply Hs'; lia.
  - split; [lia |]. exists (2 ^ k + rem). repeat split; try lia.
    + intros H. apply Hs' in H. lia.
    + intros [H|H]; apply Hs'; lia.
Qed.

Lemma describes_shr (M : Z) (p : positive) :
  0 <= M -> describes M (Zpos p) (iter_pos shr_1 p (shr_record_of_loc M loc_Exact)).
Proof.
  intros HM. rewrite iter_pos_iter.
  apply (Pos.iter_ind _ shr_1 _ (fun p mrs => describes M (Zpos p) mrs)).
  - apply (describes_shr_1 M 0); [lia |]. now apply describes_exact.
  - intros q mrs H. rewrite Pos2Z.inj_succ.
    apply (describes_shr_1 M (Zpos q)); [lia | assumption].
Qed.

(** *** Rounding to nearest, ties to even *)

Lemma round_nearest_even_spec (M k : Z) (mrs : shr_record) :
  0 <= k -> describes M k mrs ->
  let q := round_nearest_even (shr_m mrs) (loc_of_shr_record mrs) in
  shr_m mrs <= q <= shr_m mrs + 1 /\ 2 * Z.abs (q * 2 ^ k - M) <= 2 ^ k.
Proof.
  intros Hk [Hm (rem & HM & Hrem & Hr & Hs)].
  destruct mrs as [m r s]. simpl in *.
  assert (P : 0 < 2 ^ k) by (apply Z.pow_pos_nonneg; lia).
  destruct r, s; simpl.
  - split; [lia |]. assert (2 ^ k <= 2 * rem) by now apply Hr. lia.
  - assert (rem = 0 \/ 2 * rem = 2 ^ k) as H by now apply Hs.
    assert (2 ^ k <= 2 * rem) by now apply Hr.
    destruct (Z.even m); split; lia.
  - split; [lia |]. assert (~ 2 ^ k <= 2 * rem); [| lia].
    intros H. apply Hr in H. discriminate.
  - split; [lia |]. assert (rem = 0 \/ 2 * rem = 2 ^ k) as H by now apply Hs.
    assert (~ 2 ^ k <= 2 * rem); [| lia].
    intros H'. apply Hr in H'. discriminate.
Qed.

Lemma fexp_spec (e : Z) : fexp prec emax e = Z.max (e - 53) (-1074).
Proof. reflexivity. Qed.

Lemma rounds_exact (s : bool) (m : positive) (e : Z) :
  -1074 <= e ->
  rounds s (Zpos m) e (if e <=? emax - prec then S754_finite s m e else S754_infinity s).
Proof.
  intros He. destruct (e <=? emax - prec); simpl; [| reflexivity].
  split; [reflexivity |]. split; [assumption |].
  rewrite Z.sub_diag. simpl Z.abs. rewrite Z.mul_0_r.
  apply Z.mul_nonneg_nonneg; [lia |]. apply Z.pow_nonneg. lia.
Qed.

(** The rounding of a mantissa [mz] at an exponent [ez] that is not below
    the least one: the result is exact when [mz] has 53 digits at most;
    else [mz] is shifted to 53 digits and rounded, and the error is half a
    unit of the last digit at most. *)
Lemma binary_round_aux_spec (s : bool) (mz : positive) (ez : Z) :
  -1074 <= ez ->
  rounds s (Zpos mz) ez (binary_round_aux prec emax s (Zpos mz) ez loc_Exact).
Proof.
  intros Hez. unfold binary_round_aux, shr_fexp. cbn [Zdigits2].
  rewrite fexp_spec.
  pose proof (digits2_pos_bounds mz) as [DL DU].
  set (dz := Zpos (digits2_pos mz)) in *.
  destruct (Z.max (dz + ez - 53) (-1074) - ez) as [|p|p] eqn:En; unfold shr at 1.
  - cbn [shr_record_of_loc shr_m loc_of_shr_record round_nearest_even Zdigits2].
    fold dz. rewrite fexp_spec, En. unfold shr. cbn [shr_record_of_loc shr_m].
    now apply rounds_exact.
  - assert (Hp : dz - 53 = Zpos p) by lia.
    pose proof (describes_shr (Zpos mz) p ltac:(lia)) as D.
    pose proof (round_nearest_even_spec (Zpos mz) (Zpos p) _ ltac:(lia) D) as [Q E].
    destruct D as [M0 (rem & HM & Hrem & _)].
    set (mrs := iter_pos shr_1 p (shr_record_of_loc (Zpos mz) loc_Exact)) in *.
    set (q := round_nearest_even (shr_m mrs) (loc_of_shr_record mrs)) in *.
    assert (P : 0 < 2 ^ Zpos p) by (apply Z.pow_pos_nonneg; lia).
    assert (S1 : 2 ^ dz = 2 ^ 53 * 2 ^ Zpos p).
    { rewrite <- Z.pow_add_r by lia. f_equal. lia. }
    assert (S2 : 2 ^ (dz - 1) = 2 ^ 52 * 2 ^ Zpos p).
    { rewrite <- Z.pow_add_r by lia. f_equal. lia. }
    assert (B1 : 2 ^ 52 <= shr_m mrs < 2 ^ 53) by nia.
    assert (U : 2 ^ (ez + Zpos p + 1074) = 2 ^ Zpos p * 2 ^ (ez + 1074)).
    { rewrite <- Z.pow_add_r by lia. f_equal. lia. }
    assert (P2 : 0 < 2 ^ (ez + 1074)) by (apply Z.pow_pos_nonneg; lia).
    assert (Err : 2 ^ 53 * Z.abs (q * 2 ^ (ez + Zpos p + 1074) - Zpos mz * 2 ^ (ez + 1074))
                  <= q * 2 ^ (ez + Zpos p + 1074)).
    { rewrite U.
      replace (q * (2 ^ Zpos p * 2 ^ (ez + 1074)) - Zpos mz * 2 ^ (ez + 1074))
        with ((q * 2 ^ Zpos p - Zpos mz) * 2 ^ (ez + 1074)) by ring.
      rewrite Z.abs_mul, (Z.abs_eq (2 ^ (ez + 1074))) by lia.
      change (2 ^ 53) with (2 * 2 ^ 52).
      assert (2 * Z.abs (q * 2 ^ Zpos p - Zpos mz) * 2 ^ 52 <= 2 ^ Zpos p * q) by nia.
      nia. }
    destruct q as [|qp|qp] eqn:Eq; [lia | | lia].
    destruct (Z.eq_dec (Zpos qp) (2 ^ 53)) as [Top | NTop].
    + assert (qp = 9007199254740992%positive) as ->
        by (change (2 ^ 53) with 9007199254740992 in Top; congruence).
      cbn [Zdigits2].
      rewrite (digits2_pos_unique _ 54)
        by (split; [vm_compute; discriminate | vm_compute; reflexivity]).
      rewrite fexp_spec.
      replace (Z.max (54 + (ez + Zpos p) - 53) (-1074) - (ez + Zpos p)) with 1 by lia.
      unfold shr. cbn [iter_pos shr_record_of_loc shr_1 shr_m].
      destruct (ez + Zpos p + 1 <=? emax - prec); simpl; [| reflexivity].
      split; [reflexivity |]. split; [lia |].
      replace (ez + Zpos p + 1 + 1074) with (Z.succ (ez + Zpos p + 1074)) by lia.
      rewrite Z.pow_succ_r by lia.
      replace (4503599627370496 * (2 * 2 ^ (ez + Zpos p + 1074)))
        with (9007199254740992 * 2 ^ (ez + Zpos p + 1074)) by ring.
      exact Err.
    + cbn [Zdigits2].
      rewrite (digits2_pos_unique qp 53) by (change (2 ^ (53 - 1)) with (2 ^ 52); lia).
      rewrite fexp_spec.
      replace (Z.max (53 + (ez + Zpos p) - 53) (-1074) - (ez + Zpos p)) with 0 by lia.
      unfold shr. cbn [shr_record_of_loc shr_m].
      destruct (ez + Zpos p <=? emax - prec); simpl; [| reflexivity].
      split; [reflexivity |]. split; [lia |]. exact Err.
  - cbn [shr_record_of_loc shr_m loc_of_shr_record round_nearest_even Zdigits2].
    fold dz. rewrite fexp_spec, En. unfold shr. cbn [shr_record_of_loc shr_m].
    now apply rounds_exact.
Qed.

Lemma binary_round_spec (s : bool) (mx : positive) (ex : Z) :
  -1074 <= ex -> rounds s (Zpos mx) ex (binary_round prec emax s mx ex).
Proof.
  intros Hex. unfold binary_round, shl_align. rewrite fexp_spec.
  destruct (Z.max (Zpos (digits2_pos mx) + ex - 53) (-1074) - ex) as [|d|d] eqn:En.
  - now apply binary_round_aux_spec.
  - now apply binary_round_aux_spec.
  - set (ez := Z.max (Zpos (digits2_pos mx) + ex - 53) (-1074)) in *.
    pose proof (binary_round_aux_spec s (Pos.iter xO mx d) ez ltac:(lia)) as H.
    destruct (binary_round_aux prec emax s (Zpos (Pos.iter xO mx d)) ez loc_Exact)
      as [s'|s'| |s' m e]; simpl in *; try assumption.
    destruct H as (-> & He & H). split; [reflexivity |]. split; [assumption |].
    rewrite shl_spec in H.
    replace (Zpos mx * 2 ^ (ex + 1074)) with (Zpos mx * 2 ^ Zpos d * 2 ^ (ez + 1074));
      [assumption |].
    rewrite <- Z.mul_assoc, <- Z.pow_add_r by lia. do 2 f_equal. lia.
Qed.

Lemma binary_normalize_spec (M ez : Z) :
  -1074 <= ez ->
  match binary_normalize prec emax M ez false with
  | S754_nan => False
  | S754_infinity _ => True
  | r => 2 ^ 53 * Z.abs (sf_units r - M * 2 ^ (ez + 1074)) <= Z.abs (sf_units r)
  end.
Proof.
  intros Hez. destruct M as [|M|M]; cbn [binary_normalize].
  - simpl. lia.
  - pose proof (binary_round_spec false M ez Hez) as H.
    destruct (binary_round prec emax false M ez) as [s'|s'| |s' m e]; simpl in *;
      try easy.
    destruct H as (-> & He & H). simpl.
    rewrite (Z.abs_eq (Zpos m * _)); [assumption |].
    apply Z.mul_nonneg_nonneg; [lia |]. apply Z.pow_nonneg. lia.
  - pose proof (binary_round_spec true M ez Hez) as H.
    destruct (binary_round prec emax true M ez) as [s'|s'| |s' m e]; simpl in *;
      try easy.
    destruct H as (-> & He & H). simpl.
    assert (P : 0 <= Zpos m * 2 ^ (e + 1074)).
    { apply Z.mul_nonneg_nonneg; [lia |]. apply Z.pow_nonneg. lia. }
    rewrite Z.abs_opp, (Z.abs_eq (Zpos m * _)) by assumption.
    replace (- (Zpos m * 2 ^ (e + 1074)) - Zneg M * 2 ^ (ez + 1074))
      with (- (Zpos m * 2 ^ (e + 1074) - Zpos M * 2 ^ (ez + 1074))) by lia.
    now rewrite Z.abs_opp.
Qed.

(** *** Doubles *)

Lemma Prim2SF_canonical (x : float) : canonical (Prim2SF x).
Proof.
  pose proof (Prim2SF_valid x) as H. destruct (Prim2SF x) as [s|s| |s m e]; simpl; trivial.
  unfold FloatAxioms.valid_binary, valid_binary, bounded, canonical_mantissa in H.
  apply andb_true_iff in H as [H _]. apply Z.eqb_eq in H.
  rewrite fexp_spec in H.
  pose proof (digits2_pos_bounds m) as [L U].
  assert (D : Zpos (digits2_pos m) <= 53) by lia.
  split; [lia |]. split.
  - assert (2 ^ Zpos (digits2_pos m) <= 2 ^ 53) by (apply Z.pow_le_mono_r; lia). lia.
  - intros He. replace (Zpos (digits2_pos m)) with 53 in L by lia. exact L.
Qed.

Lemma is_finite_spec (x : float) :
  PrimFloat.is_finite x = finite_sf (Prim2SF x).
Proof.
  unfold PrimFloat.is_finite, PrimFloat.is_infinity.
  destruct (PrimFloat.is_nan x) eqn:N.
  - apply Binary64Facts.is_nan_spec in N. now rewrite N.
  - rewrite FloatAxioms.eqb_spec, FloatAxioms.abs_spec.
    assert (Prim2SF x <> S754_nan) as H.
    { intros H. apply Binary64Facts.is_nan_spec in H. congruence. }
    destruct (Prim2SF x) as [s|s| |s m e]; try reflexivity. contradiction.
Qed.

(** *** Sums and differences *)

Lemma sf_units_aligned (s : bool) (m : positive) (e ez : Z) :
  -1074 <= ez <= e ->
  sf_units (S754_finite s m e) = cond_Zopp s (Zpos (fst (shl_align m e ez))) * 2 ^ (ez + 1074).
Proof.
  intros H.
  assert (E : Zpos (fst (shl_align m e ez)) * 2 ^ (ez + 1074) = Zpos m * 2 ^ (e + 1074)).
  { unfold shl_align. destruct (ez - e) as [|d|d] eqn:E; simpl fst.
    - do 2 f_equal. lia.
    - lia.
    - rewrite shl_spec, <- Z.mul_assoc, <- Z.pow_add_r by lia. do 2 f_equal. lia. }
  simpl. rewrite <- E. destruct s; simpl; lia.
Qed.

Lemma SFadd_spec (x y : spec_float) :
  canonical x -> canonical y -> finite_sf x = true -> finite_sf y = true ->
  match SF64add x y with
  | S754_nan => False
  | S754_infinity _ => True
  | r => 2 ^ 53 * Z.abs (sf_units r - (sf_units x + sf_units y)) <= Z.abs (sf_units r)
  end.
Proof.
  intros Vx Vy Fx Fy.
  destruct x as [sx|sx| |sx mx ex], y as [sy|sy| |sy my ey]; try discriminate;
    unfold SF64add, SFadd.
  - destruct sx, sy; simpl; lia.
  - cbn [sf_units]. rewrite Z.add_0_l, Z.sub_diag. simpl Z.abs at 1. lia.
  - cbn [sf_units]. rewrite Z.add_0_r, Z.sub_diag. simpl Z.abs at 1. lia.
  - destruct Vx as [Vx _], Vy as [Vy _]. cbv zeta.
    pose proof (binary_normalize_spec
      (cond_Zopp sx (Zpos (fst (shl_align mx ex (Z.min ex ey))))
       + cond_Zopp sy (Zpos (fst (shl_align my ey (Z.min ex ey)))))
      (Z.min ex ey) ltac:(lia)) as H.
    rewrite (sf_units_aligned sx mx ex (Z.min ex ey)) by lia.
    rewrite (sf_units_aligned sy my ey (Z.min ex ey)) by lia.
    rewrite <- Z.mul_add_distr_r. exact H.
Qed.

Lemma SFsub_spec (x y : spec_float) :
  canonical x -> canonical y -> finite_sf x = true -> finite_sf y = true ->
  match SF64sub x y with
  | S754_nan => False
  | S754_infinity _ => True
  | r => 2 ^ 53 * Z.abs (sf_units r - (sf_units x - sf_units y)) <= Z.abs (sf_units r)
  end.
Proof.
  intros Vx Vy Fx Fy.
  destruct x as [sx|sx| |sx mx ex], y as [sy|sy| |sy my ey]; try discriminate;
    unfold SF64sub, SFsub.
  - destruct sx, sy; simpl; lia.
  - cbn [sf_units].
    replace (cond_Zopp (negb sy) (Zpos my * 2 ^ (ey + 1074))
             - (0 - cond_Zopp sy (Zpos my * 2 ^ (ey + 1074)))) with 0
      by (destruct sy; simpl; lia).
    simpl Z.abs at 1. lia.
  - cbn [sf_units]. rewrite Z.sub_0_r, Z.sub_diag. simpl Z.abs at 1. lia.
  - destruct Vx as [Vx _], Vy as [Vy _]. cbv zeta.
    pose proof (binary_normalize_spec
      (cond_Zopp sx (Zpos (fst (shl_align mx ex (Z.min ex ey))))
       - cond_Zopp sy (Zpos (fst (shl_align my ey (Z.min ex ey)))))
      (Z.min ex ey) ltac:(lia)) as H.
    rewrite (sf_units_aligned sx mx ex (Z.min ex ey)) by lia.
    rewrite (sf_units_aligned sy my ey (Z.min ex ey)) by lia.
    rewrite <- Z.mul_sub_distr_r. exact H.
Qed.

(** *** Signs *)

Lemma compare_units (sx sy : bool) (mx my : positive) (ex ey : Z) :
  canonical (S754_finite sx mx ex) -> canonical (S754_finite sy my ey) ->
  SFcompare (S754_finite sx mx ex) (S754_finite sy my ey) = Some Lt ->
  sf_units (S754_finite sx mx ex) < sf_units (S754_finite sy my ey).
Proof.
  intros (Ex & Ux & Lx) (Ey & Uy & Ly) H. simpl in *.
  assert (Px : 0 < 2 ^ (ex + 1074)) by (apply Z.pow_pos_nonneg; lia).
  assert (Py : 0 < 2 ^ (ey + 1074)) by (apply Z.pow_pos_nonneg; lia).
  assert (Step : forall a b, -1074 <= a < b -> 2 * 2 ^ (a + 1074) <= 2 ^ (b + 1074)).
  { intros a b Hab. rewrite <- Z.pow_succ_r by lia. apply Z.pow_le_mono_r; lia. }
  destruct sx, sy; simpl; try discriminate.
  - destruct (Z.compare_spec ex ey) as [E|E|E]; try discriminate.
    + subst ey. rewrite Pos.compare_cont_spec in H. simpl in H.
      destruct (Pos.compare_spec mx my) as [E'|E'|E']; try discriminate.
      assert (Zpos my < Zpos mx) by lia. nia.
    + specialize (Step ey ex ltac:(lia)). specialize (Lx ltac:(lia)). nia.
  - nia.
  - destruct (Z.compare_spec ex ey) as [E|E|E]; try discriminate.
    + subst ey. rewrite Pos.compare_cont_spec in H. simpl in H.
      destruct (Pos.compare_spec mx my) as [E'|E'|E']; try discriminate.
      assert (Zpos mx < Zpos my) by lia. nia.
    + specialize (Step ex ey ltac:(lia)). specialize (Ly ltac:(lia)). nia.
Qed.

Lemma binary_round_aux_signed (s : bool) (mx ex : Z) (lx : location) :
  signed s (binary_round_aux prec emax s mx ex lx).
Proof.
  unfold binary_round_aux.
  destruct (shr_fexp prec emax mx ex lx) as [mrs' e'].
  destruct (shr_fexp prec emax _ e' loc_Exact) as [mrs'' e''].
  destruct (shr_m mrs''); simpl; trivial.
  destruct (e'' <=? emax - prec); reflexivity.
Qed.

Lemma rounds_signed (s : bool) (V ez : Z) (r : spec_float) : rounds s V ez r -> signed s r.
Proof. destruct r; simpl; tauto. Qed.

Lemma normalize_signed (M ez : Z) :
  -1074 <= ez ->
  (0 < M -> signed false (binary_normalize prec emax M ez false))
  /\ (M < 0 -> signed true (binary_normalize prec emax M ez false)).
Proof.
  intros Hez. destruct M as [|M|M]; split; intros H; try lia; cbn [binary_normalize].
  - exact (rounds_signed _ _ _ _ (binary_round_spec false M ez Hez)).
  - exact (rounds_signed _ _ _ _ (binary_round_spec true M ez Hez)).
Qed.

(** The difference of two doubles has the sign of their comparison. *)
Lemma SFsub_signed (x y : spec_float) :
  canonical x -> canonical y -> SFcompare x y = Some Lt ->
  signed false (SF64sub y x) /\ signed true (SF64sub x y).
Proof.
  intros Cx Cy H.
  destruct x as [sx|sx| |sx mx ex], y as [sy|sy| |sy my ey]; try discriminate;
    unfold SF64sub, SFsub;
    try (solve [ repeat match goal with s : bool |- _ => destruct s end;
                 simpl in *; try discriminate; now split ]).
  pose proof (compare_units sx sy mx my ex ey Cx Cy H) as U.
  pose proof Cx as (Ex & _). pose proof Cy as (Ey & _).
  rewrite (sf_units_aligned sx mx ex (Z.min ex ey)) in U by lia.
  rewrite (sf_units_aligned sy my ey (Z.min ex ey)) in U by lia.
  assert (P : 0 < 2 ^ (Z.min ex ey + 1074)) by (apply Z.pow_pos_nonneg; lia).
  cbv zeta. rewrite (Z.min_comm ey ex). split.
  - apply normalize_signed; [lia | nia].
  - apply normalize_signed; [lia | nia].
Qed.

(** A quotient by a double that is positive and not zero, and a product
    with a double that is not negative, keep the sign. *)
Lemma SFdiv_signed (b : bool) (n s : spec_float) :
  signed b n -> signed false s -> (forall z, s <> S754_zero z) ->
  signed b (SF64div n s).
Proof.
  intros Hn Hs Hz.
  destruct n as [sn|sn| |sn mn en], s as [ss|ss| |ss ms es]; simpl in *; subst;
    trivial; try (now destruct (Hz ss)); try (now rewrite xorb_false_r).
  unfold SF64div, SFdiv.
  destruct (SFdiv_core_binary prec emax (Zpos mn) en (Zpos ms) es) as [[mz ez] lz].
  rewrite xorb_false_r. apply binary_round_aux_signed.
Qed.

Lemma SFmul_signed (b : bool) (a d : spec_float) :
  signed b a -> signed false d -> signed b (SF64mul a d).
Proof.
  intros Ha Hd.
  destruct a as [sa|sa| |sa ma ea], d as [sd|sd| |sd md ed]; simpl in *; subst;
    trivial; try (now rewrite xorb_false_r).
  rewrite xorb_false_r. apply binary_round_aux_signed.
Qed.

(** *** Negation *)

Lemma SFopp_involutive (x : spec_float) : SFopp (SFopp x) = x.
Proof. destruct x as [s|s| |s m e]; simpl; now rewrite ?negb_involutive. Qed.

Lemma binary_round_aux_opp (s : bool) (mx ex : Z) (lx : location) :
  binary_round_aux prec emax (negb s) mx ex lx
  = SFopp (binary_round_aux prec emax s mx ex lx).
Proof.
  unfold binary_round_aux.
  destruct (shr_fexp prec emax mx ex lx) as [mrs' e'].
  destruct (shr_fexp prec emax _ e' loc_Exact) as [mrs'' e''].
  destruct (shr_m mrs''); simpl; trivial.
  destruct (e'' <=? emax - prec); reflexivity.
Qed.

Lemma binary_round_opp (s : bool) (m : positive) (e : Z) :
  binary_round prec emax (negb s) m e = SFopp (binary_round prec emax s m e).
Proof.
  unfold binary_round. destruct (shl_align m e _) as [mz ez].
  apply binary_round_aux_opp.
Qed.

Lemma binary_normalize_opp (M e : Z) :
  M <> 0 ->
  binary_normalize prec emax (- M) e false = SFopp (binary_normalize prec emax M e false).
Proof.
  destruct M as [|M|M]; intros H; [contradiction | |]; simpl.
  - exact (binary_round_opp false M e).
  - rewrite <- (SFopp_involutive (binary_round prec emax false M e)). f_equal.
    symmetry. exact (binary_round_opp false M e).
Qed.

(** The difference of two doubles that differ changes sign with the order
    of its arguments. *)
Lemma SFsub_opp (x y : spec_float) :
  canonical x -> canonical y -> SFcompare x y = Some Lt ->
  SF64sub x y = SFopp (SF64sub y x).
Proof.
  intros Cx Cy H.
  destruct x as [sx|sx| |sx mx ex], y as [sy|sy| |sy my ey]; try discriminate;
    unfold SF64sub, SFsub;
    try (solve [ repeat match goal with s : bool |- _ => destruct s end;
                 simpl in *; try discriminate; reflexivity ]).
  pose proof (compare_units sx sy mx my ex ey Cx Cy H) as U.
  pose proof Cx as (Ex & _). pose proof Cy as (Ey & _).
  rewrite (sf_units_aligned sx mx ex (Z.min ex ey)) in U by lia.
  rewrite (sf_units_aligned sy my ey (Z.min ex ey)) in U by lia.
  assert (P : 0 < 2 ^ (Z.min ex ey + 1074)) by (apply Z.pow_pos_nonneg; lia).
  cbv zeta. rewrite (Z.min_comm ey ex).
  rewrite <- binary_normalize_opp by nia. f_equal. lia.
Qed.

Lemma SFcompare_asym (x y : spec_float) :
  canonical x -> canonical y -> SFcompare x y = Some Lt -> SFltb y x = false.
Proof.
  intros Cx Cy H. unfold SFltb.
  destruct (SFcompare y x) as [[| |]|] eqn:E; trivial. exfalso.
  destruct x as [sx|sx| |sx mx ex], y as [sy|sy| |sy my ey]; try discriminate;
    try (solve [ repeat match goal with s : bool |- _ => destruct s end;
                 simpl in *; discriminate ]).
  pose proof (compare_units _ _ _ _ _ _ Cx Cy H).
  pose proof (compare_units _ _ _ _ _ _ Cy Cx E). lia.
Qed.

Lemma SFdiv_opp (n s : spec_float) : SF64div (SFopp n) s = SFopp (SF64div n s).
Proof.
  destruct n as [sn|sn| |sn mn en], s as [ss|ss| |ss ms es]; simpl;
    rewrite <- ?negb_xorb_l; trivial.
  unfold SF64div, SFdiv.
  destruct (SFdiv_core_binary prec emax (Zpos mn) en (Zpos ms) es) as [[mz ez] lz].
  rewrite <- ?negb_xorb_l. apply binary_round_aux_opp.
Qed.

Lemma SFmul_opp (a d : spec_float) : SF64mul (SFopp a) d = SFopp (SF64mul a d).
Proof.
  destruct a as [sa|sa| |sa ma ea], d as [sd|sd| |sd md ed]; simpl;
    rewrite <- ?negb_xorb_l; trivial.
  apply binary_round_aux_opp.
Qed.

(** Subtracting the opposite is adding, and adding the opposite is
    subtracting. *)
Lemma SFsub_of_opp (a d : spec_float) : SF64sub a (SFopp d) = SF64add a d.
Proof.
  destruct a as [sa|sa| |sa ma ea], d as [sd|sd| |sd md ed];
    repeat match goal with s : bool |- _ => destruct s end; reflexivity.
Qed.

Lemma SFadd_of_opp (a d : spec_float) : SF64add a (SFopp d) = SF64sub a d.
Proof.
  destruct a as [sa|sa| |sa ma ea], d as [sd|sd| |sd md ed];
    repeat match goal with s : bool |- _ => destruct s end; reflexivity.
Qed.

End Facts.
End Rounding.

(** The sum of two finite doubles, when it is finite, is their exact sum
    but for a relative error of 2^-53; so is their difference. *)
Lemma units_add (x y : float) :
  PrimFloat.is_finite x = true -> PrimFloat.is_finite y = true ->
  PrimFloat.is_finite (x + y) = true ->
  (2 ^ 53 * Z.abs (units (x + y) - (units x + units y)) <= Z.abs (units (x + y)))%Z.
Proof.
  rewrite !Rounding.is_finite_spec, FloatAxioms.add_spec. intros Fx Fy Fz.
  pose proof (Rounding.SFadd_spec _ _ (Rounding.Prim2SF_canonical x)
                (Rounding.Prim2SF_canonical y) Fx Fy) as H.
  unfold units. rewrite FloatAxioms.add_spec.
  destruct (SF64add (Prim2SF x) (Prim2SF y)); try discriminate; exact H.
Qed.

Lemma units_sub (x y : float) :
  PrimFloat.is_finite x = true -> PrimFloat.is_finite y = true ->
  PrimFloat.is_finite (x - y) = true ->
  (2 ^ 53 * Z.abs (units (x - y) - (units x - units y)) <= Z.abs (units (x - y)))%Z.
Proof.
  rewrite !Rounding.is_finite_spec, FloatAxioms.sub_spec. intros Fx Fy Fz.
  pose proof (Rounding.SFsub_spec _ _ (Rounding.Prim2SF_canonical x)
                (Rounding.Prim2SF_canonical y) Fx Fy) as H.
  unfold units. rewrite FloatAxioms.sub_spec.
  destruct (SF64sub (Prim2SF x) (Prim2SF y)); try discriminate; exact H.
Qed.

(** Adding a finite double to a double that is not NaN, or subtracting
    it, does not give NaN. *)
Lemma add_number (x y : float) :
  PrimFloat.is_nan x = false -> PrimFloat.is_finite y = true ->
  PrimFloat.is_nan (x + y) = false.
Proof.
  intros Nx Fy. rewrite Rounding.is_finite_spec in Fy.
  destruct (PrimFloat.is_nan (x + y)) eqn:N; [| reflexivity].
  apply Binary64Facts.is_nan_spec in N. rewrite FloatAxioms.add_spec in N.
  assert (Hx : Prim2SF x <> SpecFloat.S754_nan).
  { intros H. apply Binary64Facts.is_nan_spec in H. congruence. }
  pose proof (Rounding.SFadd_spec (Prim2SF x) (Prim2SF y) (Rounding.Prim2SF_canonical x)
                (Rounding.Prim2SF_canonical y)) as H.
  destruct (Prim2SF x) as [sx|sx| |sx mx ex] eqn:Ex; [| | contradiction |].
  - specialize (H eq_refl Fy). now rewrite N in H.
  - destruct (Prim2SF y) as [sy|sy| |sy my ey]; discriminate.
  - specialize (H eq_refl Fy). now rewrite N in H.
Qed.

Lemma sub_number (x y : float) :
  PrimFloat.is_nan x = false -> PrimFloat.is_finite y = true ->
  PrimFloat.is_nan (x - y) = false.
Proof.
  intros Nx Fy. rewrite Rounding.is_finite_spec in Fy.
  destruct (PrimFloat.is_nan (x - y)) eqn:N; [| reflexivity].
  apply Binary64Facts.is_nan_spec in N. rewrite FloatAxioms.sub_spec in N.
  assert (Hx : Prim2SF x <> SpecFloat.S754_nan).
  { intros H. apply Binary64Facts.is_nan_spec in H. congruence. }
  pose proof (Rounding.SFsub_spec (Prim2SF x) (Prim2SF y) (Rounding.Prim2SF_canonical x)
                (Rounding.Prim2SF_canonical y)) as H.
  destruct (Prim2SF x) as [sx|sx| |sx mx ex] eqn:Ex; [| | contradiction |].
  - specialize (H eq_refl Fy). now rewrite N in H.
  - destruct (Prim2SF y) as [sy|sy| |sy my ey]; discriminate.
  - specialize (H eq_refl Fy). now rewrite N in H.
Qed.

Lemma is_finite_number (x : float) :
  PrimFloat.is_finite x = true -> PrimFloat.is_nan x = false.
Proof.
  unfold PrimFloat.is_finite. destruct (PrimFloat.is_nan x); [discriminate | reflexivity].
Qed.

Lemma ltb_compare (x y : float) :
  PrimFloat.ltb x y = true -> SpecFloat.SFcompare (Prim2SF x) (Prim2SF y) = Some Lt.
Proof.
  rewrite FloatAxioms.ltb_spec. unfold SpecFloat.SFltb.
  now destruct (SpecFloat.SFcompare (Prim2SF x) (Prim2SF y)) as [[| |]|].
Qed.

(** Subtracting the opposite of a double is adding it, and adding the
    opposite is subtracting. *)
Lemma sub_of_opp (a d : float) : PrimFloat.sub a (PrimFloat.opp d) = PrimFloat.add a d.
Proof.
  apply Prim2SF_inj.
  rewrite FloatAxioms.sub_spec, FloatAxioms.opp_spec, FloatAxioms.add_spec.
  apply Rounding.SFsub_of_opp.
Qed.

Lemma add_of_opp (a d : float) : PrimFloat.add a (PrimFloat.opp d) = PrimFloat.sub a d.
Proof.
  apply Prim2SF_inj.
  rewrite FloatAxioms.add_spec, FloatAxioms.sub_spec, FloatAxioms.opp_spec.
  apply Rounding.SFadd_of_opp.
Qed.

Lemma ltb_asym (x y : float) : PrimFloat.ltb x y = true -> PrimFloat.ltb y x = false.
Proof.
  intros H. apply ltb_compare in H. rewrite FloatAxioms.ltb_spec.
  exact (Rounding.SFcompare_asym _ _ (Rounding.Prim2SF_canonical x)
           (Rounding.Prim2SF_canonical y) H).
Qed.

(** ** Runs that are observed *)

Section WatchFacts.
Context {F : Type} `{AF : Arith F}.

(** A loop that passes the test [ok] returns, with an invariant [P] of
    the items that pass; [P] counts the items processed. *)
Lemma loop_passes_inv {S A} (P : nat -> S -> Prop) (ok : A -> S -> bool)
    (body : A -> M S unit) (l : list A) :
  (forall m x s, x ∈ l -> ok x s = true -> P m s ->
     exists s', body x s = (inr tt, s') /\ P (Datatypes.S m) s') ->
  forall m s, loop_passes ok body l s = true -> P m s ->
    exists s', for_each l body s = (inr tt, s') /\ P (m + length l) s'.
Proof.
  induction l as [|x l IH]; intros Hbody m s Hok Hs; simpl.
  - exists s. split; [reflexivity |]. now rewrite Nat.add_0_r.
  - simpl in Hok. apply andb_true_iff in Hok as [Hx Hl].
    destruct (Hbody m x s) as (s1 & E1 & H1); [left | assumption | assumption |].
    rewrite E1 in Hl.
    destruct (IH ltac:(intros k y t Hy; apply Hbody; now right) (Datatypes.S m) s1 Hl H1)
      as (s2 & E2 & H2).
    exists s2. unfold bind. rewrite E1. split; [assumption |].
    now replace (m + Datatypes.S (length l)) with (Datatypes.S m + length l) by lia.
Qed.

(** A relaxation that passes the test [ok] returns after each of its
    iteration steps, with an invariant [P] of the bonds that pass; [P]
    counts the bonds processed. *)
Lemma run_passes_inv (P : nat -> list F -> Prop)
    (ok : list F -> list F -> F -> nat * nat * nat -> list F -> bool)
    (parameters : list (F * F * F)) (bl : BondList) :
  (forall m c, P m c -> length c = length parameters) ->
  (forall m en pos damping b c, b ∈ bl -> length en = length parameters ->
     ok en pos damping b c = true -> P m c ->
     exists c', bond_step en pos damping b c = (inr tt, c') /\ P (S m) c') ->
  forall n damping m c, run_passes ok parameters bl n damping c = true -> P m c ->
    forall k, k <= n ->
      exists c', iterations parameters bl k damping c = (inr tt, c')
        /\ P (m + k * length bl) c'.
Proof.
  intros Hlen Hbond n. induction n as [|n IH]; intros damping m c Hok Hc k Hk.
  - assert (k = 0) as -> by lia. exists c. split; [reflexivity |].
    now rewrite Nat.add_0_r.
  - destruct k as [|k]; [exists c; split; [reflexivity | now rewrite Nat.add_0_r] |].
    simpl in Hok. apply andb_true_iff in Hok as [H1 H2].
    assert (Hbody : forall m' x s, x ∈ bl ->
              ok (en_values parameters c) (pos_en_values parameters)
                 (fmul damping (fdec 50)) x s = true -> P m' s ->
              exists s', bond_step (en_values parameters c) (pos_en_values parameters)
                           (fmul damping (fdec 50)) x s = (inr tt, s') /\ P (S m') s').
    { intros m' x s Hx Hx' Hs. apply Hbond; try assumption.
      apply en_values_length. now apply (Hlen m). }
    destruct (loop_passes_inv P _ _ bl Hbody m c H1 Hc) as (c1 & E1 & P1).
    rewrite iteration_body_aligned in H2 by now apply (Hlen m).
    rewrite E1 in H2.
    destruct (IH _ _ c1 H2 P1 k ltac:(lia)) as (c2 & E2 & P2).
    exists c2. simpl. unfold bind.
    rewrite iteration_body_aligned by now apply (Hlen m).
    rewrite E1. split; [assumption |].
    now replace (m + (length bl + k * length bl)) with (m + length bl + k * length bl) by lia.
Qed.

Lemma item_alter_eq (f : F -> F) (c : list F) (k : nat) :
  k < length c -> item (alter f k c) k = f (item c k).
Proof.
  intros Hk. unfold item. rewrite list_lookup_alter_eq.
  destruct (lookup_lt_is_Some_2 c k Hk) as [q ->]. reflexivity.
Qed.

Lemma item_alter_ne (f : F -> F) (c : list F) (k i : nat) :
  k <> i -> item (alter f k c) i = item c i.
Proof. intros Hk. unfold item. now rewrite list_lookup_alter_ne. Qed.

Lemma item_insert_ne (x : F) (c : list F) (k i : nat) :
  k <> i -> item (<[k := x]> c) i = item c i.
Proof. intros Hk. unfold item. now rewrite list_lookup_insert_ne. Qed.

End WatchFacts.

Lemma has_parameters_spec (atom_array : AtomArray) (bl : BondList) (i : nat) :
  has_parameters atom_array bl i = true <-> parametrized atom_array bl i.
Proof.
  unfold has_parameters, parametrized. destruct (element atom_array !! i) as [e|].
  - rewrite bool_decide_eq_true. split.
    + intros H. now exists e.
    + now intros (e' & [= <-] & H).
  - split; [discriminate | now intros (e & ? & _)].
Qed.

(** ** Binary64: atoms with parameters keep numbers as charges *)

Module Binary64Numbers.

Section Run.
Variable known : nat -> bool.
Variable parameters : list (float * float * float).
Variable bl : BondList.
Hypothesis in_range : bonds_in_range (length parameters) bl.

(** The charges are aligned, and every atom that has parameters has a
    number as charge. *)
Local Abbreviation numbers_at :=
  (fun c : list float =>
     length c = length parameters
     /\ forall i, known i = true -> PrimFloat.is_nan (item c i) = false).

Lemma bond_step_numbers en pos damping b c :
  b ∈ bl -> length en = length parameters ->
  transfer_is_finite known en pos damping b c = true -> numbers_at c ->
  exists c', bond_step en pos damping b c = (inr tt, c') /\ numbers_at c'.
Proof.
  intros Hin Hen Hok [Hc Hn]. destruct b as [[i j] t].
  unfold bonds_in_range in in_range. rewrite Forall_forall in in_range.
  destruct (in_range _ Hin) as [Hi Hj]. rewrite <- Hen in Hi, Hj.
  unfold transfer_is_finite in Hok.
  apply andb_true_iff in Hok as [Hok Hd]. apply andb_true_iff in Hok as [Ki Kj].
  destruct (PrimFloat.is_nan (item en i)) eqn:Ni, (PrimFloat.is_nan (item en j)) eqn:Nj.
  - exists (<[j := fnan]> (<[i := fnan]> c)).
    split; [now apply bond_step_both_nan |].
    split; [now rewrite !length_insert |]. intros k Hk.
    destruct (known i) eqn:Ei; [discriminate |].
    destruct (known j) eqn:Ej; [discriminate |].
    rewrite !item_insert_ne by congruence. auto.
  - exists (<[i := fnan]> c). split; [now apply bond_step_left_nan |].
    split; [now rewrite length_insert |]. intros k Hk.
    destruct (known i) eqn:Ei; [discriminate |].
    rewrite item_insert_ne by congruence. auto.
  - exists (<[j := fnan]> c). split; [now apply bond_step_right_nan |].
    split; [now rewrite length_insert |]. intros k Hk.
    destruct (known j) eqn:Ej; [discriminate |].
    rewrite item_insert_ne by congruence. auto.
  - simpl in Hd. eexists. split; [now apply bond_step_transfer |].
    split; [now rewrite !length_alter |]. intros k Hk.
    set (d := charge_transfer_of en pos damping i j) in *.
    assert (Hadd : forall k, known k = true ->
              PrimFloat.is_nan (item (alter (fun q => fadd q d) i c) k) = false).
    { intros k' Hk'. destruct (decide (i = k')) as [E|Hne].
      - subst k'. rewrite item_alter_eq by lia. apply add_number; auto.
      - rewrite item_alter_ne by assumption. auto. }
    destruct (decide (j = k)) as [E|Hne].
    + subst k. rewrite item_alter_eq by (rewrite length_alter; lia).
      apply sub_number; auto.
    + rewrite item_alter_ne by assumption. auto.
Qed.

Lemma relaxation_numbers n damping c :
  run_passes (transfer_is_finite known) parameters bl n damping c = true ->
  numbers_at c ->
  forall k, k <= n ->
    exists c', iterations parameters bl k damping c = (inr tt, c') /\ numbers_at c'.
Proof.
  intros Hok Hc k Hk.
  destruct (run_passes_inv (fun _ => numbers_at) (transfer_is_finite known) parameters bl
              ltac:(now intros m c0 [H _])
              ltac:(intros m en pos d b c0; apply bond_step_numbers)
              n damping 0 c Hok Hc k Hk) as (c' & E & H).
  now exists c'.
Qed.

End Run.
End Binary64Numbers.

(** ** Binary64: the sum of the charges *)

Module Binary64Conservation.

Section Run.
Local Open Scope Z_scope.

Variable bound : Z.
Variable parameters : list (float * float * float).
Variable bl : BondList.
Variable total0 : Z.
Hypothesis in_range : bonds_in_range (length parameters) bl.

Lemma units_total_alter (f : float -> float) (c : list float) (k : nat) :
  (k < length c)%nat ->
  units_total (alter f k c) = units_total c - units (item c k) + units (f (item c k)).
Proof.
  revert k. induction c as [|q c IH]; intros [|k] Hk; simpl in Hk; try lia.
  - unfold item. cbn. lia.
  - change (alter f (S k) (q :: c)) with (q :: alter f k c).
    cbn [units_total foldr]. fold (units_total (alter f k c)). fold (units_total c).
    rewrite IH by lia.
    change (item (q :: c) (S k)) with (item c k).
    generalize (units (f (item c k))), (units (item c k)), (units_total c), (units q).
    intros; lia.
Qed.

(** After [m] bonds: the charges are aligned and finite, and their sum is
    the initial one but for the rounding of [2 * m] additions. *)
Local Abbreviation conserved :=
  (fun (m : nat) (c : list float) =>
     length c = length parameters
     /\ Forall (fun q => PrimFloat.is_finite q = true) c
     /\ 2 ^ 53 * Z.abs (units_total c - total0) <= 2 * Z.of_nat m * bound).

Lemma finite_item (c : list float) (k : nat) :
  Forall (fun q => PrimFloat.is_finite q = true) c -> (k < length c)%nat ->
  PrimFloat.is_finite (item c k) = true.
Proof.
  intros Hc Hk. destruct (lookup_lt_is_Some_2 c k Hk) as [q Hq].
  unfold item. rewrite Hq. simpl. rewrite Forall_lookup in Hc. eauto.
Qed.

Lemma finite_alter (f : float -> float) (c : list float) (k : nat) :
  Forall (fun q => PrimFloat.is_finite q = true) c ->
  PrimFloat.is_finite (f (item c k)) = true ->
  Forall (fun q => PrimFloat.is_finite q = true) (alter f k c).
Proof.
  intros Hc Hf. apply Forall_alter; [assumption |].
  intros q Hq _. unfold item in Hf. now rewrite Hq in Hf.
Qed.

(** A transfer within [bound] changes the sum by the rounding of its two
    additions: [bound] units times 2^-53 each, at most. *)
Lemma transfer_rounds_twice m en pos damping b c :
  b ∈ bl -> length en = length parameters ->
  transfer_within bound en pos damping b c = true -> conserved m c ->
  exists c', bond_step en pos damping b c = (inr tt, c') /\ conserved (S m) c'.
Proof.
  intros Hin Hen Hok (Hc & Fc & Tc). destruct b as [[i j] t].
  unfold bonds_in_range in in_range. rewrite Forall_forall in in_range.
  destruct (in_range _ Hin) as [Hi Hj]. rewrite <- Hen in Hi, Hj.
  unfold transfer_within in Hok. cbv zeta in Hok.
  set (d := charge_transfer_of en pos damping i j) in *.
  set (c1 := alter (fun q => fadd q d) i c) in *.
  repeat (apply andb_true_iff in Hok as [Hok ?]).
  apply negb_true_iff in Hok.
  match goal with H : negb _ = true |- _ => apply negb_true_iff in H end.
  repeat match goal with H : (_ <=? _) = true |- _ => apply Z.leb_le in H end.
  exists (alter (fun q => fsub q d) j c1).
  split; [now apply bond_step_transfer |].
  assert (L1 : length c1 = length c) by apply length_alter.
  assert (F1 : Forall (fun q => PrimFloat.is_finite q = true) c1)
    by now apply finite_alter.
  split; [now rewrite length_alter, L1 |].
  split; [now apply finite_alter |].
  rewrite units_total_alter by lia. unfold c1 at 1. rewrite units_total_alter by lia.
  pose proof (units_add (item c i) d (finite_item c i Fc ltac:(lia))
                ltac:(assumption) ltac:(assumption)) as E1.
  pose proof (units_sub (item c1 j) d (finite_item c1 j F1 ltac:(lia))
                ltac:(assumption) ltac:(assumption)) as E2.
  cbn [fadd fsub Binary64.arith] in *. lia.
Qed.

Lemma relaxation_within_tolerance n damping c :
  run_passes (transfer_within bound) parameters bl n damping c = true ->
  conserved 0%nat c ->
  exists c', iterations parameters bl n damping c = (inr tt, c')
    /\ conserved (n * length bl)%nat c'.
Proof.
  intros Hok Hc.
  exact (run_passes_inv conserved (transfer_within bound) parameters bl
              ltac:(now intros m c0 [H _])
              ltac:(intros m en pos d b c0; apply transfer_rounds_twice)
              n damping 0%nat c Hok Hc n ltac:(lia)).
Qed.

End Run.
End Binary64Conservation.

(** ** The claims about the transfer of charge *)



(** C6: an atom whose row of [parameters] sums to 12.85 has 20.02 as
    entry of [pos_en_values], whatever the iteration step is, and 20.02 is
    the divisor of a transfer that takes its ENplus.  The row of hydrogen,
    (7.17, 6.24, -0.56), sums to 12.85, in binary64 as in exact
    arithmetic, and no other row of the table does. *)
Theorem hydrogen_divisor :
  (forall (F : Type) (AF : Arith F) (parameters : list (F * F * F))
          (i : nat) (p : F * F * F),
     parameters !! i = Some p ->
     feqb (sum3 p) (fdec 1285) = true ->
     pos_en_values parameters !! i = Some (fdec EN_POS_HYDROGEN)
     /\ forall (en : list F) (j : nat),
          (fgtb (item en j) (item en i) = true ->
             divisor_of en (pos_en_values parameters) i j = fdec EN_POS_HYDROGEN)
          /\ (fgtb (item en i) (item en j) = false ->
             divisor_of en (pos_en_values parameters) j i = fdec EN_POS_HYDROGEN))
  /\ lookup_parameters "H" 1 = Some (717, 624, -56)%Z
  /\ pos_en_value (F:=float) (row_of (717, 624, -56)%Z) = 20.02%float
  /\ pos_en_value (F:=Exact.t) (row_of (717, 624, -56)%Z) = fdec 2002
  /\ Forall (fun p => feqb (F:=float) (sum3 (row_of p)) (fdec 1285) = true ->
                      p = (717, 624, -56)%Z) table_rows.
Proof.
  split; [| split; [| split; [| split]]].
  - intros F AF parameters i p Hp Hs.
    assert (Hi : pos_en_values parameters !! i = Some (fdec EN_POS_HYDROGEN)).
    { unfold pos_en_values. rewrite list_lookup_fmap, Hp. simpl.
      unfold pos_en_value. now rewrite Hs. }
    split; [assumption |]. intros en j. unfold divisor_of.
    split; intros ->; unfold item; now rewrite Hi.
  - reflexivity.
  - vm_compute. reflexivity.
  - vm_compute. reflexivity.
  - repeat constructor; vm_compute; congruence.
Qed.

(** ** The example of the docstring *)

(** C2: for fluoromethane, with the zero default as with zeros as
    [charges], the call returns charges within 1e-4 of
    [0.1147, -0.1754, 0.0202, 0.0202, 0.0202] after one iteration step and
    of [0.0792, -0.2526, 0.0578, 0.0578, 0.0578] after six.  In binary64
    they are within 1e-8 of the values the docstring prints; in exact
    arithmetic the charges after one step are 15619/136136, -167/952
    and 81/4004. *)
Theorem fluoromethane_charges :
  exists c1 c6 : list float,
    outcome (partial_charges fluoromethane 1 no_charges) = inr c1
    /\ outcome (partial_charges fluoromethane 6 no_charges) = inr c6
    /\ outcome (partial_charges fluoromethane 1
                  (with_charges [0; 0; 0; 0; 0]%float)) = inr c1
    /\ outcome (partial_charges fluoromethane 6
                  (with_charges [0; 0; 0; 0; 0]%float)) = inr c6
    /\ within 1e-4 c1 [0.1147; -0.1754; 0.0202; 0.0202; 0.0202]%float = true
    /\ within 1e-4 c6 [0.0792; -0.2526; 0.0578; 0.0578; 0.0578]%float = true
    /\ within 1e-8 c1
         [0.11473086; -0.17542017; 0.02022977; 0.02022977; 0.02022977]%float = true
    /\ within 1e-8 c6
         [0.07915367; -0.25264294; 0.05782976; 0.05782976; 0.05782976]%float = true
    /\ outcome (partial_charges fluoromethane 1 no_charges)
       = inr [Exact.Fin (Q2Qc (15619 # 136136)); Exact.Fin (Q2Qc (-167 # 952));
              Exact.Fin (Q2Qc (81 # 4004)); Exact.Fin (Q2Qc (81 # 4004));
              Exact.Fin (Q2Qc (81 # 4004))].
Proof.
  eexists. eexists.
  split; [vm_compute; reflexivity |]. split; [vm_compute; reflexivity |].
  split; [vm_compute; reflexivity |]. split; [vm_compute; reflexivity |].
  split; [vm_compute; reflexivity |]. split; [vm_compute; reflexivity |].
  split; [vm_compute; reflexivity |]. split; [vm_compute; reflexivity |].
  unfold outcome.
  destruct (partial_charges (F:=Exact.t) fluoromethane 1 no_charges) as [r w'] eqn:E.
  vm_compute in E. injection E as <- _. apply (f_equal inr).
  repeat (apply (f_equal2 cons);
          [apply (f_equal Exact.Fin), Qc_is_canon; reflexivity |]).
  reflexivity.
Qed.

(** ** The claims about the sum of the charges and about NaN *)

Lemma parameters_of_parametrized (atom_array : AtomArray) (bl : BondList) (i : nat) :
  parametrized atom_array bl i ->
  exists r, parameters_of (F:=Exact.t) atom_array bl !! i = Some r /\ table_row r.
Proof.
  intros (e & He & [p Hp]). exists (row_of p). split.
  - rewrite (parameters_of_lookup atom_array bl i e He). unfold row_for. now rewrite Hp.
  - exists p. split; [| reflexivity]. now apply lookup_parameters_row in Hp.
Qed.

(** C3, as amended: when every atom has an entry of the table, the sum of
    the charges a call returns is the sum of the initial charges, for
    every number of iteration steps: exactly so in exact arithmetic, and
    in binary64, the arithmetic of the program, up to the rounding of the
    transfers, as long as nothing overflows.  In binary64, precisely: when
    the initial charges are finite and every bond of the run transfers
    charge and stays within [bound] units of 2^-1074 ([stays_within]:
    neither electronegativity is NaN, the transfer and the two charges it
    writes are finite, the latter of [bound] units at most), the call
    returns finite charges whose sum, taken without rounding, differs
    from the sum of the initial charges by
    2 * steps * bonds * bound * 2^-53 units at most.  Each transfer adds
    to one end what it subtracts from the other, and each of these two
    additions is rounded once.  (The binary64 half needs no hypothesis on
    the table: a bond of an atom without parameters does not pass
    [stays_within].) *)
Theorem charge_conservation :
  (forall (atom_array : AtomArray) (bl : BondList) (iteration_step_num : nat)
          (w : @world Exact.t),
     bonds atom_array = Some bl ->
     bonds_in_range (length (element atom_array)) bl ->
     length (initial_charges (length (element atom_array)) w)
       = length (element atom_array) ->
     (forall i, i < length (element atom_array) -> parametrized atom_array bl i) ->
     exists c w', partial_charges atom_array iteration_step_num w = (inr c, w')
       /\ total c = total (initial_charges (length (element atom_array)) w))
  /\ (forall (atom_array : AtomArray) (bl : BondList) (iteration_step_num : nat)
             (w : @world float) (bound : Z),
        bonds atom_array = Some bl ->
        bonds_in_range (length (element atom_array)) bl ->
        length (initial_charges (length (element atom_array)) w)
          = length (element atom_array) ->
        Forall (fun q => PrimFloat.is_finite q = true)
          (initial_charges (length (element atom_array)) w) ->
        stays_within bound atom_array bl iteration_step_num w = true ->
        exists c w', partial_charges atom_array iteration_step_num w = (inr c, w')
          /\ Forall (fun q => PrimFloat.is_finite q = true) c
          /\ (2 ^ 53 * Z.abs (units_total c
                              - units_total (initial_charges (length (element atom_array)) w))
              <= 2 * (Z.of_nat iteration_step_num * Z.of_nat (length bl)) * bound)%Z).
Proof.
  split.
  - intros atom_array bl iteration_step_num w Hb Hr Hlen Hall.
    assert (rows : Forall table_row (parameters_of (F:=Exact.t) atom_array bl)).
    { apply Forall_lookup. intros i r Hi.
      assert (Hlt : i < length (element atom_array)).
      { rewrite <- (parameters_of_length (F:=Exact.t) atom_array bl).
        now apply lookup_lt_Some in Hi. }
      destruct (parameters_of_parametrized atom_array bl i (Hall i Hlt)) as (r' & Hr' & T).
      congruence. }
    destruct (ExactConservation.relaxation_conserves (parameters_of atom_array bl) rows bl
                iteration_step_num (initial_charges (length (element atom_array)) w))
      as (c & E & T).
    1-2: now rewrite parameters_of_length.
    destruct (partial_charges_returns atom_array bl iteration_step_num w c Hb E)
      as (w' & Ew & _).
    now exists c, w'.
  - intros atom_array bl n w bound Hb Hr Hlen Hfin Hok.
    destruct (Binary64Conservation.relaxation_within_tolerance bound
                (parameters_of atom_array bl) bl
                (units_total (initial_charges (length (element atom_array)) w))
                ltac:(now rewrite parameters_of_length) n (fdec 100)
                (initial_charges (length (element atom_array)) w) Hok)
      as (c & E & _ & Fc & Tc).
    { split; [now rewrite parameters_of_length |]. split; [assumption |].
      rewrite Z.sub_diag. simpl. lia. }
    destruct (partial_charges_returns atom_array bl n w c Hb E) as (w' & Ew & _).
    exists c, w'. split; [assumption |]. split; [assumption |].
    now rewrite Nat2Z.inj_mul in Tc.
Qed.

(** C3, as stated, fails in binary64: both atoms of hydrogen fluoride
    have an entry of the table, and the initial charges, 1e200 and 0, are
    finite; the square of 1e200 overflows, the electronegativity of the
    hydrogen atom is minus infinity, the transfer is infinite, and the
    call returns plus and minus infinity, whose sum is NaN, while the
    initial charges sum to 1e200. *)
Lemma overflow_breaks_conservation :
  parametrized hydrogen_fluoride [(0, 1, 1)] 0
  /\ parametrized hydrogen_fluoride [(0, 1, 1)] 1
  /\ forallb PrimFloat.is_finite [1e200; 0]%float = true
  /\ outcome (partial_charges hydrogen_fluoride 1 (with_charges [1e200; 0]%float))
     = inr [infinity; neg_infinity]
  /\ total [1e200; 0]%float = 1e200%float
  /\ fisnan (total [infinity; neg_infinity]) = true
  /\ item (en_values (parameters_of hydrogen_fluoride [(0, 1, 1)]) [1e200; 0]%float) 0
     = neg_infinity.
Proof.
  split; [| split; [| split; [| split; [| split; [| split]]]]].
  - exists "H". split; [reflexivity |]. now exists (717, 624, -56)%Z.
  - exists "F". split; [reflexivity |]. now exists (1466, 1385, 231)%Z.
  - vm_compute. reflexivity.
  - vm_compute. reflexivity.
  - vm_compute. reflexivity.
  - vm_compute. reflexivity.
  - vm_compute. reflexivity.
Qed.

(** C5, as amended: in binary64, when the initial charges are finite and
    no overflow reaches a bond of the run ([no_overflow]: at every bond
    processed, the electronegativity of each end that has an entry of the
    table is not NaN, and the transfer between two electronegativities
    that are not NaN is finite), every atom that has an entry of the table
    has a charge that is not NaN after every iteration step and in the
    result of the call: the NaN of the atoms without parameters does not
    reach it. *)
Theorem parametrized_atoms_keep_numbers (atom_array : AtomArray) (bl : BondList)
    (iteration_step_num : nat) (w : @world float) :
  bonds atom_array = Some bl ->
  bonds_in_range (length (element atom_array)) bl ->
  length (initial_charges (length (element atom_array)) w) = length (element atom_array) ->
  Forall (fun q => PrimFloat.is_finite q = true)
    (initial_charges (length (element atom_array)) w) ->
  no_overflow atom_array bl iteration_step_num w = true ->
  (forall k, k <= iteration_step_num ->
     exists c, iterations (parameters_of atom_array bl) bl k (fdec 100)
                 (initial_charges (length (element atom_array)) w) = (inr tt, c)
       /\ forall i, parametrized atom_array bl i ->
            exists q, c !! i = Some q /\ fisnan q = false)
  /\ exists c w', partial_charges atom_array iteration_step_num w = (inr c, w')
       /\ forall i, parametrized atom_array bl i ->
            exists q, c !! i = Some q /\ fisnan q = false.
Proof.
  intros Hb Hr Hlen Hfin Hok.
  assert (Hrun : forall k, k <= iteration_step_num ->
            exists c, iterations (parameters_of atom_array bl) bl k (fdec 100)
                        (initial_charges (length (element atom_array)) w) = (inr tt, c)
              /\ forall i, parametrized atom_array bl i ->
                   exists q, c !! i = Some q /\ fisnan q = false).
  { intros k Hk.
    destruct (Binary64Numbers.relaxation_numbers (has_parameters atom_array bl)
                (parameters_of atom_array bl) bl
                ltac:(now rewrite parameters_of_length) iteration_step_num (fdec 100)
                (initial_charges (length (element atom_array)) w) Hok) with (k := k)
      as (c & E & Hc & N); [| assumption |].
    - split; [now rewrite parameters_of_length |]. intros i Hi.
      apply has_parameters_spec in Hi. destruct Hi as (e & He & _).
      apply lookup_lt_Some in He. rewrite <- Hlen in He.
      destruct (lookup_lt_is_Some_2 _ i He) as [q Hq].
      unfold item. rewrite Hq. simpl. apply is_finite_number.
      rewrite Forall_lookup in Hfin. eauto.
    - exists c. split; [assumption |]. intros i Hi.
      pose proof Hi as (e & He & _). apply lookup_lt_Some in He.
      rewrite <- (parameters_of_length (F:=float) atom_array bl), <- Hc in He.
      destruct (lookup_lt_is_Some_2 _ i He) as [q Hq]. exists q. split; [assumption |].
      apply has_parameters_spec in Hi. specialize (N i Hi).
      unfold item in N. now rewrite Hq in N. }
  split; [assumption |].
  destruct (Hrun iteration_step_num (Nat.le_refl _)) as (c & E & N).
  destruct (partial_charges_returns atom_array bl iteration_step_num w c Hb E)
    as (w' & Ew & _).
  now exists c, w'.
Qed.

(** C5, as stated, fails in binary64: both atoms of the hydrogen molecule
    have an entry of the table and a finite initial charge, 1e200; its
    square overflows, both electronegativities are minus infinity, their
    difference is NaN, and both charges are NaN after one step. *)
Lemma overflow_makes_parametrized_atoms_nan :
  parametrized hydrogen_molecule [(0, 1, 1)] 0
  /\ parametrized hydrogen_molecule [(0, 1, 1)] 1
  /\ forallb PrimFloat.is_finite [1e200; 1e200]%float = true
  /\ exists c : list float,
       outcome (partial_charges hydrogen_molecule 1 (with_charges [1e200; 1e200]%float))
       = inr c
       /\ map fisnan c = [true; true]
       /\ en_values (parameters_of hydrogen_molecule [(0, 1, 1)]) [1e200; 1e200]%float
          = [neg_infinity; neg_infinity].
Proof.
  split; [| split; [| split]].
  - exists "H". split; [reflexivity |]. now exists (717, 624, -56)%Z.
  - exists "H". split; [reflexivity |]. now exists (717, 624, -56)%Z.
  - vm_compute. reflexivity.
  - eexists. split; [vm_compute; reflexivity |]. split; vm_compute; reflexivity.
Qed.

(** Both hypotheses of C5, as amended, are needed.  The run above does
    not pass [no_overflow].  And an initial charge that is infinite,
    although it is not NaN, makes a charge NaN with no overflow at all:
    minus infinity plus infinity. *)
Example overflow_is_observed :
  no_overflow hydrogen_molecule [(0, 1, 1)] 1 (with_charges [1e200; 1e200]%float) = false.
Proof. vm_compute. reflexivity. Qed.

Example infinite_charge_gives_nan :
  outcome (partial_charges hydrogen_molecule 1 (with_charges [infinity; 0]%float))
  = inr [PrimFloat.nan; 0%float].
Proof. vm_compute. reflexivity. Qed.

(** The electronegativity of an atom that has an entry of the table can
    be NaN although its charge is finite: for hydrogen of charge 1.7e308
    the term b * q is plus infinity and the term c * q**2 is minus
    infinity. *)
Example finite_charge_with_nan_electronegativity :
  PrimFloat.is_finite 1.7e308 = true
  /\ fisnan (en_value (row_of (717, 624, -56)%Z) 1.7e308%float) = true.
Proof. split; vm_compute; reflexivity. Qed.

(** C8, as stated, fails: the helium atom has no entry of the table, the
    call warns about helium, and returns 0.0 as its charge, since the atom
    has no bond. *)
Lemma isolated_unparametrized_atom_is_not_nan :
  unparametrized helium_and_hydrogen [(1, 2, 1)] 0 "He"
  /\ partial_charges (F:=float) helium_and_hydrogen 6 no_charges
     = (inr [0; 0; 0]%float,
        {| charges_arg := None; charges_annot := None;
           charges_new := Some [0; 0; 0]%float;
           warned := [MissingCharges; MissingParameters ["He"]] |})
  /\ fisnan 0%float = false.
Proof.
  split; [| split].
  - split; reflexivity.
  - vm_compute. reflexivity.
  - reflexivity.
Qed.

(** ** Instances of the statements *)

Ltac in_range :=
  unfold bonds_in_range; repeat (constructor; [simpl; lia |]); constructor.


Lemma hydrogen_divisor_witness :
  pos_en_values (F:=float) [row_of (798, 918, 188)%Z; row_of (717, 624, -56)%Z] !! 1
  = Some (fdec EN_POS_HYDROGEN).
Proof.
  apply (proj1 hydrogen_divisor float Binary64.arith
           [row_of (798, 918, 188)%Z; row_of (717, 624, -56)%Z] 1
           (row_of (717, 624, -56)%Z)).
  - reflexivity.
  - vm_compute. reflexivity.
Defined.

Lemma charge_conservation_witness :
  (exists c w',
     partial_charges fluoromethane 6
       (with_charges [Exact.dec 100; Exact.dec (-100); Exact.dec 0; Exact.dec 0; Exact.dec 50])
     = (inr c, w')
     /\ total c = total [Exact.dec 100; Exact.dec (-100); Exact.dec 0; Exact.dec 0; Exact.dec 50])
  /\ (exists c w',
        partial_charges fluoromethane 6 (with_charges [1; -1; 0; 0; 0.5]%float) = (inr c, w')
        /\ Forall (fun q => PrimFloat.is_finite q = true) c
        /\ (2 ^ 53 * Z.abs (units_total c - units_total [1; -1; 0; 0; 0.5]%float)
            <= 2 * (Z.of_nat 6 * Z.of_nat 4) * 2 ^ 1075)%Z).
Proof.
  split.
  - apply (proj1 charge_conservation fluoromethane
             [(0, 1, 1); (0, 2, 1); (0, 3, 1); (0, 4, 1)] 6
             (with_charges [Exact.dec 100; Exact.dec (-100); Exact.dec 0; Exact.dec 0;
                            Exact.dec 50])).
    + reflexivity.
    + in_range.
    + reflexivity.
    + intros [|[|[|[|[|i]]]]] Hi; [| | | | | simpl in Hi; lia];
        eexists; (split; [reflexivity |]); eexists; reflexivity.
  - apply (proj2 charge_conservation fluoromethane
             [(0, 1, 1); (0, 2, 1); (0, 3, 1); (0, 4, 1)] 6
             (with_charges [1; -1; 0; 0; 0.5]%float) (2 ^ 1075)%Z).
    + reflexivity.
    + in_range.
    + reflexivity.
    + repeat constructor.
    + vm_compute. reflexivity.
Defined.

Lemma poisoning_rule_witness :
  exists c',
    bond_step (F:=float) [PrimFloat.nan; 7.17]%float [PrimFloat.nan; 20.02]%float
      0.5%float (0, 1, 1) [0; 0]%float = (inr tt, c')
    /\ c' !! 0 = Some PrimFloat.nan /\ forall k, k <> 0 -> c' !! k = [0; 0]%float !! k.
Proof.
  apply (proj1 (proj2 (proj2 (poisoning_rule (F:=float)
           [PrimFloat.nan; 7.17]%float [PrimFloat.nan; 20.02]%float 0.5%float 0 1 1
           [0; 0]%float ltac:(simpl; lia) ltac:(simpl; lia) eq_refl)))).
  - reflexivity.
  - reflexivity.
Defined.

Lemma parametrized_atoms_keep_numbers_witness :
  (forall k, k <= 6 ->
     exists c, iterations (parameters_of helium_hydride [(0, 1, 1)]) [(0, 1, 1)] k
                 (fdec 100) [0; 1]%float = (inr tt, c)
       /\ forall i, parametrized helium_hydride [(0, 1, 1)] i ->
            exists q, c !! i = Some q /\ fisnan q = false)
  /\ exists c w',
       partial_charges helium_hydride 6 (with_charges [0; 1]%float) = (inr c, w')
       /\ forall i, parametrized helium_hydride [(0, 1, 1)] i ->
            exists q, c !! i = Some q /\ fisnan q = false.
Proof.
  apply (parametrized_atoms_keep_numbers helium_hydride [(0, 1, 1)] 6
           (with_charges [0; 1]%float)).
  - reflexivity.
  - in_range.
  - reflexivity.
  - repeat constructor.
  - vm_compute. reflexivity.
Defined.

Lemma missing_parameters_warned_once_witness :
  exists c w' atoms,
    partial_charges (F:=float) helium_hydride 6 no_charges = (inr c, w')
    /\ warned w' = warned (F:=float) no_charges ++ charges_warning (F:=float) no_charges
                   ++ [MissingParameters atoms]
    /\ NoDup atoms
    /\ (forall e, e ∈ atoms <-> exists i, unparametrized helium_hydride [(0, 1, 1)] i e)
    /\ (forall i e, unparametrized helium_hydride [(0, 1, 1)] i e ->
          get_bonds [(0, 1, 1)] i <> [] -> 0 < 6 -> nan_at c i).
Proof.
  apply (missing_parameters_warned_once helium_hydride [(0, 1, 1)] 6 no_charges).
  - reflexivity.
  - in_range.
  - reflexivity.
  - exists 0, "He". split; reflexivity.
Defined.

Lemma isolated_atom_keeps_charge_witness :
  exists c w',
    partial_charges (F:=float) helium_and_hydrogen 6 (with_charges [2; 0; 1]%float)
    = (inr c, w')
    /\ c !! 0 = [2; 0; 1]%float !! 0.
Proof.
  apply (isolated_atom_keeps_charge helium_and_hydrogen [(1, 2, 1)] 6
           (with_charges [2; 0; 1]%float) 0).
  - reflexivity.
  - in_range.
  - reflexivity.
  - reflexivity.
Defined.

Lemma isolated_atom_is_warned_about_witness :
  lookup_parameters "He" (length (get_bonds [(1, 2, 1)] 0)) = None
  /\ exists c w' atoms,
       partial_charges (F:=float) helium_and_hydrogen 6 (with_charges [2; 0; 1]%float)
       = (inr c, w')
       /\ warned w' = [] ++ [] ++ [MissingParameters atoms]
       /\ "He" ∈ atoms
       /\ c !! 0 = [2; 0; 1]%float !! 0.
Proof.
  apply (isolated_atom_is_warned_about helium_and_hydrogen [(1, 2, 1)] 6
           (with_charges [2; 0; 1]%float) 0 "He").
  - reflexivity.
  - in_range.
  - reflexivity.
  - reflexivity.
  - reflexivity.
Defined.

(** * Further properties *)

(** ** The call as a whole *)

Section CallRun.
Context {F : Type} `{AF : Arith F}.

Implicit Types (c : list F) (w : @world F).

(** A call on an array with bonds is the relaxation on the initial
    charges, run in place on the array [charges] names, after the
    warnings. *)
Lemma partial_charges_run (atom_array : AtomArray) (bl : BondList) (n : nat) w :
  bonds atom_array = Some bl ->
  partial_charges atom_array n w =
  let r := iterations (parameters_of atom_array bl) bl n (fdec 100)
             (initial_charges (length (element atom_array)) w) in
  (match r.1 with inl e => inl e | inr _ => inr r.2 end,
   world_after atom_array bl w r.2).
Proof.
  intros Hb. unfold world_after, chosen_buffer.
  unfold partial_charges, parameters_of, parameters_warning, missing_of,
    initial_charges, charges_warning, _get_parameters, valences.
  rewrite Hb. destruct w as [[a|] [an|] nw wd]; simpl;
    destruct (gather _ _) as [rows [|m missing]]; simpl;
    unfold bind, on_buffer, read_buffer; simpl;
    destruct (iterations rows bl n (fdec 100) _) as [[e|[]] c]; simpl;
    now rewrite ?app_nil_r, <- ?app_assoc.
Qed.

(** The relaxation on well-formed input returns, and keeps the length of
    [charges]. *)
Lemma relaxation_returns (parameters : list (F * F * F)) (bl : BondList)
    (n : nat) (damping : F) c0 :
  bonds_in_range (length parameters) bl ->
  length c0 = length parameters ->
  exists c, iterations parameters bl n damping c0 = (inr tt, c)
    /\ length c = length parameters.
Proof.
  intros Hr Hlen.
  apply (iterations_inv (fun c => length c = length parameters)); [| assumption].
  clear damping. intros damping c Hc.
  rewrite iteration_body_aligned by assumption.
  apply (for_each_inv (fun c => length c = length parameters)); [| assumption].
  intros [[a b] t] s Hin Hs.
  unfold bonds_in_range in Hr. rewrite Forall_forall in Hr.
  destruct (Hr _ Hin) as [Ha Hb].
  destruct (bond_step_frame (en_values parameters c) (pos_en_values parameters)
              damping a b t s) as (s' & E & Hl & _).
  1-2: now rewrite en_values_length.
  exists s'. split; [assumption | congruence].
Qed.

End CallRun.

(** X1: with zero iteration steps, a call on an array with bonds returns
    the initial charges as they are (the argument, else the annotation,
    else zeros), after the warnings; the charges need not be aligned with
    the atoms and the bonds need not be in range. *)
Theorem zero_steps_return_initial_charges {F : Type} `{AF : Arith F}
    (atom_array : AtomArray) (bl : BondList) (w : @world F) :
  bonds atom_array = Some bl ->
  partial_charges atom_array 0 w =
  (inr (initial_charges (length (element atom_array)) w),
   world_after atom_array bl w (initial_charges (length (element atom_array)) w)).
Proof. intros Hb. now rewrite (partial_charges_run atom_array bl 0 w Hb). Qed.

Lemma zero_steps_return_initial_charges_witness :
  partial_charges (F:=float) helium_hydride 0 (with_charges [1%float]) =
  (inr [1%float],
   world_after helium_hydride [(0, 1, 1)] (with_charges [1%float]) [1%float]).
Proof.
  apply (zero_steps_return_initial_charges helium_hydride [(0, 1, 1)]
           (with_charges [1%float])).
  reflexivity.
Defined.

(** X2: with one iteration step or more, charges that are not aligned
    with the atoms make the call raise [ValueError] in its first step,
    after the warnings about parameters; the argument and the annotation
    are left as they were. *)
Theorem misaligned_charges_raise {F : Type} `{AF : Arith F}
    (atom_array : AtomArray) (bl : BondList) (k : nat) (w : @world F) :
  bonds atom_array = Some bl ->
  length (initial_charges (length (element atom_array)) w) <> length (element atom_array) ->
  exists w', partial_charges atom_array (S k) w = (inl ValueError, w')
    /\ charges_arg w' = charges_arg w
    /\ charges_annot w' = charges_annot w
    /\ warned w' = warned w ++ parameters_warning atom_array bl.
Proof.
  intros Hb Hlen. rewrite (partial_charges_run atom_array bl (S k) w Hb).
  assert (E : iterations (parameters_of atom_array bl) bl (S k) (fdec 100)
                (initial_charges (length (element atom_array)) w)
              = (inl ValueError, initial_charges (length (element atom_array)) w)).
  { simpl. unfold bind, iteration_body, bind, get_state.
    rewrite parameters_of_length.
    apply Nat.eqb_neq in Hlen. now rewrite Hlen. }
  rewrite E. simpl. eexists. split; [reflexivity |].
  unfold world_after, chosen_buffer, initial_charges, charges_warning in *.
  destruct w as [[a|] [an|] nw wd]; simpl in *; try (repeat split; reflexivity).
  rewrite length_replicate in Hlen. contradiction.
Qed.

Lemma misaligned_charges_raise_witness :
  exists w', partial_charges (F:=float) helium_hydride 3 (with_charges [1%float])
             = (inl ValueError, w')
    /\ charges_arg w' = Some [1%float]
    /\ charges_annot w' = None
    /\ warned w' = [] ++ parameters_warning (F:=float) helium_hydride [(0, 1, 1)].
Proof.
  apply (misaligned_charges_raise helium_hydride [(0, 1, 1)] 2 (with_charges [1%float])).
  - reflexivity.
  - simpl. lia.
Defined.

(** X3: the array a call returns is the array [charges] names, updated in
    place: the argument when there is one; else the annotation of the atom
    array, which is overwritten with the partial charges; else the new
    array of zeros, and the atom array gets no annotation.  (With an
    argument the statement is about the argument only: the embedding keeps
    argument and annotation as two arrays, while a caller may pass the
    annotation itself as argument, which is then written as well.) *)
Theorem charges_are_updated_in_place {F : Type} `{AF : Arith F}
    (atom_array : AtomArray) (bl : BondList) (n : nat) (w w' : @world F) (c : list F) :
  bonds atom_array = Some bl ->
  partial_charges atom_array n w = (inr c, w') ->
  match charges_arg w, charges_annot w with
  | Some _, _ => charges_arg w' = Some c
  | None, Some _ => charges_arg w' = None /\ charges_annot w' = Some c
  | None, None =>
      charges_arg w' = None /\ charges_annot w' = None /\ charges_new w' = Some c
  end.
Proof.
  intros Hb. rewrite (partial_charges_run atom_array bl n w Hb).
  destruct (iterations _ _ _ _ _) as [[e|[]] c']; simpl; [discriminate |].
  intros [= <- <-]. unfold world_after, chosen_buffer.
  destruct w as [[a|] [an|] nw wd]; simpl; repeat split; reflexivity.
Qed.

Lemma charges_are_updated_in_place_witness :
  charges_arg (F:=float) (world_after helium_hydride [(0, 1, 1)]
                  {| charges_arg := None; charges_annot := Some [0; 0]%float;
                     charges_new := None; warned := [] |} [PrimFloat.nan; 0%float]) = None
  /\ charges_annot (world_after helium_hydride [(0, 1, 1)]
                  {| charges_arg := None; charges_annot := Some [0; 0]%float;
                     charges_new := None; warned := [] |} [PrimFloat.nan; 0%float])
     = Some [PrimFloat.nan; 0%float].
Proof.
  apply (charges_are_updated_in_place helium_hydride [(0, 1, 1)] 1
           {| charges_arg := None; charges_annot := Some [0; 0]%float;
              charges_new := None; warned := [] |}).
  - reflexivity.
  - vm_compute. reflexivity.
Defined.

(** X4: when every atom has an entry of the table, a call on an array
    with bonds does not emit the warning about missing parameters,
    whatever its outcome is: of the two warnings of the module it emits
    the one about missing charges at most, and none with [charges] given
    or annotated.  (The warnings are those of the two [warnings.warn]
    calls of the module; what NumPy itself reports when an operation
    overflows or is invalid is not part of the embedding.) *)
Theorem parametrized_atoms_give_no_warning {F : Type} `{AF : Arith F}
    (atom_array : AtomArray) (bl : BondList) (n : nat) (w : @world F) :
  bonds atom_array = Some bl ->
  (forall i, i < length (element atom_array) -> parametrized atom_array bl i) ->
  warned (partial_charges atom_array n w).2 = warned w ++ charges_warning w.
Proof.
  intros Hb Hall. rewrite (partial_charges_run atom_array bl n w Hb). simpl.
  assert (Hm : missing_of (F:=F) atom_array bl = []).
  { destruct (missing_of (F:=F) atom_array bl) as [|e l] eqn:E; [reflexivity |].
    assert (He : e ∈ missing_of (F:=F) atom_array bl) by (rewrite E; left).
    apply missing_of_elem in He as (i & Hi & L).
    destruct (Hall i) as (e' & He' & [p Hp]); [now apply lookup_lt_Some in Hi |].
    congruence. }
  unfold world_after, parameters_warning. rewrite Hm, app_nil_r.
  now destruct (chosen_buffer w).
Qed.

Lemma parametrized_atoms_give_no_warning_witness :
  warned (partial_charges (F:=float) hydrogen_molecule 6
            (with_charges [0; 0]%float)).2
  = [] ++ charges_warning (with_charges [0; 0]%float).
Proof.
  apply (parametrized_atoms_give_no_warning hydrogen_molecule [(0, 1, 1)] 6
           (with_charges [0; 0]%float)).
  - reflexivity.
  - intros [|[|i]] Hi; [| | simpl in Hi; lia];
      eexists; (split; [reflexivity |]); eexists; reflexivity.
Defined.

(** X5: on well-formed input (bond indices below the atom count, charges
    aligned with the atoms) the call returns, raising nothing, an array
    with one charge per atom. *)
Theorem well_formed_call_returns {F : Type} `{AF : Arith F}
    (atom_array : AtomArray) (bl : BondList) (n : nat) (w : @world F) :
  bonds atom_array = Some bl ->
  bonds_in_range (length (element atom_array)) bl ->
  length (initial_charges (length (element atom_array)) w) = length (element atom_array) ->
  exists c, partial_charges atom_array n w = (inr c, world_after atom_array bl w c)
    /\ length c = length (element atom_array).
Proof.
  intros Hb Hr Hlen. rewrite (partial_charges_run atom_array bl n w Hb).
  destruct (relaxation_returns (parameters_of atom_array bl) bl n (fdec 100)
              (initial_charges (length (element atom_array)) w)) as (c & E & L).
  1-2: now rewrite parameters_of_length.
  rewrite E. simpl. exists c. split; [reflexivity |].
  now rewrite L, parameters_of_length.
Qed.

Lemma well_formed_call_returns_witness :
  exists c, partial_charges (F:=float) fluoromethane 6 no_charges
            = (inr c, world_after fluoromethane
                        [(0, 1, 1); (0, 2, 1); (0, 3, 1); (0, 4, 1)] no_charges c)
    /\ length c = 5.
Proof.
  apply (well_formed_call_returns fluoromethane
           [(0, 1, 1); (0, 2, 1); (0, 3, 1); (0, 4, 1)] 6 no_charges).
  - reflexivity.
  - in_range.
  - reflexivity.
Defined.

(** X6: the loop composes: n + m iteration steps are n steps followed by
    m steps that go on from the damping factor the first n steps have
    reached, when these return, and raise what they raise otherwise. *)
Theorem iteration_steps_compose {F : Type} `{AF : Arith F}
    (parameters : list (F * F * F)) (bl : BondList) (n m : nat) (damping : F)
    (c : list F) :
  iterations parameters bl (n + m) damping c =
  bind (iterations parameters bl n damping)
       (fun _ => iterations parameters bl m
                   (Nat.iter n (fun d => fmul d (fdec 50)) damping)) c.
Proof.
  revert damping c. induction n as [|n IH]; intros damping c.
  - reflexivity.
  - cbn [Nat.add iterations]. unfold bind.
    destruct (iteration_body parameters bl (fmul damping (fdec 50)) c) as [[e|[]] c1];
      [reflexivity |].
    rewrite IH. unfold bind. now rewrite Nat.iter_succ_r.
Qed.

(** ** The order of the bonds *)

Lemma for_each_app {S A} (l l' : list A) (body : A -> M S unit) (s : S) :
  for_each (l ++ l') body s = bind (for_each l body) (fun _ => for_each l' body) s.
Proof.
  revert s. induction l as [|x l IH]; intros s; [reflexivity |].
  cbn [app for_each]. unfold bind in *.
  destruct (body x s) as [[e|[]] s1]; [reflexivity | apply IH].
Qed.

Lemma reordered_permutation (bl bl' : BondList) : reordered bl bl' -> bl ≡ₚ bl'.
Proof.
  induction 1 as [bl|a b bl _|a bl bl' _ IH|bl bl' bl'' _ IH1 _ IH2].
  - reflexivity.
  - apply Permutation_swap.
  - now apply Permutation_skip.
  - now rewrite IH1.
Qed.

Lemma get_bonds_permutation (bl bl' : BondList) (i : nat) :
  bl ≡ₚ bl' -> length (get_bonds bl i) = length (get_bonds bl' i).
Proof.
  intros Hperm. unfold get_bonds. apply Permutation_length.
  now apply Permutation_flat_map.
Qed.

Lemma valences_permutation (n : nat) (bl bl' : BondList) :
  bl ≡ₚ bl' -> valences n bl = valences n bl'.
Proof.
  intros Hperm. unfold valences. apply map_ext. intros i.
  now apply get_bonds_permutation.
Qed.

Section Reordering.
Context {F : Type} `{AF : Arith F}.

Implicit Types (c en pos : list F).

(** The effect of a bond that is processed without exception: a write at
    each of its ends. *)
Lemma bond_step_writes en pos damping i j t :
  i < length en -> j < length en ->
  exists f g, forall c,
    bond_step en pos damping (i, j, t) c = (inr tt, alter g j (alter f i c)).
Proof.
  intros Hi Hj.
  destruct (fisnan (item en i)) eqn:Ni, (fisnan (item en j)) eqn:Nj.
  - exists (fun _ => fnan), (fun _ => fnan). intros c.
    rewrite (bond_step_both_nan en pos damping i j t c Hi Hj Ni Nj).
    now rewrite !list_insert_alter.
  - exists (fun _ => fnan), (fun q => q). intros c.
    rewrite (bond_step_left_nan en pos damping i j t c Hi Hj Ni Nj).
    rewrite list_insert_alter. f_equal. symmetry. now apply list_alter_id.
  - exists (fun q => q), (fun _ => fnan). intros c.
    rewrite (bond_step_right_nan en pos damping i j t c Hi Hj Ni Nj).
    rewrite list_insert_alter. do 2 f_equal. symmetry. now apply list_alter_id.
  - eexists. eexists. intros c.
    exact (bond_step_transfer en pos damping i j t c Hi Hj Ni Nj).
Qed.

(** Two bonds that share no atom write different entries. *)
Lemma bond_steps_commute en pos damping a b c :
  bonds_in_range (length en) [a; b] -> apart a b ->
  for_each [a; b] (bond_step en pos damping) c
  = for_each [b; a] (bond_step en pos damping) c.
Proof.
  intros Hr Hab. destruct a as [[i j] t], b as [[k l] u].
  apply Forall_cons in Hr as [[Hi Hj] Hr]. apply Forall_cons in Hr as [[Hk Hl] _].
  destruct Hab as (H1 & H2 & H3 & H4).
  destruct (bond_step_writes en pos damping i j t Hi Hj) as (f & g & Ea).
  destruct (bond_step_writes en pos damping k l u Hk Hl) as (f' & g' & Eb).
  cbn [for_each]. unfold bind, ret. rewrite (Ea c), (Eb c). cbv beta iota.
  rewrite (Eb (alter g j (alter f i c))), (Ea (alter g' l (alter f' k c))).
  f_equal.
  rewrite (list_alter_alter_ne f' g _ k j) by congruence.
  rewrite (list_alter_alter_ne f' f _ k i) by congruence.
  rewrite (list_alter_alter_ne f g' _ i l) by congruence.
  now rewrite (list_alter_alter_ne g g' _ j l) by congruence.
Qed.

Lemma bond_loop_reordered en pos damping bl bl' c :
  reordered bl bl' -> bonds_in_range (length en) bl ->
  for_each bl (bond_step en pos damping) c = for_each bl' (bond_step en pos damping) c.
Proof.
  intros H. revert c. induction H as [bl|a b bl Hab|a bl bl' H IH|bl bl' bl'' H1 IH1 H2 IH2];
    intros c Hr.
  - reflexivity.
  - apply Forall_cons in Hr as [Ha Hr]. apply Forall_cons in Hr as [Hb Hr].
    change (a :: b :: bl) with ([a; b] ++ bl). change (b :: a :: bl) with ([b; a] ++ bl).
    rewrite !for_each_app. unfold bind.
    now rewrite (bond_steps_commute en pos damping a b c
                   ltac:(repeat constructor; assumption) Hab).
  - apply Forall_cons in Hr as [_ Hr]. cbn [for_each]. unfold bind.
    destruct (bond_step en pos damping a c) as [[e|[]] c1]; [reflexivity | now apply IH].
  - rewrite IH1 by assumption. apply IH2.
    unfold bonds_in_range. now rewrite <- (reordered_permutation bl bl' H1).
Qed.

Lemma iterations_reordered (parameters : list (F * F * F)) (bl bl' : BondList)
    (n : nat) (damping : F) c :
  reordered bl bl' -> bonds_in_range (length parameters) bl ->
  iterations parameters bl n damping c = iterations parameters bl' n damping c.
Proof.
  intros H Hr. revert damping c. induction n as [|n IH]; intros damping c;
    [reflexivity |].
  cbn [iterations]. unfold bind.
  assert (E : iteration_body parameters bl (fmul damping (fdec 50)) c
              = iteration_body parameters bl' (fmul damping (fdec 50)) c).
  { unfold iteration_body, bind, get_state.
    destruct (length c =? length parameters) eqn:L; [| reflexivity]. simpl.
    apply Nat.eqb_eq in L. apply bond_loop_reordered; [assumption |].
    now rewrite en_values_length. }
  rewrite E.
  destruct (iteration_body parameters bl' (fmul damping (fdec 50)) c) as [[e|[]] c1];
    [reflexivity | apply IH].
Qed.

End Reordering.

(** X7: in any arithmetic, binary64 included, the order in which the bond
    list enumerates its bonds matters among the bonds of one atom only:
    two calls whose bond lists differ by exchanges of neighbouring bonds
    that share no atom have the same outcome and leave the same arrays and
    warnings.  (Every step takes the electronegativities of the charges it
    starts with, so the transfer of a bond does not depend on the order;
    the order in which the transfers of one atom are added to its charge
    does matter in binary64, where addition is rounded.) *)
Theorem bond_order_is_irrelevant {F : Type} `{AF : Arith F}
    (els : list string) (bl bl' : BondList) (n : nat) (w : @world F) :
  reordered bl bl' ->
  bonds_in_range (length els) bl ->
  partial_charges {| element := els; bonds := Some bl |} n w
  = partial_charges {| element := els; bonds := Some bl' |} n w.
Proof.
  intros Hre Hr.
  rewrite (partial_charges_run {| element := els; bonds := Some bl |} bl n w eq_refl).
  rewrite (partial_charges_run {| element := els; bonds := Some bl' |} bl' n w eq_refl).
  unfold world_after, parameters_warning, missing_of, parameters_of. simpl.
  rewrite <- (valences_permutation (length els) bl bl' (reordered_permutation _ _ Hre)).
  rewrite <- (iterations_reordered _ bl bl' n _ _ Hre); [reflexivity |].
  rewrite gather_length; [assumption | now rewrite valences_length].
Qed.

Lemma bond_order_is_irrelevant_witness :
  partial_charges (F:=float)
    {| element := ["H"; "F"; "H"; "H"]; bonds := Some [(0, 1, 1); (2, 3, 1)] |} 6
    (with_charges [0; 0; 1; 0]%float)
  = partial_charges
      {| element := ["H"; "F"; "H"; "H"]; bonds := Some [(2, 3, 1); (0, 1, 1)] |} 6
      (with_charges [0; 0; 1; 0]%float).
Proof.
  apply (bond_order_is_irrelevant ["H"; "F"; "H"; "H"]
           [(0, 1, 1); (2, 3, 1)] [(2, 3, 1); (0, 1, 1)]).
  - apply reordered_swap. simpl. lia.
  - in_range.
Defined.

(** ** Binary64: the orientation of a bond *)

(** The transfer of a bond of two electronegativities that differ changes
    sign with the orientation of the bond. *)
Lemma charge_transfer_swap (en pos : list float) (damping : float) (i j : nat) :
  PrimFloat.ltb (item en i) (item en j) = true
  \/ PrimFloat.ltb (item en j) (item en i) = true ->
  charge_transfer_of en pos damping j i
  = PrimFloat.opp (charge_transfer_of en pos damping i j).
Proof.
  intros H.
  assert (D : divisor_of en pos j i = divisor_of en pos i j).
  { unfold divisor_of. cbn [fgtb Binary64.arith].
    destruct H as [H | H]; rewrite H, (ltb_asym _ _ H); reflexivity. }
  unfold charge_transfer_of. rewrite D. cbn [fmul fdiv fsub Binary64.arith].
  apply Prim2SF_inj.
  rewrite FloatAxioms.opp_spec, !FloatAxioms.mul_spec, !FloatAxioms.div_spec,
    !FloatAxioms.sub_spec.
  rewrite <- Rounding.SFmul_opp, <- Rounding.SFdiv_opp. do 2 f_equal.
  destruct H as [H | H]; apply ltb_compare in H.
  - exact (Rounding.SFsub_opp _ _ (Rounding.Prim2SF_canonical _)
             (Rounding.Prim2SF_canonical _) H).
  - rewrite (Rounding.SFsub_opp _ _ (Rounding.Prim2SF_canonical _)
               (Rounding.Prim2SF_canonical _) H).
    now rewrite Rounding.SFopp_involutive.
Qed.

(** A bond in the other orientation has the same effect, when its
    electronegativities differ or one of them is NaN. *)
Lemma bond_step_swap (en pos : list float) (damping : float)
    (i j t : nat) (c : list float) :
  i < length en -> j < length en ->
  fisnan (item en i) = true \/ fisnan (item en j) = true
  \/ fgtb (item en j) (item en i) = true \/ fgtb (item en i) (item en j) = true ->
  bond_step en pos damping (j, i, t) c = bond_step en pos damping (i, j, t) c.
Proof.
  intros Hi Hj H.
  destruct (decide (i = j)) as [->|Hne]; [reflexivity |].
  destruct (fisnan (item en i)) eqn:Ni, (fisnan (item en j)) eqn:Nj.
  - rewrite (bond_step_both_nan en pos damping i j t c Hi Hj Ni Nj).
    rewrite (bond_step_both_nan en pos damping j i t c Hj Hi Nj Ni).
    f_equal. now apply list_insert_insert_ne.
  - rewrite (bond_step_left_nan en pos damping i j t c Hi Hj Ni Nj).
    now rewrite (bond_step_right_nan en pos damping j i t c Hj Hi Nj Ni).
  - rewrite (bond_step_right_nan en pos damping i j t c Hi Hj Ni Nj).
    now rewrite (bond_step_left_nan en pos damping j i t c Hj Hi Nj Ni).
  - destruct H as [H | [H | H]]; try discriminate.
    rewrite (bond_step_transfer en pos damping i j t c Hi Hj Ni Nj).
    rewrite (bond_step_transfer en pos damping j i t c Hj Hi Nj Ni).
    rewrite (charge_transfer_swap en pos damping i j) by exact H.
    f_equal. rewrite (list_alter_alter_ne _ _ c j i) by congruence.
    cbn [fadd fsub Binary64.arith].
    apply list_alter_ext; [intros q _; apply sub_of_opp |].
    apply list_alter_ext; [intros q _; apply add_of_opp | reflexivity].
Qed.

Lemma get_bonds_same_bond (bl bl' : BondList) (i : nat) :
  Forall2 same_bond bl bl' -> get_bonds bl' i = get_bonds bl i.
Proof.
  unfold get_bonds. induction 1 as [|[[a b] t] b' bl bl' Hb _ IH]; [reflexivity |].
  simpl. rewrite IH. f_equal.
  destruct Hb as [-> | ->]; [reflexivity |]. simpl.
  destruct (decide (a = i)) as [->|Ha], (decide (b = i)) as [->|Hb]; reflexivity.
Qed.

Lemma bond_loop_same_bonds (en pos : list float) (damping : float) (bl bl' : BondList)
    (c : list float) :
  Forall2 same_bond bl bl' -> bonds_in_range (length en) bl ->
  loop_passes (electronegativities_differ en pos damping) (bond_step en pos damping) bl c
  = true ->
  for_each bl (bond_step en pos damping) c = for_each bl' (bond_step en pos damping) c.
Proof.
  intros H. revert c. induction H as [|[[i j] t] b' bl bl' Hb _ IH]; intros c Hr Hok;
    [reflexivity |].
  apply Forall_cons in Hr as [[Hi Hj] Hr].
  cbn [loop_passes] in Hok. apply andb_true_iff in Hok as [Hd Hok].
  assert (E : bond_step en pos damping b' c = bond_step en pos damping (i, j, t) c).
  { destruct Hb as [-> | ->]; [reflexivity |]. simpl.
    apply (bond_step_swap en pos damping i j t c Hi Hj).
    cbn [fisnan fgtb Binary64.arith]. unfold electronegativities_differ in Hd.
    repeat (apply orb_true_iff in Hd as [Hd | Hd]); tauto. }
  cbn [for_each]. unfold bind. rewrite E.
  destruct (bond_step en pos damping (i, j, t) c) as [[e|[]] c1]; [reflexivity |].
  now apply IH.
Qed.

Lemma iterations_same_bonds (parameters : list (float * float * float))
    (bl bl' : BondList) (n : nat) (damping : float) (c : list float) :
  Forall2 same_bond bl bl' -> bonds_in_range (length parameters) bl ->
  run_passes electronegativities_differ parameters bl n damping c = true ->
  iterations parameters bl n damping c = iterations parameters bl' n damping c.
Proof.
  intros Hs Hr. revert damping c. induction n as [|n IH]; intros damping c Hok;
    [reflexivity |].
  cbn [run_passes] in Hok. cbv zeta in Hok. apply andb_true_iff in Hok as [H1 H2].
  cbn [iterations]. unfold bind.
  assert (E : iteration_body parameters bl (fmul damping (fdec 50)) c
              = iteration_body parameters bl' (fmul damping (fdec 50)) c).
  { unfold iteration_body, bind, get_state.
    destruct (length c =? length parameters) eqn:L; [| reflexivity]. simpl.
    apply Nat.eqb_eq in L. apply bond_loop_same_bonds; [assumption | | assumption].
    now rewrite en_values_length. }
  rewrite <- E.
  destruct (iteration_body parameters bl (fmul damping (fdec 50)) c) as [[e|[]] c1];
    [reflexivity | now apply IH].
Qed.

(** X8: in binary64, the orientation in which the bond list holds a bond
    does not matter as long as no bond meets two equal electronegativities
    ([no_ties]): two calls whose bonds differ only in which end comes
    first then have the same outcome and leave the same arrays and
    warnings.  The divisor is the ENplus of the less electronegative end
    in both orientations, the transfer changes sign, and adding the
    opposite is subtracting.  (With equal electronegativities the
    transfer is zero in both orientations, and the sign of a zero charge
    can depend on the orientation.) *)
Theorem bond_orientation_is_irrelevant (els : list string) (bl bl' : BondList)
    (n : nat) (w : @world float) :
  Forall2 same_bond bl bl' ->
  bonds_in_range (length els) bl ->
  no_ties {| element := els; bonds := Some bl |} bl n w = true ->
  partial_charges {| element := els; bonds := Some bl |} n w
  = partial_charges {| element := els; bonds := Some bl' |} n w.
Proof.
  intros Hsame Hr Hok.
  assert (Hv : valences (length els) bl' = valences (length els) bl).
  { unfold valences. apply map_ext. intros i. now rewrite (get_bonds_same_bond bl bl'). }
  rewrite (partial_charges_run {| element := els; bonds := Some bl |} bl n w eq_refl).
  rewrite (partial_charges_run {| element := els; bonds := Some bl' |} bl' n w eq_refl).
  unfold no_ties in Hok.
  unfold world_after, parameters_warning, missing_of, parameters_of in *. simpl in *.
  rewrite Hv.
  rewrite <- (iterations_same_bonds _ bl bl' n _ _ Hsame); [reflexivity | | assumption].
  rewrite gather_length; [assumption | now rewrite valences_length].
Qed.

Lemma bond_orientation_is_irrelevant_witness :
  partial_charges (F:=float)
    {| element := ["C"; "F"; "H"; "H"; "H"];
       bonds := Some [(0, 1, 1); (0, 2, 1); (0, 3, 1); (0, 4, 1)] |} 6
    (with_charges [1; 0; 0; 0; 0]%float)
  = partial_charges
      {| element := ["C"; "F"; "H"; "H"; "H"];
         bonds := Some [(1, 0, 1); (0, 2, 1); (3, 0, 1); (0, 4, 1)] |} 6
      (with_charges [1; 0; 0; 0; 0]%float).
Proof.
  apply (bond_orientation_is_irrelevant ["C"; "F"; "H"; "H"; "H"]
           [(0, 1, 1); (0, 2, 1); (0, 3, 1); (0, 4, 1)]
           [(1, 0, 1); (0, 2, 1); (3, 0, 1); (0, 4, 1)]).
  - constructor; [right; reflexivity |]. constructor; [left; reflexivity |].
    constructor; [right; reflexivity |]. constructor; [left; reflexivity |].
    constructor.
  - in_range.
  - vm_compute. reflexivity.
Defined.

(** Two hydrogen atoms of charge -0.0 have equal electronegativities;
    the call returns [0.0, -0.0] for the bond (0, 1) and [-0.0, 0.0] for
    the bond (1, 0). *)
Example equal_electronegativities :
  no_ties hydrogen_molecule [(0, 1, 1)] 1 (with_charges [-0; -0]%float) = false
  /\ outcome (partial_charges hydrogen_molecule 1 (with_charges [-0; -0]%float))
     = inr [0; -0]%float
  /\ outcome (partial_charges {| element := ["H"; "H"]; bonds := Some [(1, 0, 1)] |} 1
                (with_charges [-0; -0]%float))
     = inr [-0; 0]%float.
Proof. repeat split; vm_compute; reflexivity. Qed.

(** ** The table *)

(** X11: the pairs of element and number of binding partners that have
    parameters are these fifteen; every other atom, whatever its element,
    and every atom with five binding partners or more, gets the row of
    NaN. *)
Theorem parametrized_pairs (e : string) (v : nat) :
  is_Some (lookup_parameters e v) <->
  (e, v) ∈ [ ("H", 1); ("C", 4); ("C", 3); ("C", 2);
             ("N", 4); ("N", 3); ("N", 2); ("N", 1);
             ("O", 2); ("O", 1); ("S", 2); ("F", 1);
             ("Cl", 1); ("Br", 1); ("I", 1) ].
Proof.
  split.
  - intros [p Hp]. unfold lookup_parameters in Hp.
    destruct (dict_get EN_PARAMETERS e) as [d|] eqn:E; [| discriminate].
    apply dict_get_Some in E. apply dict_get_Some in Hp.
    unfold EN_PARAMETERS in E.
    repeat (apply elem_of_cons in E as [E | E];
            [injection E as -> ->;
             repeat (apply elem_of_cons in Hp as [Hp | Hp];
                     [injection Hp as -> _; apply list_elem_of_In; simpl;
                      repeat (first [left; reflexivity | right]) |]);
             inversion Hp |]).
    inversion E.
  - intros H.
    repeat (apply elem_of_cons in H as [H | H];
            [injection H as -> ->; eexists; reflexivity |]).
    inversion H.
Qed.

Lemma row_for_table_or_nan {F : Type} `{AF : Arith F} (e : string) (a : nat) :
  (exists p, p ∈ table_rows /\ row_for (F:=F) e a = row_of p)
  \/ row_for (F:=F) e a = nan_row.
Proof.
  unfold row_for. destruct (lookup_parameters e a) as [p|] eqn:L; [left | now right].
  exists p. split; [| reflexivity]. now apply lookup_parameters_row in L.
Qed.

(** ** Binary64: the divisor of a transfer *)

Lemma binary64_pos_en_value_bounds (p : Z * Z * Z) :
  p ∈ table_rows ->
  PrimFloat.leb (fdec 1800) (pos_en_value (F:=float) (row_of p)) = true
  /\ PrimFloat.leb (pos_en_value (F:=float) (row_of p)) (fdec 3200) = true.
Proof.
  intros Hp.
  assert (H : forallb (fun p => PrimFloat.leb (fdec 1800) (pos_en_value (F:=float) (row_of p))
                                && PrimFloat.leb (pos_en_value (F:=float) (row_of p))
                                     (fdec 3200)) table_rows = true)
    by (vm_compute; reflexivity).
  rewrite forallb_forall in H. apply list_elem_of_In in Hp.
  now apply andb_true_iff, H.
Qed.

(** X10: in binary64, whenever a call transfers charge over a bond, that
    is, whenever both electronegativities are not NaN, the divisor is the
    ENplus of an entry of the table and lies between 18 and 32: no
    transfer divides by zero, by NaN or by an infinity. *)
Theorem transfer_divisor_is_positive (atom_array : AtomArray) (bl : BondList)
    (c : list float) (i j : nat) :
  length c = length (element atom_array) ->
  i < length (element atom_array) -> j < length (element atom_array) ->
  fisnan (item (en_values (parameters_of atom_array bl) c) i) = false ->
  fisnan (item (en_values (parameters_of atom_array bl) c) j) = false ->
  PrimFloat.leb (fdec 1800)
    (divisor_of (en_values (parameters_of atom_array bl) c)
       (pos_en_values (parameters_of atom_array bl)) i j) = true
  /\ PrimFloat.leb
       (divisor_of (en_values (parameters_of atom_array bl) c)
          (pos_en_values (parameters_of atom_array bl)) i j) (fdec 3200) = true.
Proof.
  intros Hlen Hi Hj Ni Nj.
  assert (Hpos : forall k, k < length (element atom_array) ->
            fisnan (item (en_values (parameters_of atom_array bl) c) k) = false ->
            PrimFloat.leb (fdec 1800) (item (pos_en_values (parameters_of atom_array bl)) k)
            = true
            /\ PrimFloat.leb (item (pos_en_values (parameters_of atom_array bl)) k)
                 (fdec 3200) = true).
  { intros k Hk Nk.
    destruct (lookup_lt_is_Some_2 (element atom_array) k Hk) as [e He].
    destruct (lookup_lt_is_Some_2 c k) as [q Hq]; [lia |].
    pose proof (parameters_of_lookup (F:=float) atom_array bl k e He) as Hrow.
    rewrite (en_values_lookup _ c k _ q Hrow Hq) in Nk.
    unfold item, pos_en_values. rewrite list_lookup_fmap, Hrow. simpl.
    destruct (row_for_table_or_nan (F:=float) e (length (get_bonds bl k)))
      as [(p & Hp & ->) | E].
    - now apply binary64_pos_en_value_bounds.
    - rewrite E, (en_value_nan_row (F:=float)) in Nk. discriminate. }
  unfold divisor_of.
  destruct (fgtb _ _); [now apply Hpos | now apply Hpos].
Qed.

Lemma transfer_divisor_is_positive_witness :
  PrimFloat.leb (fdec 1800)
    (divisor_of
       (en_values (parameters_of fluoromethane
                     [(0, 1, 1); (0, 2, 1); (0, 3, 1); (0, 4, 1)]) [0; 0; 0; 0; 0]%float)
       (pos_en_values (parameters_of fluoromethane
                         [(0, 1, 1); (0, 2, 1); (0, 3, 1); (0, 4, 1)])) 0 2) = true
  /\ PrimFloat.leb
       (divisor_of
          (en_values (parameters_of fluoromethane
                        [(0, 1, 1); (0, 2, 1); (0, 3, 1); (0, 4, 1)]) [0; 0; 0; 0; 0]%float)
          (pos_en_values (parameters_of fluoromethane
                            [(0, 1, 1); (0, 2, 1); (0, 3, 1); (0, 4, 1)])) 0 2)
       (fdec 3200) = true.
Proof.
  apply (transfer_divisor_is_positive fluoromethane
           [(0, 1, 1); (0, 2, 1); (0, 3, 1); (0, 4, 1)] [0; 0; 0; 0; 0]%float 0 2).
  - reflexivity.
  - simpl. lia.
  - simpl. lia.
  - vm_compute. reflexivity.
  - vm_compute. reflexivity.
Defined.

(** ** Binary64: the direction of a transfer *)

Lemma damping_at_signed (k : nat) : signed false (Prim2SF (damping_at (F:=float) k)).
Proof.
  induction k as [|k IH].
  - vm_compute. reflexivity.
  - change (damping_at (F:=float) (S k))
      with (PrimFloat.mul (damping_at (F:=float) k) (fdec 50)).
    rewrite FloatAxioms.mul_spec. apply Rounding.SFmul_signed; [assumption |].
    vm_compute. reflexivity.
Qed.

Lemma divisor_signed (s : float) :
  PrimFloat.leb (fdec 1800) s = true ->
  signed false (Prim2SF s) /\ forall z, Prim2SF s <> SpecFloat.S754_zero z.
Proof.
  rewrite FloatAxioms.leb_spec.
  replace (Prim2SF (fdec 1800)) with (SpecFloat.S754_finite false 5066549580791808 (-48))
    by (vm_compute; reflexivity).
  destruct (Prim2SF s) as [z|z| |z m e]; simpl; try discriminate.
  - destruct z; [discriminate |]. now split.
  - destruct z; [discriminate |]. now split.
Qed.

Lemma signed_not_less (x : float) :
  signed false (Prim2SF x) -> PrimFloat.ltb x 0 = false.
Proof.
  rewrite FloatAxioms.ltb_spec.
  replace (Prim2SF 0) with (SpecFloat.S754_zero false) by reflexivity.
  destruct (Prim2SF x) as [z|z| |z m e]; simpl; trivial; now intros ->.
Qed.

Lemma signed_not_greater (x : float) :
  signed true (Prim2SF x) -> PrimFloat.ltb 0 x = false.
Proof.
  rewrite FloatAxioms.ltb_spec.
  replace (Prim2SF 0) with (SpecFloat.S754_zero false) by reflexivity.
  destruct (Prim2SF x) as [z|z| |z m e]; simpl; trivial; now intros ->.
Qed.

Lemma binary64_divisor_bounds (atom_array : AtomArray) (bl : BondList)
    (c : list float) (k : nat) :
  length c = length (element atom_array) -> k < length (element atom_array) ->
  fisnan (item (en_values (parameters_of atom_array bl) c) k) = false ->
  PrimFloat.leb (fdec 1800) (item (pos_en_values (parameters_of atom_array bl)) k) = true.
Proof.
  intros Hlen Hk Nk.
  destruct (lookup_lt_is_Some_2 (element atom_array) k Hk) as [e He].
  destruct (lookup_lt_is_Some_2 c k) as [q Hq]; [lia |].
  pose proof (parameters_of_lookup (F:=float) atom_array bl k e He) as Hrow.
  rewrite (en_values_lookup _ c k _ q Hrow Hq) in Nk.
  unfold item, pos_en_values. rewrite list_lookup_fmap, Hrow. simpl.
  destruct (row_for_table_or_nan (F:=float) e (length (get_bonds bl k)))
    as [(p & Hp & ->) | E].
  - now apply binary64_pos_en_value_bounds.
  - rewrite E, (en_value_nan_row (F:=float)) in Nk. discriminate.
Qed.

(** X9: in binary64, charge never flows towards the less electronegative
    end of a bond.  For a bond (i, j) whose electronegativities are not
    NaN, in iteration step k: when EN(j) > EN(i), the transfer, which is
    added to the charge of i and subtracted from the charge of j, is not
    negative; when EN(i) > EN(j), it is not positive.  (It may be zero:
    from step 1075 on the damping factor is zero.  It may be NaN: an
    infinite difference times a damping factor of zero.) *)
Theorem charge_flows_to_the_more_electronegative_atom (atom_array : AtomArray)
    (bl : BondList) (c : list float) (i j k : nat) :
  length c = length (element atom_array) ->
  i < length (element atom_array) -> j < length (element atom_array) ->
  fisnan (item (en_values (parameters_of atom_array bl) c) i) = false ->
  fisnan (item (en_values (parameters_of atom_array bl) c) j) = false ->
  (fgtb (item (en_values (parameters_of atom_array bl) c) j)
        (item (en_values (parameters_of atom_array bl) c) i) = true ->
   PrimFloat.ltb
     (charge_transfer_of (en_values (parameters_of atom_array bl) c)
        (pos_en_values (parameters_of atom_array bl)) (damping_at k) i j) 0 = false)
  /\ (fgtb (item (en_values (parameters_of atom_array bl) c) i)
           (item (en_values (parameters_of atom_array bl) c) j) = true ->
      PrimFloat.ltb 0
        (charge_transfer_of (en_values (parameters_of atom_array bl) c)
           (pos_en_values (parameters_of atom_array bl)) (damping_at k) i j) = false).
Proof.
  intros Hlen Hi Hj Ni Nj.
  set (en := en_values (parameters_of atom_array bl) c) in *.
  set (pos := pos_en_values (parameters_of atom_array bl)) in *.
  assert (Hs : signed false (Prim2SF (divisor_of en pos i j))
               /\ forall z, Prim2SF (divisor_of en pos i j) <> SpecFloat.S754_zero z).
  { apply divisor_signed. unfold divisor_of.
    destruct (fgtb (item en j) (item en i));
      now apply (binary64_divisor_bounds atom_array bl c). }
  destruct Hs as [Hs Hz].
  unfold charge_transfer_of. cbn [fmul fdiv fsub fgtb Binary64.arith].
  split; intros H; apply ltb_compare in H;
    destruct (Rounding.SFsub_signed _ _ (Rounding.Prim2SF_canonical _)
                (Rounding.Prim2SF_canonical _) H) as [S1 S2].
  - apply signed_not_less.
    rewrite FloatAxioms.mul_spec, FloatAxioms.div_spec, FloatAxioms.sub_spec.
    apply Rounding.SFmul_signed; [| apply damping_at_signed].
    now apply Rounding.SFdiv_signed.
  - apply signed_not_greater.
    rewrite FloatAxioms.mul_spec, FloatAxioms.div_spec, FloatAxioms.sub_spec.
    apply Rounding.SFmul_signed; [| apply damping_at_signed].
    now apply Rounding.SFdiv_signed.
Qed.

Lemma charge_flows_to_the_more_electronegative_atom_witness :
  PrimFloat.ltb
    (charge_transfer_of
       (en_values (parameters_of fluoromethane [(0, 1, 1); (0, 2, 1); (0, 3, 1); (0, 4, 1)])
          [0; 0; 0; 0; 0]%float)
       (pos_en_values (parameters_of fluoromethane
                         [(0, 1, 1); (0, 2, 1); (0, 3, 1); (0, 4, 1)]))
       (damping_at 1) 0 1) 0 = false.
Proof.
  apply (proj1 (charge_flows_to_the_more_electronegative_atom fluoromethane
           [(0, 1, 1); (0, 2, 1); (0, 3, 1); (0, 4, 1)] [0; 0; 0; 0; 0]%float 0 1 1
           eq_refl ltac:(simpl; lia) ltac:(simpl; lia)
           ltac:(vm_compute; reflexivity) ltac:(vm_compute; reflexivity))).
  vm_compute. reflexivity.
Defined.

(** ** A NaN charge stays NaN *)

Section NanPersistence.
Context {F : Type} {AF : Arith F} {NL : NanLaws F}.
Hypothesis fisnan_sub_l : forall x y : F, fisnan x = true -> fisnan (fsub x y) = true.

Implicit Types (c en pos : list F).

Lemma nan_at_alter_add c i k (x : F) :
  nan_at c i -> nan_at (alter (fun q => fadd q x) k c) i.
Proof.
  intros (q & Hq & Nq). destruct (decide (k = i)) as [->|Hne].
  - exists (fadd q x). rewrite list_lookup_alter_eq, Hq. split; [reflexivity |].
    now apply fisnan_add_l.
  - exists q. now rewrite list_lookup_alter_ne.
Qed.

Lemma nan_at_alter_sub c i k (x : F) :
  nan_at c i -> nan_at (alter (fun q => fsub q x) k c) i.
Proof.
  intros (q & Hq & Nq). destruct (decide (k = i)) as [->|Hne].
  - exists (fsub q x). rewrite list_lookup_alter_eq, Hq. split; [reflexivity |].
    now apply fisnan_sub_l.
  - exists q. now rewrite list_lookup_alter_ne.
Qed.

Lemma bond_step_keeps_nan en pos damping a b t c i :
  a < length en -> b < length en -> nan_at c i ->
  exists c', bond_step en pos damping (a, b, t) c = (inr tt, c')
    /\ length c' = length c /\ nan_at c' i.
Proof.
  intros Ha Hb Hn.
  destruct (fisnan (item en a)) eqn:Na, (fisnan (item en b)) eqn:Nb.
  - eexists. split; [now apply bond_step_both_nan |].
    split; [now rewrite !length_insert |]. now apply nan_at_insert, nan_at_insert.
  - eexists. split; [now apply bond_step_left_nan |].
    split; [now rewrite length_insert |]. now apply nan_at_insert.
  - eexists. split; [now apply bond_step_right_nan |].
    split; [now rewrite length_insert |]. now apply nan_at_insert.
  - eexists. split; [now apply bond_step_transfer |].
    split; [now rewrite !length_alter |]. now apply nan_at_alter_sub, nan_at_alter_add.
Qed.

Lemma relaxation_keeps_nan (parameters : list (F * F * F)) (bl : BondList)
    (n : nat) (damping : F) c0 i :
  bonds_in_range (length parameters) bl -> length c0 = length parameters ->
  nan_at c0 i ->
  exists c, iterations parameters bl n damping c0 = (inr tt, c) /\ nan_at c i.
Proof.
  intros Hr Hlen Hn.
  destruct (iterations_inv (fun c => length c = length parameters /\ nan_at c i)
              parameters bl) with (n := n) (damping := damping) (c := c0)
    as (c & E & _ & N); [| now split | now exists c].
  clear damping. intros damping c [Hc Hi].
  rewrite iteration_body_aligned by assumption.
  apply (for_each_inv (fun c => length c = length parameters /\ nan_at c i));
    [| now split].
  intros [[a b] t] s Hin [Hs Hsi].
  unfold bonds_in_range in Hr. rewrite Forall_forall in Hr.
  destruct (Hr _ Hin) as [Ha Hb].
  destruct (bond_step_keeps_nan (en_values parameters c) (pos_en_values parameters)
              damping a b t s i) as (s' & E & L & N); [| | assumption |].
  1-2: now rewrite en_values_length.
  exists s'. split; [assumption |]. split; [congruence | assumption].
Qed.

End NanPersistence.

Lemma binary64_is_nan_sub_l (x y : float) :
  PrimFloat.is_nan x = true -> PrimFloat.is_nan (PrimFloat.sub x y) = true.
Proof.
  rewrite !Binary64Facts.is_nan_spec, FloatAxioms.sub_spec. intros ->. reflexivity.
Qed.

(** X13: in binary64, on well-formed input, an initial charge that is NaN
    is returned as NaN, whether the atom has parameters or not and
    whatever its bonds are: no transfer repairs a NaN. *)
Theorem nan_charges_stay_nan (atom_array : AtomArray) (bl : BondList) (n : nat)
    (w : @world float) (i : nat) :
  bonds atom_array = Some bl ->
  bonds_in_range (length (element atom_array)) bl ->
  length (initial_charges (length (element atom_array)) w) = length (element atom_array) ->
  nan_at (initial_charges (length (element atom_array)) w) i ->
  exists c w', partial_charges atom_array n w = (inr c, w') /\ nan_at c i.
Proof.
  intros Hb Hr Hlen Hn.
  destruct (relaxation_keeps_nan (F:=float) (AF:=Binary64.arith) binary64_is_nan_sub_l
              (parameters_of atom_array bl) bl n
              (fdec 100) (initial_charges (length (element atom_array)) w) i)
    as (c & E & N); try assumption.
  1-2: now rewrite parameters_of_length.
  destruct (partial_charges_returns atom_array bl n w c Hb E) as (w' & Ew & _).
  now exists c, w'.
Qed.

Lemma nan_charges_stay_nan_witness :
  exists c w',
    partial_charges (F:=float) hydrogen_molecule 6
      (with_charges [PrimFloat.nan; 0%float]) = (inr c, w')
    /\ nan_at c 0.
Proof.
  apply (nan_charges_stay_nan hydrogen_molecule [(0, 1, 1)] 6
           (with_charges [PrimFloat.nan; 0%float]) 0).
  - reflexivity.
  - in_range.
  - reflexivity.
  - exists PrimFloat.nan. split; reflexivity.
Defined.

(** ** An atom among atoms without parameters *)

Section Shield.
Context {F : Type} {AF : Arith F} {NL : NanLaws F}.

Variable parameters : list (F * F * F).
Variable bl : BondList.
Variables (y : nat) (r : F * F * F) (x : F).
Hypothesis in_range : bonds_in_range (length parameters) bl.
Hypothesis row_y : parameters !! y = Some r.
Hypothesis number_y : fisnan (en_value r x) = false.
Hypothesis neighbours :
  forall a b tag, (a, b, tag) ∈ bl ->
    (a = y -> parameters !! b = Some nan_row)
    /\ (b = y -> parameters !! a = Some nan_row).

(** The charges are aligned and the charge of [y] is still [x]. *)
Local Abbreviation kept := (fun c : list F => length c = length parameters
                                              /\ c !! y = Some x).

Lemma en_of_nan_row (c : list F) (k : nat) :
  length c = length parameters -> parameters !! k = Some nan_row ->
  fisnan (item (en_values parameters c) k) = true.
Proof.
  intros Hc Hk.
  destruct (lookup_lt_is_Some_2 c k) as [q Hq].
  { rewrite Hc. now apply lookup_lt_Some in Hk. }
  rewrite (en_values_lookup parameters c k nan_row q Hk Hq).
  apply en_value_nan_row.
Qed.

Lemma bond_step_shielded (c : list F) (damping : F) a b tag (s : list F) :
  kept c -> kept s -> (a, b, tag) ∈ bl ->
  exists s', bond_step (en_values parameters c) (pos_en_values parameters) damping
               (a, b, tag) s = (inr tt, s')
    /\ kept s'.
Proof.
  intros [Hc Hcy] [Hs Hsy] Hin.
  pose proof (en_values_length parameters c Hc) as Len.
  unfold bonds_in_range in in_range. rewrite Forall_forall in in_range.
  destruct (in_range _ Hin) as [Ha Hb].
  assert (Ny : fisnan (item (en_values parameters c) y) = false)
    by now rewrite (en_values_lookup parameters c y r x row_y Hcy).
  destruct (neighbours a b tag Hin) as [Hay Hby].
  destruct (decide (a = y)) as [->|Hna].
  - pose proof (en_of_nan_row c b Hc (Hay eq_refl)) as Nb.
    assert (Hne : b <> y) by (intros ->; congruence).
    eexists. split; [apply bond_step_right_nan; (lia || assumption) |].
    split; [now rewrite length_insert |]. now rewrite list_lookup_insert_ne.
  - destruct (decide (b = y)) as [->|Hnb].
    + pose proof (en_of_nan_row c a Hc (Hby eq_refl)) as Na.
      eexists. split; [apply bond_step_left_nan; (lia || assumption) |].
      split; [now rewrite length_insert |]. now rewrite list_lookup_insert_ne.
    + destruct (bond_step_frame (en_values parameters c) (pos_en_values parameters)
                  damping a b tag s) as (s' & E & L & K); [lia | lia |].
      exists s'. split; [assumption |]. split; [congruence |].
      rewrite K by congruence. assumption.
Qed.

Lemma relaxation_shielded (n : nat) (damping : F) (c0 : list F) :
  kept c0 ->
  exists c, iterations parameters bl n damping c0 = (inr tt, c) /\ kept c.
Proof.
  intros H0. apply (iterations_inv kept); [| assumption].
  clear damping. intros damping c Hc.
  rewrite iteration_body_aligned by apply Hc.
  apply (for_each_inv kept); [| assumption].
  intros [[a b] tag] s Hin Hs. now apply bond_step_shielded.
Qed.

End Shield.

(** X12: in any arithmetic, binary64 included, on well-formed input, an
    atom whose electronegativity for its initial charge is not NaN, and
    whose bonds all lead to atoms without entry of the table, has an entry
    itself and is returned with its initial charge: the poisoning of its
    neighbours does not reach it, and it exchanges no charge with them.
    (In binary64 the electronegativity of an atom that has an entry can be
    NaN although its charge is finite, by overflow; the atom is then
    poisoned as its neighbours are.) *)
Theorem atom_among_unparametrized_keeps_charge {F : Type} {AF : Arith F} {NL : NanLaws F}
    (atom_array : AtomArray) (bl : BondList) (n : nat) (w : @world F)
    (y : nat) (e : string) (x : F) :
  bonds atom_array = Some bl ->
  bonds_in_range (length (element atom_array)) bl ->
  length (initial_charges (length (element atom_array)) w) = length (element atom_array) ->
  element atom_array !! y = Some e ->
  initial_charges (length (element atom_array)) w !! y = Some x ->
  fisnan (en_value (row_for e (length (get_bonds bl y))) x) = false ->
  (forall a b tag, (a, b, tag) ∈ bl ->
     (a = y -> exists e', unparametrized atom_array bl b e')
     /\ (b = y -> exists e', unparametrized atom_array bl a e')) ->
  parametrized atom_array bl y
  /\ exists c w', partial_charges atom_array n w = (inr c, w') /\ c !! y = Some x.
Proof.
  intros Hb Hr Hlen He Hx Hen Hnb. split.
  - exists e. split; [assumption |].
    destruct (lookup_parameters e (length (get_bonds bl y))) as [p|] eqn:L; [eauto |].
    unfold row_for in Hen. rewrite L, en_value_nan_row in Hen. discriminate.
  - assert (Hnan : forall k e', unparametrized atom_array bl k e' ->
              parameters_of (F:=F) atom_array bl !! k = Some nan_row).
    { intros k e' [Hk L]. rewrite (parameters_of_lookup atom_array bl k e' Hk).
      unfold row_for. now rewrite L. }
    destruct (relaxation_shielded (parameters_of atom_array bl) bl y
                (row_for e (length (get_bonds bl y))) x)
      with (n := n) (damping := fdec (F:=F) 100)
           (c0 := initial_charges (length (element atom_array)) w)
      as (c & E & _ & Hc).
    + now rewrite parameters_of_length.
    + now apply parameters_of_lookup.
    + assumption.
    + intros a b tag Hin. destruct (Hnb a b tag Hin) as [H1 H2]. split.
      * intros Ha. destruct (H1 Ha) as [e' He']. now apply (Hnan b e').
      * intros Hb'. destruct (H2 Hb') as [e' He']. now apply (Hnan a e').
    + split; [now rewrite parameters_of_length | assumption].
    + destruct (partial_charges_returns atom_array bl n w c Hb E) as (w' & Ew & _).
      now exists c, w'.
Qed.

Lemma atom_among_unparametrized_keeps_charge_witness :
  parametrized helium_hydride [(0, 1, 1)] 1
  /\ exists c w',
       partial_charges (F:=float) helium_hydride 6 (with_charges [0; 1]%float) = (inr c, w')
       /\ c !! 1 = Some 1%float.
Proof.
  apply (atom_among_unparametrized_keeps_charge helium_hydride [(0, 1, 1)] 6
           (with_charges [0; 1]%float) 1 "H" 1%float).
  - reflexivity.
  - in_range.
  - reflexivity.
  - reflexivity.
  - reflexivity.
  - vm_compute. reflexivity.
  - intros a b tag Hin. apply list_elem_of_singleton in Hin. injection Hin as -> -> ->.
    split; [discriminate |]. intros _. exists "He". split; reflexivity.
Defined.

(** ** Renumbering the atoms *)

(** Two loops whose bodies return and keep a relation between their
    states return related states. *)
Lemma for_each_related {S A B} (R : S -> S -> Prop) (P : A -> Prop) (g : A -> B)
    (body : A -> M S unit) (body' : B -> M S unit) (l : list A) :
  (forall x s s', P x -> R s s' ->
     exists s1 s1', body x s = (inr tt, s1) /\ body' (g x) s' = (inr tt, s1')
       /\ R s1 s1') ->
  Forall P l ->
  forall s s', R s s' ->
    exists s1 s1', for_each l body s = (inr tt, s1)
      /\ for_each (map g l) body' s' = (inr tt, s1') /\ R s1 s1'.
Proof.
  intros Hbody HP. induction HP as [|x l Hx HP IH]; intros s s' HR.
  - exists s, s'. now repeat split.
  - destruct (Hbody x s s' Hx HR) as (s1 & s1' & E & E' & HR1).
    destruct (IH s1 s1' HR1) as (s2 & s2' & E2 & E2' & HR2).
    exists s2, s2'. cbn [for_each map]. unfold bind. rewrite E, E'. now repeat split.
Qed.

Section Renumbering.
Context {F : Type} `{AF : Arith F}.
Variables (n : nat) (sigma tau : nat -> nat).
Hypothesis Hren : renumbering n sigma tau.

Lemma renumbered_lookup {A} (l l' : list A) (i : nat) :
  length l = n -> renumbered tau l l' -> i < n -> l' !! sigma i = l !! i.
Proof.
  intros Hl [_ Hk] Hi. destruct (Hren i Hi) as (Hs & _ & Hts & _).
  rewrite Hk by lia. now rewrite Hts.
Qed.

Lemma renumbered_item (l l' : list F) (i : nat) :
  length l = n -> renumbered tau l l' -> i < n -> item l' (sigma i) = item l i.
Proof. intros Hl HR Hi. unfold item. now rewrite (renumbered_lookup l l' i). Qed.

Lemma renumbered_alter (f : F -> F) (c c' : list F) (i : nat) :
  length c = n -> renumbered tau c c' -> i < n ->
  renumbered tau (alter f i c) (alter f (sigma i) c').
Proof.
  intros Hl [Hlen Hk] Hi. split; [now rewrite !length_alter |].
  intros k Hkn. rewrite length_alter in Hkn.
  destruct (Hren i Hi) as (_ & _ & Hts & _).
  destruct (Hren k ltac:(lia)) as (_ & _ & _ & Hst).
  destruct (decide (sigma i = k)) as [<-|Hne].
  - rewrite Hts, !list_lookup_alter_eq, Hk by lia. now rewrite Hts.
  - rewrite !list_lookup_alter_ne; [now apply Hk | | assumption].
    intros E. rewrite E in Hne. contradiction.
Qed.

Lemma renumbered_insert (x : F) (c c' : list F) (i : nat) :
  length c = n -> renumbered tau c c' -> i < n ->
  renumbered tau (<[i := x]> c) (<[sigma i := x]> c').
Proof. intros. rewrite !list_insert_alter. now apply renumbered_alter. Qed.

Lemma renumbered_en_values (parameters parameters' : list (F * F * F)) (c c' : list F) :
  length parameters = n -> length c = n ->
  renumbered tau parameters parameters' -> renumbered tau c c' ->
  renumbered tau (en_values parameters c) (en_values parameters' c').
Proof.
  intros Hp Hc [Lp Kp] [Lc Kc]. unfold en_values. split.
  - rewrite !length_zip_with. lia.
  - intros k Hk. rewrite length_zip_with in Hk.
    rewrite !lookup_zip_with, Kp, Kc by lia. reflexivity.
Qed.

Lemma renumbered_pos_en_values (parameters parameters' : list (F * F * F)) :
  renumbered tau parameters parameters' ->
  renumbered tau (pos_en_values parameters) (pos_en_values parameters').
Proof.
  intros [Lp Kp]. unfold pos_en_values. split; [now rewrite !length_map |].
  intros k Hk. rewrite length_map in Hk. now rewrite !list_lookup_fmap, Kp.
Qed.

Lemma bond_step_renumbered (en en' pos pos' : list F) (damping : F) (i j t : nat)
    (c c' : list F) :
  length en = n -> length pos = n -> length c = n ->
  renumbered tau en en' -> renumbered tau pos pos' -> renumbered tau c c' ->
  i < n -> j < n ->
  exists c1 c1',
    bond_step en pos damping (i, j, t) c = (inr tt, c1)
    /\ bond_step en' pos' damping (sigma i, sigma j, t) c' = (inr tt, c1')
    /\ length c1 = n /\ renumbered tau c1 c1'.
Proof.
  intros Len Lpos Lc Ren Rpos Rc Hi Hj.
  destruct (Hren i Hi) as (Hsi & _). destruct (Hren j Hj) as (Hsj & _).
  assert (Len' : length en' = n) by (destruct Ren; lia).
  assert (Ei : item en' (sigma i) = item en i) by now apply renumbered_item.
  assert (Ej : item en' (sigma j) = item en j) by now apply renumbered_item.
  assert (Pi : item pos' (sigma i) = item pos i) by now apply renumbered_item.
  assert (Pj : item pos' (sigma j) = item pos j) by now apply renumbered_item.
  assert (Ct : charge_transfer_of en' pos' damping (sigma i) (sigma j)
               = charge_transfer_of en pos damping i j).
  { unfold charge_transfer_of, divisor_of. now rewrite Ei, Ej, Pi, Pj. }
  destruct (fisnan (item en i)) eqn:Ni, (fisnan (item en j)) eqn:Nj.
  - do 2 eexists. split; [apply bond_step_both_nan; (lia || assumption) |].
    split; [apply bond_step_both_nan; (lia || congruence) |].
    split; [now rewrite !length_insert |].
    apply renumbered_insert; [now rewrite length_insert | | assumption].
    now apply renumbered_insert.
  - do 2 eexists. split; [apply bond_step_left_nan; (lia || assumption) |].
    split; [apply bond_step_left_nan; (lia || congruence) |].
    split; [now rewrite length_insert |]. now apply renumbered_insert.
  - do 2 eexists. split; [apply bond_step_right_nan; (lia || assumption) |].
    split; [apply bond_step_right_nan; (lia || congruence) |].
    split; [now rewrite length_insert |]. now apply renumbered_insert.
  - do 2 eexists. split; [apply bond_step_transfer; (lia || assumption) |].
    split; [apply bond_step_transfer; (lia || congruence) |].
    split; [now rewrite !length_alter |]. rewrite Ct.
    apply renumbered_alter; [now rewrite length_alter | | assumption].
    now apply renumbered_alter.
Qed.

Lemma iterations_renumbered (parameters parameters' : list (F * F * F)) (bl : BondList)
    (steps : nat) (damping : F) (c c' : list F) :
  length parameters = n -> length c = n -> bonds_in_range n bl ->
  renumbered tau parameters parameters' -> renumbered tau c c' ->
  exists c1 c1',
    iterations parameters bl steps damping c = (inr tt, c1)
    /\ iterations parameters' (map (renumber_bond sigma) bl) steps damping c' = (inr tt, c1')
    /\ length c1 = n /\ renumbered tau c1 c1'.
Proof.
  intros Lp Lc Hr Rp. revert damping c c' Lc.
  induction steps as [|steps IH]; intros damping c c' Lc Rc.
  - exists c, c'. split; [reflexivity |]. split; [reflexivity |]. now split.
  - cbn [iterations]. unfold bind.
    assert (Lp' : length parameters' = n) by (destruct Rp; lia).
    assert (Lc' : length c' = n) by (destruct Rc; lia).
    rewrite !iteration_body_aligned by lia.
    destruct (for_each_related
                (fun s s' => length s = n /\ renumbered tau s s')
                (fun '(i, j, _) => i < n /\ j < n) (renumber_bond sigma)
                (bond_step (en_values parameters c) (pos_en_values parameters)
                   (fmul damping (fdec 50)))
                (bond_step (en_values parameters' c') (pos_en_values parameters')
                   (fmul damping (fdec 50))) bl)
      with (s := c) (s' := c') as (c1 & c1' & E & E' & L1 & R1).
    + intros [[i j] t] s s' [Hi Hj] [Ls Rs].
      destruct (bond_step_renumbered (en_values parameters c) (en_values parameters' c')
                  (pos_en_values parameters) (pos_en_values parameters')
                  (fmul damping (fdec 50)) i j t s s') as (s1 & s1' & H1 & H1' & L & R);
        try assumption.
      * rewrite en_values_length; lia.
      * unfold pos_en_values. now rewrite length_map.
      * now apply renumbered_en_values.
      * now apply renumbered_pos_en_values.
      * exists s1, s1'. split; [assumption |]. split; [assumption |]. now split.
    + exact Hr.
    + now split.
    + rewrite E, E'. now apply IH.
Qed.

End Renumbering.

Section RenumberedCall.
Context {F : Type} `{AF : Arith F}.
Variables (n : nat) (sigma tau : nat -> nat).
Hypothesis Hren : renumbering n sigma tau.

Lemma get_bonds_renumbered (bl : BondList) (i : nat) :
  bonds_in_range n bl -> i < n ->
  length (get_bonds (map (renumber_bond sigma) bl) (sigma i)) = length (get_bonds bl i).
Proof.
  intros Hr Hi. unfold get_bonds.
  assert (Hinj : forall a, a < n -> sigma a = sigma i -> a = i).
  { intros a Ha E. destruct (Hren a Ha) as (_ & _ & <- & _).
    destruct (Hren i Hi) as (_ & _ & <- & _). now rewrite E. }
  induction Hr as [|[[a b] t] bl [Ha Hb] Hr IH]; [reflexivity |].
  cbn [map flat_map renumber_bond]. rewrite !length_app, IH. f_equal.
  destruct (decide (a = i)) as [->|Hna].
  - now rewrite decide_True.
  - rewrite decide_False by (intros E; now apply Hna, Hinj).
    destruct (decide (b = i)) as [->|Hnb].
    + now rewrite decide_True.
    + now rewrite decide_False by (intros E; now apply Hnb, Hinj).
Qed.

Lemma parameters_of_renumbered (els els' : list string) (bl : BondList) :
  length els = n -> bonds_in_range n bl -> renumbered tau els els' ->
  renumbered tau
    (parameters_of (F:=F) {| element := els; bonds := Some bl |} bl)
    (parameters_of (F:=F) {| element := els';
                             bonds := Some (map (renumber_bond sigma) bl) |}
       (map (renumber_bond sigma) bl)).
Proof.
  intros Hl Hr [Le Ke]. split; [rewrite !parameters_of_length; simpl; lia |].
  intros k Hk. rewrite parameters_of_length in Hk. simpl in Hk.
  destruct (Hren k ltac:(lia)) as (_ & Htk & _ & Hst).
  destruct (lookup_lt_is_Some_2 els (tau k)) as [e He]; [lia |].
  rewrite (parameters_of_lookup {| element := els; bonds := Some bl |} bl (tau k) e He).
  rewrite (parameters_of_lookup _ _ k e) by (simpl; rewrite Ke by lia; exact He).
  do 2 f_equal. rewrite <- Hst at 1. now apply get_bonds_renumbered.
Qed.

End RenumberedCall.

(** X14: the result does not depend on how the atoms are numbered, in any
    arithmetic: when the elements, the bonds and the initial charges are
    renumbered by a permutation of the atoms, the bonds keeping their
    order, both calls return, and the second returns the charges of the
    first, renumbered in the same way. *)
Theorem renumbering_the_atoms {F : Type} `{AF : Arith F}
    (sigma tau : nat -> nat) (els els' : list string) (bl : BondList)
    (steps : nat) (w w2 : @world F) :
  renumbering (length els) sigma tau ->
  bonds_in_range (length els) bl ->
  renumbered tau els els' ->
  length (initial_charges (length els) w) = length els ->
  renumbered tau (initial_charges (length els) w) (initial_charges (length els') w2) ->
  exists c c',
    outcome (partial_charges {| element := els; bonds := Some bl |} steps w) = inr c
    /\ outcome (partial_charges
                  {| element := els'; bonds := Some (map (renumber_bond sigma) bl) |}
                  steps w2) = inr c'
    /\ renumbered tau c c'.
Proof.
  intros Hren Hr Re Lc Rc. unfold outcome.
  rewrite (partial_charges_run {| element := els; bonds := Some bl |} bl steps w eq_refl).
  rewrite (partial_charges_run
             {| element := els'; bonds := Some (map (renumber_bond sigma) bl) |}
             (map (renumber_bond sigma) bl) steps w2 eq_refl).
  cbn [element fst snd].
  destruct (iterations_renumbered (length els) sigma tau Hren
              (parameters_of {| element := els; bonds := Some bl |} bl)
              (parameters_of {| element := els';
                                bonds := Some (map (renumber_bond sigma) bl) |}
                 (map (renumber_bond sigma) bl))
              bl steps (fdec 100)
              (initial_charges (length els) w) (initial_charges (length els') w2))
    as (c1 & c1' & E & E' & _ & R1); try assumption.
  - now rewrite parameters_of_length.
  - now apply (parameters_of_renumbered (length els) sigma tau Hren).
  - exists c1, c1'. simpl. rewrite E, E'. split; [reflexivity |]. now split.
Qed.

Lemma renumbering_the_atoms_witness :
  exists c c' : list float,
    outcome (partial_charges
               {| element := ["C"; "F"; "H"; "H"; "H"];
                  bonds := Some [(0, 1, 1); (0, 2, 1); (0, 3, 1); (0, 4, 1)] |} 6
               no_charges) = inr c
    /\ outcome (partial_charges
                  {| element := ["F"; "C"; "H"; "H"; "H"];
                     bonds := Some (map (renumber_bond
                                (fun k => match k with 0 => 1 | 1 => 0 | _ => k end))
                              [(0, 1, 1); (0, 2, 1); (0, 3, 1); (0, 4, 1)]) |} 6
                  no_charges) = inr c'
    /\ renumbered (fun k => match k with 0 => 1 | 1 => 0 | _ => k end) c c'.
Proof.
  apply (renumbering_the_atoms
           (fun k => match k with 0 => 1 | 1 => 0 | _ => k end)
           (fun k => match k with 0 => 1 | 1 => 0 | _ => k end)
           ["C"; "F"; "H"; "H"; "H"] ["F"; "C"; "H"; "H"; "H"]
           [(0, 1, 1); (0, 2, 1); (0, 3, 1); (0, 4, 1)] 6 no_charges no_charges).
  - intros [|[|[|[|[|k]]]]] Hk; simpl in *; lia.
  - in_range.
  - split; [reflexivity |]. intros [|[|[|[|[|k]]]]] Hk; simpl in *; (reflexivity || lia).
  - reflexivity.
  - split; [reflexivity |]. intros [|[|[|[|[|k]]]]] Hk; simpl in *; (reflexivity || lia).
Defined.
